(** * Chili3D copilot: agent orchestration and retrieval pipeline

    A shallow embedding of the TypeScript sources of the
    [chili-copilot] and [chili-copilot-rag] packages:

    - [WorkflowStateMachine] (agentic/workflow-state-machine.ts),
    - [ExecutorAgent] (agentic/executor-agent.ts),
    - [ReasoningStreamProcessor] (agentic/reasoning-stream-processor.ts),
    - [ToolExecutor] and [validateToolInput] (tool-executor.ts),
    - [InMemoryVectorStore] (in-memory-vector-store.ts),
    - [ContextAssembler] (context-assembler.ts),
    - [estimateTokens], [chunkText], [cosineSimilarity] (utils.ts),
    - [IndexingPipeline.removeByPrefix] (indexing-pipeline.ts),
    - [BaseProvider.fetchWithRetry] and [BaseProvider.parseSSEStream]
      (providers/base-provider.ts).

    Conventions.  A JavaScript [Map] is an association list kept in
    insertion order ([JSMap]); a thrown [Error] is the right injection of
    a sum carrying the message; an object reference into an array is the
    position of the object in the array; a call to the language model is
    an oracle passed as an argument; a loop whose end is not evident
    runs on fuel and returns [None] when the fuel runs out.  Strings are
    sequences of UTF-16 code units, written with Rocq's 8-bit characters
    (code units 0-255).  The coordinates of an embedding and the
    similarity scores are IEEE 754 doubles (the primitive floats); token
    counts and budgets are integers. *)

From Stdlib Require Import List Arith ZArith Lia Bool String Ascii.
From Stdlib Require Import Relations Permutation Sorted.
From Stdlib Require Import Reals Lra.
From Stdlib Require Import DecimalString.
From Stdlib Require Import Floats.
Import ListNotations.

Set Implicit Arguments.
Set Warnings "-register-all".

(* ================================================================== *)
(** * Part I: the embedding *)
(* ================================================================== *)

(** ** JavaScript [Map]: insertion-ordered association list *)

Module JSMap.
Section WithKey.
Variables K V : Type.
Variable eqb : K -> K -> bool.

Definition t := list (K * V).

Definition empty : t := [].

Fixpoint get (k : K) (m : t) : option V :=
  match m with
  | [] => None
  | (k', v) :: r => if eqb k k' then Some v else get k r
  end.

Definition has (k : K) (m : t) : bool :=
  match get k m with Some _ => true | None => false end.

(** [Map.prototype.set]: an existing key keeps its position. *)
Fixpoint set (k : K) (v : V) (m : t) : t :=
  match m with
  | [] => [(k, v)]
  | (k', v') :: r => if eqb k k' then (k, v) :: r else (k', v') :: set k v r
  end.

Fixpoint delete (k : K) (m : t) : t :=
  match m with
  | [] => []
  | (k', v') :: r => if eqb k k' then r else (k', v') :: delete k r
  end.

Definition keys (m : t) : list K := map fst m.
Definition values (m : t) : list V := map snd m.
Definition size (m : t) : nat := List.length m.
End WithKey.
End JSMap.

(** ** Types of the agentic workflow (agentic/types.ts) *)

Inductive StepStatus := pending | active | done | failed | skipped.

Definition StepStatus_eqb (a b : StepStatus) : bool :=
  match a, b with
  | pending, pending | active, active | done, done
  | failed, failed | skipped, skipped => true
  | _, _ => false
  end.

Record PlanStep := mkStep {
  index : nat;
  label : string;
  description : string;
  dependsOn : list nat;
  toolHints : list string;
  status : StepStatus
}.

Record Plan := mkPlan {
  plan_id : string;
  title : string;
  plan_description : string;
  constraints : list (string * string);
  steps : list PlanStep;
  estimatedTokens : Z;
  estimatedCostUsd : Z
}.

Inductive ResultStatus := success | failure.

Record StepResult := mkResult {
  stepIndex : nat;
  result_status : ResultStatus;
  nodeIds : option (list string);
  result_error : option string
}.

Inductive QuestionType := q_text | q_choice | q_number | q_boolean.

Record ClarificationQuestion := mkQuestion {
  question_id : string;
  question : string;
  question_type : QuestionType;
  options : option (list string);
  default : option string;
  required : bool
}.

Inductive WorkflowState :=
| St_idle
| St_analyzing (userPrompt : string)
| St_clarifying (questions : list ClarificationQuestion)
                (answers : JSMap.t string string)
| St_planning (plan : Plan)
| St_awaiting_approval (plan : Plan)
| St_executing (plan : Plan) (currentStepIndex : Z)
| St_completed (plan : Plan) (results : list StepResult)
| St_error (error : string) (recoverable : bool).

(** The [phase] tag of a state, as the string the source compares. *)
Definition phase_of (s : WorkflowState) : string :=
  match s with
  | St_idle => "idle"
  | St_analyzing _ => "analyzing"
  | St_clarifying _ _ => "clarifying"
  | St_planning _ => "planning"
  | St_awaiting_approval _ => "awaiting_approval"
  | St_executing _ _ => "executing"
  | St_completed _ _ => "completed"
  | St_error _ _ => "error"
  end.

(** ** WorkflowStateMachine (agentic/workflow-state-machine.ts) *)

Module Workflow.

(** A listener is identified by a number; calling it is recorded in
    [notified], oldest call first. *)
Record Machine := mkMachine {
  _state : WorkflowState;
  _listeners : list nat;
  notified : list (nat * WorkflowState)
}.

Definition init : Machine := mkMachine St_idle [] [].

Definition phase (m : Machine) : string := phase_of (_state m).

Definition onStateChange (listener : nat) (m : Machine) : Machine :=
  mkMachine (_state m) (_listeners m ++ [listener]) (notified m).

(** The handle returned by [onStateChange]. *)
Definition unsubscribe (listener : nat) (m : Machine) : Machine :=
  mkMachine (_state m)
            (filter (fun l => negb (Nat.eqb l listener)) (_listeners m))
            (notified m).

Definition invalid_transition (expected actual : string) : string :=
  ("Invalid state transition: expected '" ++ expected ++ "', got '"
     ++ actual ++ "'")%string.

Definition assertPhase (expected : string) (m : Machine) : unit + string :=
  if String.eqb (phase m) expected then inl tt
  else inr (invalid_transition expected (phase m)).

Definition transition (newState : WorkflowState) (m : Machine) : Machine :=
  mkMachine newState (_listeners m)
            (notified m ++ map (fun l => (l, newState)) (_listeners m)).

Definition startAnalysis (userPrompt : string) (m : Machine)
  : Machine + string :=
  match assertPhase "idle" m with
  | inr e => inr e
  | inl _ => inl (transition (St_analyzing userPrompt) m)
  end.

Definition requestClarification (qs : list ClarificationQuestion)
           (m : Machine) : Machine + string :=
  match assertPhase "analyzing" m with
  | inr e => inr e
  | inl _ => inl (transition (St_clarifying qs (JSMap.empty _ _)) m)
  end.

(** Mutates the answer map of the live state; listeners are not called. *)
Definition answerQuestion (questionId answer : string) (m : Machine)
  : Machine + string :=
  match assertPhase "clarifying" m with
  | inr e => inr e
  | inl _ =>
      match _state m with
      | St_clarifying qs ans =>
          inl (mkMachine
                 (St_clarifying qs (JSMap.set String.eqb questionId answer ans))
                 (_listeners m) (notified m))
      | _ => inl m
      end
  end.

Definition startPlanning (p : Plan) (m : Machine) : Machine + string :=
  inl (transition (St_planning p) m).

Definition awaitApproval (p : Plan) (m : Machine) : Machine + string :=
  inl (transition (St_awaiting_approval p) m).

Definition startExecution (p : Plan) (m : Machine) : Machine + string :=
  match assertPhase "awaiting_approval" m with
  | inr e => inr e
  | inl _ => inl (transition (St_executing p 0%Z) m)
  end.

Definition advanceStep (stepIndex : Z) (m : Machine) : Machine + string :=
  match assertPhase "executing" m with
  | inr e => inr e
  | inl _ =>
      match _state m with
      | St_executing p _ => inl (transition (St_executing p stepIndex) m)
      | _ => inl m
      end
  end.

Definition complete (p : Plan) (results : list StepResult) (m : Machine)
  : Machine + string :=
  inl (transition (St_completed p results) m).

Definition setError (error : string) (recoverable : bool) (m : Machine)
  : Machine + string :=
  inl (transition (St_error error recoverable) m).

Definition reset (m : Machine) : Machine + string :=
  inl (transition St_idle m).

(** The ten mutating operations, as one call with its arguments. *)
Inductive Op :=
| op_startAnalysis (userPrompt : string)
| op_requestClarification (qs : list ClarificationQuestion)
| op_answerQuestion (questionId answer : string)
| op_startPlanning (p : Plan)
| op_awaitApproval (p : Plan)
| op_startExecution (p : Plan)
| op_advanceStep (stepIndex : Z)
| op_complete (p : Plan) (results : list StepResult)
| op_setError (error : string) (recoverable : bool)
| op_reset.

Definition call (o : Op) (m : Machine) : Machine + string :=
  match o with
  | op_startAnalysis u => startAnalysis u m
  | op_requestClarification qs => requestClarification qs m
  | op_answerQuestion q a => answerQuestion q a m
  | op_startPlanning p => startPlanning p m
  | op_awaitApproval p => awaitApproval p m
  | op_startExecution p => startExecution p m
  | op_advanceStep i => advanceStep i m
  | op_complete p r => complete p r m
  | op_setError e r => setError e r m
  | op_reset => reset m
  end.

Definition is_reset_or_setError (o : Op) : bool :=
  match o with op_setError _ _ | op_reset => true | _ => false end.

Definition succeeds (o : Op) (m : Machine) : Prop :=
  exists m', call o m = inl m'.

(** The contract as the specification words it: an operation either
    succeeds or fails with the invalid-transition message, and the
    operations that succeed from every phase are exactly [reset] and
    [setError]. *)
Definition contract_as_specified : Prop :=
  (forall o m, succeeds o m \/
               exists expected, call o m = inr (invalid_transition expected (phase m)))
  /\ (forall o, (forall m, succeeds o m) -> is_reset_or_setError o = true).

(** The phase an operation asserts, read off the source: [None] for an
    operation whose body has no [assertPhase]. *)
Definition asserted_phase (o : Op) : option string :=
  match o with
  | op_startAnalysis _ => Some "idle"
  | op_requestClarification _ => Some "analyzing"
  | op_answerQuestion _ _ => Some "clarifying"
  | op_startExecution _ => Some "awaiting_approval"
  | op_advanceStep _ => Some "executing"
  | op_startPlanning _ | op_awaitApproval _ | op_complete _ _
  | op_setError _ _ | op_reset => None
  end%string.

End Workflow.

(** ** ExecutorAgent (agentic/executor-agent.ts) *)

Module Executor.

(** *** [topologicalSort] *)

Definition InDegree := JSMap.t nat Z.
Definition Adjacency := JSMap.t nat (list nat).

(** [adjacency.get(k) ?? []] *)
Definition neighborsOf (adj : Adjacency) (k : nat) : list nat :=
  match JSMap.get Nat.eqb k adj with Some l => l | None => [] end.

(** [inDegree.get(k) ?? 1] *)
Definition degreeOf (inDeg : InDegree) (k : nat) : Z :=
  match JSMap.get Nat.eqb k inDeg with Some d => d | None => 1%Z end.

(** The inner loop [for (const dep of step.dependsOn)]. *)
Definition addEdges (stepIdx : nat) (deps : list nat) (adj : Adjacency)
  : Adjacency :=
  fold_left
    (fun a dep => JSMap.set Nat.eqb dep (neighborsOf a dep ++ [stepIdx]) a)
    deps adj.

(** One iteration of the first loop [for (const step of steps)]. *)
Definition addStep (g : InDegree * Adjacency) (step : PlanStep)
  : InDegree * Adjacency :=
  let inDeg :=
    JSMap.set Nat.eqb (index step)
              (Z.of_nat (List.length (dependsOn step))) (fst g) in
  let adj :=
    if JSMap.has Nat.eqb (index step) (snd g) then snd g
    else JSMap.set Nat.eqb (index step) [] (snd g) in
  (inDeg, addEdges (index step) (dependsOn step) adj).

Definition buildGraph (steps : list PlanStep) : InDegree * Adjacency :=
  fold_left addStep steps (JSMap.empty _ _, JSMap.empty _ _).

(** [for (const [index, degree] of inDegree) if (degree === 0) queue.push(index)] *)
Definition initialQueue (inDeg : InDegree) : list nat :=
  map fst (filter (fun kd => Z.eqb (snd kd) 0) inDeg).

(** [new Map(steps.map((s) => [s.index, s]))]: the value is the step
    object, kept as its position in [steps] together with its fields. *)
Fixpoint buildStepMap (pos : nat) (steps : list PlanStep)
         (m : JSMap.t nat (nat * PlanStep)) : JSMap.t nat (nat * PlanStep) :=
  match steps with
  | [] => m
  | s :: r => buildStepMap (S pos) r (JSMap.set Nat.eqb (index s) (pos, s) m)
  end.

Definition stepMapOf (steps : list PlanStep) : JSMap.t nat (nat * PlanStep) :=
  buildStepMap 0 steps (JSMap.empty _ _).

(** The loop over the neighbours of the step just taken off the queue. *)
Definition relaxOne (st : InDegree * list nat) (neighbor : nat)
  : InDegree * list nat :=
  let deg := (degreeOf (fst st) neighbor - 1)%Z in
  (JSMap.set Nat.eqb neighbor deg (fst st),
   if Z.eqb deg 0 then snd st ++ [neighbor] else snd st).

Definition relax (neighbors : list nat) (st : InDegree * list nat)
  : InDegree * list nat :=
  fold_left relaxOne neighbors st.

(** [while (queue.length > 0)], with fuel; [None] when the fuel runs out
    before the queue is empty. *)
Fixpoint kahnLoop (fuel : nat) (adj : Adjacency)
         (stepMap : JSMap.t nat (nat * PlanStep))
         (inDeg : InDegree) (queue : list nat) (sorted : list (nat * PlanStep))
  : option (list (nat * PlanStep)) :=
  match fuel with
  | O => None
  | S fuel' =>
      match queue with
      | [] => Some sorted
      | current :: rest =>
          let sorted' :=
            match JSMap.get Nat.eqb current stepMap with
            | Some step => sorted ++ [step]
            | None => sorted
            end in
          let st := relax (neighborsOf adj current) (inDeg, rest) in
          kahnLoop fuel' adj stepMap (fst st) (snd st) sorted'
      end
  end.

(** The sorted steps as references: position in [steps] and fields. *)
Definition topologicalSortRefs (steps : list PlanStep)
  : option (list (nat * PlanStep)) :=
  let g := buildGraph steps in
  kahnLoop (S (List.length steps)) (snd g) (stepMapOf steps)
           (fst g) (initialQueue (fst g)) [].

Definition topologicalSort (steps : list PlanStep) : option (list PlanStep) :=
  option_map (map snd) (topologicalSortRefs steps).

(** *** The dependency graph of a plan *)

(** [depends steps k d]: the step with index [k] lists [d] in [dependsOn]. *)
Definition depends (steps : list PlanStep) (k d : nat) : Prop :=
  exists s, In s steps /\ index s = k /\ In d (dependsOn s).

Definition acyclic (steps : list PlanStep) : Prop :=
  forall k, ~ clos_trans nat (depends steps) k k.

(** Well-formedness of a plan (data model): indices are unique and
    dependencies name indices of the same plan. *)
Definition uniqueIndices (steps : list PlanStep) : Prop :=
  NoDup (map index steps).

Definition closedDependencies (steps : list PlanStep) : Prop :=
  forall s d, In s steps -> In d (dependsOn s) -> In d (map index steps).

(** A step is on a cycle, or downstream of one, when following
    [dependsOn] edges from it reaches a step that depends on itself
    through one or more edges. *)
Definition onOrDownstreamOfCycle (steps : list PlanStep) (k : nat) : Prop :=
  exists c, clos_refl_trans nat (depends steps) k c
            /\ clos_trans nat (depends steps) c c.

(** *** [executePlan], [executeStep], [retryStep], [skipDependents] *)

(** What the outside world contributes to one run of [executePlan].
    A step is attempted at most once in a run, so the outcome of its
    conversation with the model is a function of the step's index:
    [first] is the result of [executeStep] (node ids on success, the
    optional error text on failure), [retry] the result of [retryStep]
    given the error message passed to it, and [aborted] is the value of
    [signal?.aborted] when the loop reaches the step. *)
Record Run := mkRun {
  aborted : nat -> bool;
  first : nat -> list string + option string;
  retry : nat -> string -> unit + option string
}.

Definition executeStep (r : Run) (step : PlanStep) : StepResult :=
  match first r (index step) with
  | inl ids => mkResult (index step) success (Some ids) None
  | inr e => mkResult (index step) failure None e
  end.

Definition retryStep (r : Run) (step : PlanStep) (errorMessage : string)
  : StepResult :=
  match retry r (index step) errorMessage with
  | inl _ => mkResult (index step) success None None
  | inr e => mkResult (index step) failure None e
  end.

(** [result.error ?? "Unknown error"] *)
Definition errorOrUnknown (res : StepResult) : string :=
  match result_error res with Some e => e | None => "Unknown error"%string end.

(** The mutable state of a run: the step objects of the plan (their
    [status] fields change in place), the [results] array, and a journal
    of every assignment to a [status] field, as (position of the step in
    the plan, new status), oldest first. *)
Record Exec := mkExec {
  ex_steps : list PlanStep;
  ex_results : list StepResult;
  ex_log : list (nat * StepStatus)
}.

Definition withStatus (s : PlanStep) (st : StepStatus) : PlanStep :=
  mkStep (index s) (label s) (description s) (dependsOn s) (toolHints s) st.

Fixpoint updStatus (pos : nat) (st : StepStatus) (l : list PlanStep)
         {struct l} : list PlanStep :=
  match l with
  | [] => []
  | s :: r =>
      match pos with
      | O => withStatus s st :: r
      | S pos' => s :: updStatus pos' st r
      end
  end.

(** [step.status = st] for the step object at position [pos]. *)
Definition mark (pos : nat) (st : StepStatus) (e : Exec) : Exec :=
  mkExec (updStatus pos st (ex_steps e)) (ex_results e) (ex_log e ++ [(pos, st)]).

(** The body of [skipDependents]: the loop [for (const step of steps)]
    over positions, with the recursive call passed as [rec]. *)
Fixpoint skipLoop (rec : nat -> Exec -> option Exec) (failedIndex : nat)
         (positions : list nat) (e : Exec) : option Exec :=
  match positions with
  | [] => Some e
  | pos :: rest =>
      match nth_error (ex_steps e) pos with
      | None => skipLoop rec failedIndex rest e
      | Some step =>
          if existsb (Nat.eqb failedIndex) (dependsOn step)
             && StepStatus_eqb (status step) pending
          then match rec (index step) (mark pos skipped e) with
               | None => None
               | Some e' => skipLoop rec failedIndex rest e'
               end
          else skipLoop rec failedIndex rest e
      end
  end.

(** [fuel] bounds the depth of the recursion; [None] when it runs out. *)
Fixpoint skipDependents (fuel : nat) (failedIndex : nat) (e : Exec)
  : option Exec :=
  match fuel with
  | O => None
  | S fuel' =>
      skipLoop (skipDependents fuel') failedIndex
               (seq 0 (List.length (ex_steps e))) e
  end.

Definition pushResult (res : StepResult) (e : Exec) : Exec :=
  mkExec (ex_steps e) (ex_results e ++ [res]) (ex_log e).

(** [results[results.length - 1] = res] *)
Definition replaceLastResult (res : StepResult) (e : Exec) : Exec :=
  mkExec (ex_steps e) (removelast (ex_results e) ++ [res]) (ex_log e).

Definition isSuccess (res : StepResult) : bool :=
  match result_status res with success => true | failure => false end.

(** The loop [for (const step of sortedSteps)] of [executePlan]; the
    sorted steps are references (positions) into the plan. *)
Fixpoint runSorted (r : Run) (sorted : list nat) (e : Exec) : option Exec :=
  match sorted with
  | [] => Some e
  | pos :: rest =>
      match nth_error (ex_steps e) pos with
      | None => Some e
      | Some step =>
          if aborted r (index step) then Some e
          else
            let e1 := mark pos active e in
            let result := executeStep r step in
            let e2 := pushResult result e1 in
            let e3 := mark pos (if isSuccess result then done else failed) e2 in
            if isSuccess result then runSorted r rest e3
            else
              let retryResult := retryStep r step (errorOrUnknown result) in
              if isSuccess retryResult
              then runSorted r rest (mark pos done (replaceLastResult retryResult e3))
              else skipDependents (S (List.length (ex_steps e3))) (index step) e3
      end
  end.

Definition executePlan (r : Run) (steps : list PlanStep) : option Exec :=
  match topologicalSortRefs steps with
  | None => None
  | Some sorted => runSorted r (map fst sorted) (mkExec steps [] [])
  end.

(** A step passes when its first attempt or its retry succeeds, and
    fails for good when both fail. *)
Definition passes (r : Run) (step : PlanStep) : bool :=
  isSuccess (executeStep r step)
  || isSuccess (retryStep r step (errorOrUnknown (executeStep r step))).

Definition failsAfterRetry (r : Run) (step : PlanStep) : bool :=
  negb (passes r step).

(** The status of the step with index [k] in a list of steps. *)
Definition statusOf (l : list PlanStep) (k : nat) : option StepStatus :=
  option_map status (find (fun s => Nat.eqb (index s) k) l).

(** *** Notions used to state what [skipDependents] does *)

(** [skipDependents] only turns [pending] into [skipped]. *)
Definition stepEvolves (a b : PlanStep) : Prop :=
  index a = index b /\ dependsOn a = dependsOn b
  /\ (status a = status b \/ (status a = pending /\ status b = skipped)).

Definition evolves (l l' : list PlanStep) : Prop := Forall2 stepEvolves l l'.

(** No step still [pending] lists [k] in its [dependsOn]. *)
Definition closedUnder (l : list PlanStep) (k : nat) : Prop :=
  forall t, In t l -> In k (dependsOn t) -> status t <> pending.

Definition pendingCount (l : list PlanStep) : nat :=
  List.length (filter (fun s => StepStatus_eqb (status s) pending) l).

(** The step with index [k] was [pending] in [l] and is [skipped] in [l']. *)
Definition newlySkipped (l l' : list PlanStep) (k : nat) : Prop :=
  exists pos u u',
    nth_error l pos = Some u /\ nth_error l' pos = Some u'
    /\ status u = pending /\ status u' = skipped /\ index u = k.

Definition skippedClosed (l l' : list PlanStep) : Prop :=
  forall k, newlySkipped l l' k -> closedUnder l' k.

Definition skipSpec (e e' : Exec) : Prop :=
  evolves (ex_steps e) (ex_steps e')
  /\ ex_results e' = ex_results e
  /\ (exists sl, ex_log e' = ex_log e ++ sl
                 /\ forall x, In x sl -> snd x = skipped)
  /\ skippedClosed (ex_steps e) (ex_steps e').

(** *** Notions used to state what [executePlan] does *)

(** Two arrays of steps that differ at most in the [status] fields. *)
Definition sameShape (l l' : list PlanStep) : Prop :=
  Forall2 (fun a b => index a = index b /\ dependsOn a = dependsOn b) l l'.

(** The steps once the steps at positions [ps] have been marked [done]. *)
Definition markedDone (ps : list nat) (l : list PlanStep) : list PlanStep :=
  fold_left (fun acc p => updStatus p done acc) ps l.

(** *** Notions used to state the loop invariant of [topologicalSort] *)

(** The [dependsOn] list of the step with index [k] (empty if none). *)
Definition depsOf (steps : list PlanStep) (k : nat) : list nat :=
  match find (fun s => Nat.eqb (index s) k) steps with
  | Some s => dependsOn s
  | None => []
  end.

(** Number of entries of [dependsOn] not yet taken off the queue. *)
Definition remaining (steps : list PlanStep) (processed : list nat) (k : nat)
  : nat :=
  List.length
    (filter (fun d => negb (existsb (Nat.eqb d) processed)) (depsOf steps k)).

(** What [adjacency.get(k)] holds after the first loop. *)
Definition adjSpec (steps : list PlanStep) (k : nat) : list nat :=
  flat_map
    (fun s => map (fun _ => index s) (filter (fun d => Nat.eqb d k) (dependsOn s)))
    steps.

(** The steps found in [stepMap] for a list of indices taken off the queue. *)
Definition refs (stepMap : JSMap.t nat (nat * PlanStep)) (l : list nat)
  : list (nat * PlanStep) :=
  flat_map
    (fun k => match JSMap.get Nat.eqb k stepMap with
              | Some r => [r]
              | None => []
              end) l.

(** Every index comes after all the indices its step depends on. *)
Inductive Ordered (steps : list PlanStep) : list nat -> Prop :=
| Ordered_nil : Ordered steps []
| Ordered_snoc l k :
    Ordered steps l ->
    (forall d, In d (depsOf steps k) -> In d l) ->
    Ordered steps (l ++ [k]).

(** The entry of [inDegree] a step sets. *)
Definition degreeEntry (s : PlanStep) : nat * Z :=
  (index s, Z.of_nat (List.length (dependsOn s))).

(** A reference [(pos, s)] names the step object at position [pos]. *)
Definition refOf (steps : list PlanStep) (k : nat) (r : nat * PlanStep) : Prop :=
  nth_error steps (fst r) = Some (snd r) /\ index (snd r) = k.

(** [chain R x l]: [l] is a path of [R]-edges leaving [x]. *)
Fixpoint chain (R : nat -> nat -> Prop) (x : nat) (l : list nat) {struct l}
  : Prop :=
  match l with
  | [] => True
  | y :: r => R x y /\ chain R y r
  end.

(** The invariant of the [while] loop: [processed] lists the indices
    already taken off the queue, oldest first. *)
Definition Inv (steps : list PlanStep) (processed queue : list nat)
           (inDeg : InDegree) : Prop :=
  (forall k, In k (map index steps) ->
             degreeOf inDeg k = Z.of_nat (remaining steps processed k))
  /\ NoDup (processed ++ queue)
  /\ (forall k, In k (processed ++ queue) <->
                In k (map index steps) /\ remaining steps processed k = 0)
  /\ Ordered steps processed.

End Executor.

(** ** JavaScript values and strings *)

(** The values a tool input, a tool output or a schema can hold.
    Numbers are idealised as integers; only their kind matters below. *)
Inductive JValue :=
| J_undefined
| J_null
| J_bool (b : bool)
| J_number (n : Z)
| J_string (s : string)
| J_array (items : list JValue)
| J_object (fields : list (string * JValue)).

(** [Array.prototype.join] on strings. *)
Fixpoint join (sep : string) (l : list string) : string :=
  match l with
  | [] => ""
  | [x] => x
  | x :: r => x ++ sep ++ join sep r
  end.

(** A thrown value: [new Error(message)]; an error object of another
    name (an instance of a subclass such as [TypeError], or an [Error]
    whose [name] was set); a string; or any other value, given by what
    [String] makes of it. *)
Inductive Fault :=
| ErrorObject (message : string)
| NamedError (name message : string)
| ThrownString (s : string)
| ThrownOther (rendering : string).

(** [Error.prototype.toString]: the name alone when the message is
    empty, the message alone when the name is empty. *)
Definition errorToString (name message : string) : string :=
  if String.eqb name "" then message
  else if String.eqb message "" then name
  else name ++ ": " ++ message.

(** [String(error)] *)
Definition String_of_fault (f : Fault) : string :=
  match f with
  | ErrorObject m => errorToString "Error" m
  | NamedError n m => errorToString n m
  | ThrownString s => s
  | ThrownOther r => r
  end.

(** ** ToolExecutor (tool-executor.ts) and tool types (tools.ts) *)

Module Tools.

Record ToolCall := mkCall {
  call_id : string;
  call_name : string;
  (** [Record<string, unknown>], as [Object.entries] lists it *)
  call_input : list (string * JValue)
}.

Record ToolResult := mkToolResult {
  tr_success : bool;
  tr_data : option JValue;
  tr_error : option string
}.

(** The part of a JSON schema [validateToolInput] reads: the optional
    [required] array and the optional [properties] record, of whose
    entries only the optional [type] string is read. *)
Record PropSchema := mkProp { prop_type : option string }.

Record Schema := mkSchema {
  schema_required : option (list string);
  schema_properties : option (list (string * PropSchema))
}.

(** An executor returns a value or throws. *)
Record ToolHandler := mkHandler {
  schema : Schema;
  execute_handler : list (string * JValue) -> JValue + Fault
}.

(** The input of a tool call and the [properties] of a schema are
    plain objects, as [JSON.parse] and object literals make them: next
    to the properties of their own they have those they inherit from
    [Object.prototype]. *)
Definition objectPrototypeKeys : list string :=
  ["constructor"; "__defineGetter__"; "__defineSetter__"; "hasOwnProperty";
   "__lookupGetter__"; "__lookupSetter__"; "isPrototypeOf";
   "propertyIsEnumerable"; "toString"; "valueOf"; "__proto__";
   "toLocaleString"]%string.

Definition inherited (key : string) : bool :=
  existsb (String.eqb key) objectPrototypeKeys.

(** [field in input]: true of an own property and of an inherited one. *)
Definition hasField (field : string) (input : list (string * JValue)) : bool :=
  existsb (fun kv => String.eqb (fst kv) field) input || inherited field.

(** [properties[key]], when it is truthy: the own property, else the
    inherited member, a function or object that has no [type]. *)
Definition lookupProp (key : string) (props : list (string * PropSchema))
  : option PropSchema :=
  match JSMap.get String.eqb key props with
  | Some propSchema => Some propSchema
  | None => if inherited key then Some (mkProp None) else None
  end.

Definition isString (v : JValue) : bool :=
  match v with J_string _ => true | _ => false end.
Definition isNumber (v : JValue) : bool :=
  match v with J_number _ => true | _ => false end.
Definition isArray (v : JValue) : bool :=
  match v with J_array _ => true | _ => false end.
(** [typeof value === "object" && value !== null]: arrays included. *)
Definition isObject (v : JValue) : bool :=
  match v with J_array _ | J_object _ => true | _ => false end.

(** The error of the [if ... else if] chain for one entry, if any. *)
Definition typeError (expectedType : option string) (key : string) (v : JValue)
  : list string :=
  match expectedType with
  | Some ty =>
      if String.eqb ty "string" && negb (isString v)
      then ["Field '" ++ key ++ "' must be a string"]
      else if String.eqb ty "number" && negb (isNumber v)
      then ["Field '" ++ key ++ "' must be a number"]
      else if String.eqb ty "array" && negb (isArray v)
      then ["Field '" ++ key ++ "' must be an array"]
      else if String.eqb ty "object" && negb (isObject v)
      then ["Field '" ++ key ++ "' must be an object"]
      else []
  | None => []
  end%string.

(** First loop: [for (const field of required)]. *)
Definition missingErrors (required : list string)
           (input : list (string * JValue)) : list string :=
  flat_map (fun field =>
              if hasField field input then []
              else ["Missing required field: " ++ field]%string)
           required.

(** Second loop: [for (const [key, value] of Object.entries(input))]. *)
Definition typeErrors (properties : list (string * PropSchema))
           (input : list (string * JValue)) : list string :=
  flat_map (fun kv =>
              match lookupProp (fst kv) properties with
              | None => []
              | Some propSchema => typeError (prop_type propSchema) (fst kv) (snd kv)
              end)
           input.

Definition validateToolInput (input : list (string * JValue)) (sch : Schema)
  : bool * list string :=
  let required := match schema_required sch with Some r => r | None => [] end in
  let properties := match schema_properties sch with Some p => p | None => [] end in
  let errors := missingErrors required input ++ typeErrors properties input in
  (match errors with [] => true | _ => false end, errors).

Definition Handlers := JSMap.t string ToolHandler.

Definition registerHandler (name : string) (h : ToolHandler) (hs : Handlers)
  : Handlers :=
  JSMap.set String.eqb name h hs.

Definition execute (hs : Handlers) (toolCall : ToolCall) : ToolResult :=
  match JSMap.get String.eqb (call_name toolCall) hs with
  | None =>
      mkToolResult false None (Some ("Unknown tool: " ++ call_name toolCall)%string)
  | Some handler =>
      let validation := validateToolInput (call_input toolCall) (schema handler) in
      if negb (fst validation)
      then mkToolResult false None (Some (join ", " (snd validation)))
      else match execute_handler handler (call_input toolCall) with
           | inl result => mkToolResult true (Some result) None
           | inr error => mkToolResult false None (Some (String_of_fault error))
           end
  end.

(** *** The schema checks as the specification describes them

    These notions are stated on the data alone, without the functions
    above, to be compared with what [validateToolInput] computes. *)






End Tools.

(** ** ReasoningStreamProcessor (agentic/reasoning-stream-processor.ts) *)

Module Stream.
Import Tools.

Inductive CallStatus := cs_pending | cs_success | cs_error.

Inductive StreamReasoningEntry :=
| E_thinking (content : string)
| E_tool_call (toolName : string) (input : list (string * JValue))
              (output : option JValue) (st : CallStatus)
| E_message (content : string).

(** The fields of a [ChatChunk] the processor reads. *)
Record ChatChunk := mkChunk {
  delta : string;
  thinking : option string;
  toolCalls : option (list ToolCall)
}.

(** The trace and the two local variables of [processStream]; an entry
    object held in a variable is its position in [entries]. *)
Record State := mkState {
  entries : list StreamReasoningEntry;
  currentThinking : option nat;
  currentMessage : option nat
}.

Fixpoint updAt (p : nat) (f : StreamReasoningEntry -> StreamReasoningEntry)
         (l : list StreamReasoningEntry) {struct l} : list StreamReasoningEntry :=
  match l with
  | [] => []
  | x :: r => match p with O => f x :: r | S p' => x :: updAt p' f r end
  end.

(** [entry.content += text] *)
Definition appendContent (text : string) (e : StreamReasoningEntry)
  : StreamReasoningEntry :=
  match e with
  | E_thinking c => E_thinking (c ++ text)
  | E_message c => E_message (c ++ text)
  | other => other
  end.

(** [toolEntry.output = result.data; toolEntry.status = ...] *)
Definition settle (result : ToolResult) (e : StreamReasoningEntry)
  : StreamReasoningEntry :=
  match e with
  | E_tool_call n i _ _ =>
      E_tool_call n i (tr_data result)
                  (if tr_success result then cs_success else cs_error)
  | other => other
  end.

(** A string is truthy when it is not empty. *)
Definition truthy (s : string) : bool := negb (String.eqb s "").

Definition routeThinking (c : ChatChunk) (st : State) : State :=
  match thinking c with
  | Some text =>
      if truthy text then
        let st1 :=
          match currentThinking st with
          | Some _ => st
          | None => mkState (entries st ++ [E_thinking ""])
                            (Some (List.length (entries st)))
                            (currentMessage st)
          end in
        match currentThinking st1 with
        | Some p => mkState (updAt p (appendContent text) (entries st1))
                            (currentThinking st1) (currentMessage st1)
        | None => st1
        end
      else st
  | None => st
  end.

Definition routeDelta (c : ChatChunk) (st : State) : State :=
  if truthy (delta c) then
    let st1 :=
      match currentMessage st with
      | Some _ => st
      | None => mkState (entries st ++ [E_message ""])
                        (currentThinking st)
                        (Some (List.length (entries st)))
      end in
    match currentMessage st1 with
    | Some p => mkState (updAt p (appendContent (delta c)) (entries st1))
                        (currentThinking st1) (currentMessage st1)
    | None => st1
    end
  else st.

(** One requested call: the entry is pushed as [pending], then settled
    with the result of [execute]; [execute] returns a result for every
    call, so the [catch] branch of the source is not entered. *)
Definition handleCall (hs : Handlers) (st : State) (call : ToolCall) : State :=
  let p := List.length (entries st) in
  let pushed := entries st ++ [E_tool_call (call_name call) (call_input call)
                                           None cs_pending] in
  mkState (updAt p (settle (execute hs call)) pushed)
          (currentThinking st) (currentMessage st).

Definition routeToolCalls (hs : Handlers) (c : ChatChunk) (st : State) : State :=
  match toolCalls c with
  | Some calls => fold_left (handleCall hs) calls st
  | None => st
  end.

Definition processChunk (hs : Handlers) (st : State) (c : ChatChunk) : State :=
  routeToolCalls hs c (routeDelta c (routeThinking c st)).

(** [processStream] on a trace that already holds [trace]. *)
Definition processStream (hs : Handlers) (stream : list ChatChunk)
           (trace : list StreamReasoningEntry) : list StreamReasoningEntry :=
  entries (fold_left (processChunk hs) stream (mkState trace None None)).

Definition isThinking (e : StreamReasoningEntry) : bool :=
  match e with E_thinking _ => true | _ => false end.
Definition isMessage (e : StreamReasoningEntry) : bool :=
  match e with E_message _ => true | _ => false end.
Definition isToolCall (e : StreamReasoningEntry) : bool :=
  match e with E_tool_call _ _ _ _ => true | _ => false end.

(** All reasoning text, all message text and all tool calls of a stream,
    in arrival order. *)
Definition thinkingText (c : ChatChunk) : string :=
  match thinking c with Some t => t | None => EmptyString end.
Definition allThinking (stream : list ChatChunk) : string :=
  fold_right append EmptyString (map thinkingText stream).
Definition allDelta (stream : list ChatChunk) : string :=
  fold_right append EmptyString (map delta stream).
Definition allCalls (stream : list ChatChunk) : list ToolCall :=
  flat_map (fun c => match toolCalls c with Some l => l | None => [] end) stream.

(** The trace entry of a finished tool call. *)
Definition settledEntry (hs : Handlers) (call : ToolCall) : StreamReasoningEntry :=
  settle (execute hs call)
         (E_tool_call (call_name call) (call_input call) None cs_pending).

(** The accumulator rule as the specification words it, on the shortest
    stream that exercises it: reasoning text, then a tool call, then
    reasoning text again opens a second [thinking] entry after the
    [tool_call] entry. *)
Definition reopens_after_tool_call : Prop :=
  forall hs a b call,
    truthy a = true -> truthy b = true ->
    processStream hs [mkChunk "" (Some a) None;
                      mkChunk "" None (Some [call]);
                      mkChunk "" (Some b) None] []
    = [E_thinking a; settledEntry hs call; E_thinking b].

(** The state of one accumulator ([thinking] or [message]) with respect
    to the entries [new] appended so far to [trace]: [P] recognises the
    kind, [mk] builds an entry of the kind, [cur] is the local variable
    and [acc] the text received so far for the kind. *)
Definition Slot (P : StreamReasoningEntry -> bool)
           (mk : string -> StreamReasoningEntry)
           (trace new : list StreamReasoningEntry)
           (cur : option nat) (acc : string) : Prop :=
  match cur with
  | None => filter P new = [] /\ acc = EmptyString
  | Some p =>
      List.length trace <= p
      /\ nth_error new (p - List.length trace) = Some (mk acc)
      /\ filter P new = [mk acc]
      /\ truthy acc = true
  end.

Definition StreamInv (hs : Handlers) (trace : list StreamReasoningEntry)
           (st : State) (accT accM : string) (calls : list ToolCall) : Prop :=
  exists new,
    entries st = trace ++ new
    /\ Slot isThinking E_thinking trace new (currentThinking st) accT
    /\ Slot isMessage E_message trace new (currentMessage st) accM
    /\ filter isToolCall new = map (settledEntry hs) calls.

End Stream.

(** ** Lexical utilities (utils.ts) *)

Module Utils.

(** [Math.ceil(text.length / 4)], and 0 for the empty string. *)
Definition estimateTokens (text : string) : Z :=
  if String.eqb text "" then 0%Z
  else ((Z.of_nat (String.length text) + 3) / 4)%Z.

(** White space of [\s] and of [trim], among the code units 0-255. *)
Definition isSpace (c : ascii) : bool :=
  let n := nat_of_ascii c in
  Nat.eqb n 9 || Nat.eqb n 10 || Nat.eqb n 11 || Nat.eqb n 12
  || Nat.eqb n 13 || Nat.eqb n 32 || Nat.eqb n 160.

Definition isNewline (c : ascii) : bool := Nat.eqb (nat_of_ascii c) 10.

(** The class [.!?] of the sentence pattern. *)
Definition isTerminator (c : ascii) : bool :=
  let n := nat_of_ascii c in
  Nat.eqb n 46 || Nat.eqb n 33 || Nat.eqb n 63.

Fixpoint dropSpaces (l : list ascii) : list ascii :=
  match l with
  | c :: r => if isSpace c then dropSpaces r else l
  | [] => []
  end.

(** [String.prototype.trim] *)
Definition trim (s : string) : string :=
  string_of_list_ascii
    (rev (dropSpaces (rev (dropSpaces (list_ascii_of_string s))))).

(** The separator [/\n\s*\n/] tried at the head of [l]: the number of
    code units it matches.  After the first newline the greedy [\s*]
    gives back characters until the pattern can end on a newline, so the
    match runs up to the last newline of the white-space run. *)
Fixpoint lastNewline (l : list ascii) (pos : nat) (best : option nat)
  : option nat :=
  match l with
  | c :: r =>
      if isSpace c
      then lastNewline r (S pos) (if isNewline c then Some (S pos) else best)
      else best
  | [] => best
  end.

Definition separatorLength (l : list ascii) : option nat :=
  match l with
  | c :: r =>
      if isNewline c
      then option_map S (lastNewline r 0 None)
      else None
  | [] => None
  end.

(** [text.split(/\n\s*\n/)] on a non-empty text; [skip] counts the code
    units of a separator still to pass, [cur] holds the current piece
    backwards. *)
Fixpoint splitGo (l : list ascii) (skip : nat) (cur : list ascii)
  : list (list ascii) :=
  match l with
  | [] => [rev cur]
  | c :: r =>
      match skip with
      | S k => splitGo r k cur
      | O =>
          match separatorLength l with
          | Some n => rev cur :: splitGo r (n - 1) []
          | None => splitGo r 0 (c :: cur)
          end
      end
  end.

Definition splitParagraphs (text : string) : list string :=
  map string_of_list_ascii (splitGo (list_ascii_of_string text) 0 []).

(** [s.match(/[^.!?]+[.!?]+\s*/g)]: the scanner is outside a match, in
    the run of [[^.!?]], in the run of [[.!?]], or in the trailing [\s*]. *)
Inductive SentenceState := Outside | InText | InMarks | InSpaces.

Fixpoint sentencesGo (l : list ascii) (state : SentenceState)
         (cur : list ascii) : list (list ascii) :=
  match l with
  | [] =>
      match state with
      | InMarks | InSpaces => [rev cur]
      | Outside | InText => []
      end
  | c :: r =>
      match state with
      | Outside =>
          if isTerminator c then sentencesGo r Outside []
          else sentencesGo r InText [c]
      | InText =>
          if isTerminator c then sentencesGo r InMarks (c :: cur)
          else sentencesGo r InText (c :: cur)
      | InMarks =>
          if isTerminator c then sentencesGo r InMarks (c :: cur)
          else if isSpace c then sentencesGo r InSpaces (c :: cur)
          else rev cur :: sentencesGo r InText [c]
      | InSpaces =>
          if isSpace c then sentencesGo r InSpaces (c :: cur)
          else if isTerminator c then rev cur :: sentencesGo r Outside []
          else rev cur :: sentencesGo r InText [c]
      end
  end.

(** The matches, or [None] for the [null] of a pattern that never matches. *)
Definition matchSentences (s : string) : option (list string) :=
  match sentencesGo (list_ascii_of_string s) Outside [] with
  | [] => None
  | l => Some (map string_of_list_ascii l)
  end.

(** [String.prototype.slice(start, end)] *)
Definition slice (s : string) (from to : Z) : string :=
  let len := Z.of_nat (String.length s) in
  let a := if (from <? 0)%Z then Z.max (len + from) 0 else Z.min from len in
  let b := if (to <? 0)%Z then Z.max (len + to) 0 else Z.min to len in
  substring (Z.to_nat a) (Z.to_nat (Z.max (b - a) 0)) s.

Definition nonEmpty (s : string) : bool := negb (String.eqb s "").

(** Two line feeds. *)
Definition blankLine : string := String "010" (String "010" EmptyString).

(** [for (let i = 0; i < sentence.length; i += maxChars - overlapChars)]
    with fuel; [None] when the fuel runs out, which happens exactly when
    the step is not positive and the loop never ends. *)
Fixpoint sliceLoop (fuel : nat) (sentence : string) (maxChars step : Z) (i : Z)
         (chunks : list string) : option (list string) :=
  if (i <? Z.of_nat (String.length sentence))%Z then
    match fuel with
    | O => None
    | S fuel' =>
        sliceLoop fuel' sentence maxChars step (i + step)%Z
                  (chunks ++ [trim (slice sentence i (i + maxChars))])
    end
  else Some chunks.

(** [for (const sentence of sentences)]: the state is [chunks] and
    [sentenceChunk]. *)
Fixpoint sentenceLoop (sentences : list string) (maxTokens overlap : Z)
         (chunks : list string) (sentenceChunk : string)
  : option (list string * string) :=
  match sentences with
  | [] => Some (chunks, sentenceChunk)
  | sentence :: rest =>
      if (estimateTokens (sentenceChunk ++ sentence) <=? maxTokens)%Z
      then sentenceLoop rest maxTokens overlap chunks (sentenceChunk ++ sentence)
      else
        let chunks1 :=
          if nonEmpty sentenceChunk then chunks ++ [trim sentenceChunk]
          else chunks in
        if (Z.of_nat (String.length sentence) >? maxTokens * 4)%Z
        then
          match sliceLoop (S (String.length sentence)) sentence
                          (maxTokens * 4) (maxTokens * 4 - overlap * 4) 0 chunks1 with
          | None => None
          | Some chunks2 => sentenceLoop rest maxTokens overlap chunks2 ""
          end
        else sentenceLoop rest maxTokens overlap chunks1 sentence
  end.

(** [for (const para of paragraphs)]: the state is [chunks] and [current]. *)
Fixpoint paragraphLoop (paragraphs : list string) (maxTokens overlap : Z)
         (chunks : list string) (current : string)
  : option (list string * string) :=
  match paragraphs with
  | [] => Some (chunks, current)
  | para :: rest =>
      let trimmed := trim para in
      if negb (nonEmpty trimmed)
      then paragraphLoop rest maxTokens overlap chunks current
      else if (estimateTokens (current ++ blankLine ++ trimmed) <=? maxTokens)%Z
      then paragraphLoop rest maxTokens overlap chunks
                         (if nonEmpty current
                          then current ++ blankLine ++ trimmed
                          else trimmed)
      else
        let chunks1 := if nonEmpty current then chunks ++ [current] else chunks in
        if (estimateTokens trimmed >? maxTokens)%Z
        then
          let sentences :=
            match matchSentences trimmed with
            | Some l => l
            | None => [trimmed]
            end in
          match sentenceLoop sentences maxTokens overlap chunks1 "" with
          | None => None
          | Some (chunks2, sentenceChunk) =>
              paragraphLoop rest maxTokens overlap
                            (if nonEmpty sentenceChunk
                             then chunks2 ++ [trim sentenceChunk]
                             else chunks2)
                            ""
          end
        else paragraphLoop rest maxTokens overlap chunks1 trimmed
  end.

(** [chunkText(text, { maxTokens, overlap })]; [None] when the call does
    not return. *)
Definition chunkText (text : string) (maxTokens overlap : Z)
  : option (list string) :=
  if negb (nonEmpty text) then Some []
  else
    match paragraphLoop (splitParagraphs text) maxTokens overlap [] "" with
    | None => None
    | Some (chunks, current) =>
        let chunks' := if nonEmpty current then chunks ++ [current] else chunks in
        Some (filter nonEmpty chunks')
    end.

(** The paragraphs of a text: the pieces between separators, trimmed,
    the empty ones left out. *)
Definition paragraphsOf (text : string) : list string :=
  filter nonEmpty (map trim (splitParagraphs text)).

(** The sentences a paragraph is cut into when it is too long. *)
Definition sentencesOf (paragraph : string) : list string :=
  match matchSentences paragraph with
  | Some l => l
  | None => [paragraph]
  end.

Definition concatAll (l : list string) : string :=
  fold_right append EmptyString l.

(** The code units of a string that are not white space. *)
Definition withoutSpaces (s : string) : list ascii :=
  filter (fun c => negb (isSpace c)) (list_ascii_of_string s).

(** Reconstruction up to white space: chunks and paragraphs hold the
    same code units in the same order once white space is left out. *)
Definition reconstructs (chunks paragraphs : list string) : Prop :=
  withoutSpaces (concatAll chunks) = withoutSpaces (concatAll paragraphs).

(** What the loop has output so far, the open chunk included. *)
Definition pendingChunks (chunks : list string) (current : string) : list string :=
  if nonEmpty current then chunks ++ [current] else chunks.

(** A paragraph is handled whole when it fits in [maxTokens], or when
    its sentences cover it and none is longer than [4 * maxTokens]
    code units. *)
Definition handledWhole (maxTokens : Z) (p : string) : Prop :=
  (estimateTokens p <= maxTokens)%Z
  \/ (concatAll (sentencesOf p) = p
      /\ forall s, In s (sentencesOf p) ->
                   (Z.of_nat (String.length s) <= maxTokens * 4)%Z).

(** The reconstruction property as the specification words it. *)
Definition chunkText_reconstructs_always : Prop :=
  forall text maxTokens overlap,
    text <> EmptyString ->
    exists chunks,
      chunkText text maxTokens overlap = Some chunks
      /\ reconstructs chunks (paragraphsOf text).

End Utils.

(** ** InMemoryVectorStore (in-memory-vector-store.ts) and
       [cosineSimilarity] (utils.ts) *)

Module VectorStore.

Inductive Source := scene_node | user_doc | api_doc | conversation.

Definition Source_eqb (a b : Source) : bool :=
  match a, b with
  | scene_node, scene_node | user_doc, user_doc
  | api_doc, api_doc | conversation, conversation => true
  | _, _ => false
  end.

Record DocumentMetadata := mkMetadata {
  md_source : Source;
  md_nodeId : option string;
  md_filePath : option string;
  md_chunkIndex : option Z;
  md_timestamp : Z
}.

Record VectorDocument := mkDoc {
  doc_id : string;
  embedding : list float;
  content : string;
  metadata : DocumentMetadata
}.

Record SearchResult := mkSearchResult {
  document : VectorDocument;
  score : float
}.

Record MetadataFilter := mkFilter {
  filter_source : option Source;
  filter_nodeId : option string
}.

(** The three errors thrown by the store and by [cosineSimilarity],
    with the two numbers their messages print. *)
Inductive StoreError :=
| EmbeddingDimensionsMismatch (expected got : nat)
| QueryDimensionsMismatch (expected got : nat)
| VectorDimensionsMismatch (a b : nat).

Record Store := mkStore {
  store_name : string;
  dimensions : nat;
  _documents : JSMap.t string VectorDocument
}.

Definition newStore (name : string) (dims : nat) : Store :=
  mkStore name dims (JSMap.empty _ _).

Definition count (st : Store) : nat := JSMap.size (_documents st).

(** [upsert]: the store after the call and its outcome; the documents
    set before a throw stay in the store. *)
Fixpoint upsert (documents : list VectorDocument) (st : Store)
  : Store * (unit + StoreError) :=
  match documents with
  | [] => (st, inl tt)
  | doc :: rest =>
      if negb (Nat.eqb (List.length (embedding doc)) (dimensions st))
      then (st, inr (EmbeddingDimensionsMismatch
                       (dimensions st) (List.length (embedding doc))))
      else upsert rest
                  (mkStore (store_name st) (dimensions st)
                           (JSMap.set String.eqb (doc_id doc) doc (_documents st)))
  end.

Definition remove (ids : list string) (st : Store) : Store :=
  mkStore (store_name st) (dimensions st)
          (fold_left (fun m id => JSMap.delete String.eqb id m) ids (_documents st)).

(** The three running sums of the loop of [cosineSimilarity].  An
    element of a [Float32Array] is read as the double of the same value,
    and the arithmetic is that of IEEE 754 doubles, rounding to nearest:
    the arithmetic of the primitive floats. *)
Fixpoint sums (a b : list float) (acc : float * float * float)
  : float * float * float :=
  match a, b with
  | x :: a', y :: b' =>
      let '(dotProduct, normA, normB) := acc in
      sums a' b' (dotProduct + x * y, normA + x * x, normB + y * y)%float
  | _, _ => acc
  end.

(** The value computed when the lengths agree; [===] on numbers is the
    IEEE equality, for which [-0] equals [0] and [NaN] equals nothing. *)
Definition cosineValue (a b : list float) : float :=
  let '(dotProduct, normA, normB) := sums a b (0, 0, 0)%float in
  let denominator := (sqrt normA * sqrt normB)%float in
  if (denominator =? 0)%float then 0%float
  else (dotProduct / denominator)%float.

Definition cosineSimilarity (a b : list float) : float + StoreError :=
  if negb (Nat.eqb (List.length a) (List.length b))
  then inr (VectorDimensionsMismatch (List.length a) (List.length b))
  else inl (cosineValue a b).

(** The two [continue] tests of the loop of [search]; an absent filter,
    an absent field and an empty [nodeId] string exclude nothing. *)
Definition passesFilter (filter : option MetadataFilter) (doc : VectorDocument)
  : bool :=
  match filter with
  | None => true
  | Some f =>
      match filter_source f with
      | Some src => Source_eqb (md_source (metadata doc)) src
      | None => true
      end
      && match filter_nodeId f with
         | Some n =>
             if String.eqb n "" then true
             else match md_nodeId (metadata doc) with
                  | Some m => String.eqb m n
                  | None => false
                  end
         | None => true
         end
  end.

(** The scoring loop over [this._documents.values()]. *)
Fixpoint scoreAll (query : list float) (filter : option MetadataFilter)
         (docs : list VectorDocument) : list SearchResult + StoreError :=
  match docs with
  | [] => inl []
  | doc :: rest =>
      if passesFilter filter doc then
        match cosineSimilarity query (embedding doc) with
        | inr e => inr e
        | inl sc =>
            match scoreAll query filter rest with
            | inr e => inr e
            | inl results => inl (mkSearchResult doc sc :: results)
            end
        end
      else scoreAll query filter rest
  end.

(** The comparator [(a, b) => b.score - a.score]. *)
Definition compareFn (a b : SearchResult) : float := (score b - score a)%float.

(** [Array.prototype.sort] is stable: an element stays behind the
    earlier elements unless the comparator returns a positive number
    for them; a comparator result of [NaN] counts as 0.  When the
    comparator orders the elements consistently every implementation
    returns this order.  When it does not, which takes a [NaN] score,
    the language leaves the order to the implementation; the order
    below is then that of an insertion sort. *)
Fixpoint insertSorted (x : SearchResult) (l : list SearchResult)
  : list SearchResult :=
  match l with
  | [] => [x]
  | y :: r =>
      if (0 <? compareFn y x)%float then x :: y :: r
      else y :: insertSorted x r
  end.

Definition sortResults (l : list SearchResult) : list SearchResult :=
  fold_left (fun acc x => insertSorted x acc) l [].

Definition search (query : list float) (topK : nat) (filter : option MetadataFilter)
           (st : Store) : list SearchResult + StoreError :=
  if negb (Nat.eqb (List.length query) (dimensions st))
  then inr (QueryDimensionsMismatch (dimensions st) (List.length query))
  else match scoreAll query filter (JSMap.values (_documents st)) with
       | inr e => inr e
       | inl results => inl (firstn topK (sortResults results))
       end.

(** Every stored embedding has the store's dimensionality. *)
Definition wellFormed (st : Store) : Prop :=
  forall d, In d (JSMap.values (_documents st)) ->
            List.length (embedding d) = dimensions st.

(** *** The search as the specification describes it

    These notions are stated on the data alone, without the functions
    above, to be compared with what [search] computes.  Sums are taken
    in index order, in double arithmetic. *)


Definition sumSquares (a : list float) : float :=
  fold_left (fun acc x => (acc + x * x)%float) a 0%float.

(** The Euclidean norm. *)
Definition norm (a : list float) : float := sqrt (sumSquares a).







End VectorStore.

(** ** ContextAssembler (context-assembler.ts) *)

Module Context.
Import Utils.

Inductive Role := role_system | role_user | role_assistant | role_tool.

Inductive ContentPart :=
| TextPart (text : string)
| ImagePart.

Record ChatMessage := mkMessage {
  role : Role;
  msg_content : list ContentPart
}.

(** What the collaborators answer during one call of [buildContext]:
    [store_count] is [vectorStore.count]; [ranked] is the content of the
    documents returned by [vectorStore.search(queryEmbedding, 10)] in
    rank order, or [None] when [embedText] or [search] throws. *)
Record Retrieval := mkRetrieval {
  store_count : nat;
  ranked : option (list string)
}.

Definition defaultSystemPrompt : string :=
  ("You are a CAD Copilot assistant for Chili3D. "
   ++ "You help users create, modify, and reason about 3D geometry. "
   ++ "You can create sketches, extrude shapes, perform boolean operations, "
   ++ "apply materials, and query the scene graph. "
   ++ "Always explain your reasoning step by step.")%string.

(** The loop of [selectChunks]: the chunks selected before the [break]. *)
Fixpoint selectLoop (chunks : list string) (budgetTokens used : Z)
  : list string :=
  match chunks with
  | [] => []
  | chunk :: rest =>
      let tokens := estimateTokens chunk in
      if (used + tokens >? budgetTokens)%Z then []
      else chunk :: selectLoop rest budgetTokens (used + tokens)
  end.

Definition chunkSeparator : string :=
  (blankLine ++ "---" ++ blankLine)%string.

Definition selectChunks (chunks : list string) (budgetTokens : Z) : string :=
  join chunkSeparator (selectLoop chunks budgetTokens 0).

(** [Math.min(4000, Math.floor((tokenBudget - usedTokens) * 0.4))], the
    product by 0.4 taken exactly. *)
Definition ragBudgetOf (tokenBudget usedTokens : Z) : Z :=
  Z.min 4000 ((tokenBudget - usedTokens) * 2 / 5).

(** The text of a message as [truncateHistory] measures it. *)
Definition messageText (m : ChatMessage) : string :=
  join " " (flat_map (fun c => match c with TextPart t => [t] | ImagePart => [] end)
                     (msg_content m)).

(** The loop of [truncateHistory], over the history from the most recent
    message backwards; the result is in chronological order. *)
Fixpoint truncateLoop (reversed : list ChatMessage) (budgetTokens used : Z)
         (result : list ChatMessage) : list ChatMessage :=
  match reversed with
  | [] => result
  | msg :: older =>
      let tokens := estimateTokens (messageText msg) in
      if (used + tokens >? budgetTokens)%Z then result
      else truncateLoop older budgetTokens (used + tokens) (msg :: result)
  end.

Definition truncateHistory (history : list ChatMessage) (budgetTokens : Z)
  : list ChatMessage :=
  if (budgetTokens <=? 0)%Z then []
  else truncateLoop (rev history) budgetTokens 0 [].

(** Step 3 of [buildContext]: the retrieved-knowledge text. *)
Definition ragContextOf (rt : Retrieval) (tokenBudget usedTokens : Z) : string :=
  if Nat.ltb 0 (store_count rt) then
    match ranked rt with
    | Some contents => selectChunks contents (ragBudgetOf tokenBudget usedTokens)
    | None => ""
    end
  else "".

Definition buildContext (rt : Retrieval) (query : string)
           (conversationHistory : list ChatMessage) (sceneContext : string)
           (tokenBudget : Z) (systemPrompt : option string)
  : list ChatMessage :=
  let system := match systemPrompt with Some p => p | None => defaultSystemPrompt end in
  let usedTokens1 := (estimateTokens system + estimateTokens sceneContext)%Z in
  let ragContext := ragContextOf rt tokenBudget usedTokens1 in
  let usedTokens2 :=
    if Nat.ltb 0 (store_count rt)
    then match ranked rt with
         | Some _ => (usedTokens1 + estimateTokens ragContext)%Z
         | None => usedTokens1
         end
    else usedTokens1 in
  let historyBudget := (tokenBudget - usedTokens2 - estimateTokens query - 500)%Z in
  let history := truncateHistory conversationHistory historyBudget in
  let userParts :=
    (if nonEmpty sceneContext
     then [TextPart ("Scene:" ++ String "010" sceneContext)] else [])
    ++ (if nonEmpty ragContext
        then [TextPart ("Relevant context:" ++ String "010" ragContext)] else [])
    ++ [TextPart query] in
  [mkMessage role_system [TextPart system]] ++ history
  ++ [mkMessage role_user userParts].

(** Total estimate of a list of chunks. *)
Definition totalTokens (chunks : list string) : Z :=
  fold_right (fun c acc => (estimateTokens c + acc)%Z) 0%Z chunks.

End Context.

(** The documents of a batch set one after the other, as [upsert] does
    while none is rejected. *)
Definition insertAll (documents : list VectorStore.VectorDocument)
           (m : JSMap.t string VectorStore.VectorDocument)
  : JSMap.t string VectorStore.VectorDocument :=
  fold_left (fun acc d => JSMap.set String.eqb (VectorStore.doc_id d) d acc)
            documents m.

(** ** Sample documents *)

Definition sampleDoc (id : string) (e : list float) (text : string)
  : VectorStore.VectorDocument :=
  VectorStore.mkDoc id e text
    (VectorStore.mkMetadata VectorStore.scene_node None None None 0).

(** ** Sample retrieval *)

(** Three ranked chunks of 2, 10 and 1 tokens. *)
Definition sampleRanked : list string :=
  ["aaaaaaaa"; "0123456789012345678901234567890123456789"; "bb"]%string.

Definition sampleRetrieval : Context.Retrieval :=
  Context.mkRetrieval 3 (Some sampleRanked).

(** A store of dimension 3 holding the x axis and the y axis. *)
Definition axesStore : VectorStore.Store :=
  fst (VectorStore.upsert
         [sampleDoc "a" [1; 0; 0]%float "x-axis";
          sampleDoc "b" [0; 1; 0]%float "y-axis"]
         (VectorStore.newStore "test" 3)).


(** ** Sample tool handlers *)

(** The handler of the test suite: requires a numeric [value], doubles it. *)
Definition doubleHandler : Tools.ToolHandler :=
  Tools.mkHandler
    (Tools.mkSchema (Some ["value"%string])
                    (Some [("value"%string, Tools.mkProp (Some "number"%string))]))
    (fun input =>
       match JSMap.get String.eqb "value"%string input with
       | Some (J_number n) => inl (J_object [("doubled"%string, J_number (n * 2))])
       | _ => inr (ErrorObject "value is not a number")
       end).

(** A handler with an empty schema whose executor throws. *)
Definition failingHandler : Tools.ToolHandler :=
  Tools.mkHandler (Tools.mkSchema None (Some []))
                  (fun _ => inr (ErrorObject "CAD engine error")).

Definition sampleHandlers : Tools.Handlers :=
  Tools.registerHandler "failing" failingHandler
    (Tools.registerHandler "double" doubleHandler (JSMap.empty _ _)).

(** ** Sample plans *)

(** The plan of the workflow tests. *)
Definition emptyPlan : Plan := mkPlan "p1" "Test" "" [] [] 1000 0.

Definition sampleStep (i : nat) (deps : list nat) : PlanStep :=
  mkStep i "" "" deps [] pending.

(** The diamond of the test suite: A; B and C after A; D after B and C. *)
Definition diamondPlan : list PlanStep :=
  [sampleStep 0 []; sampleStep 1 [0]; sampleStep 2 [0]; sampleStep 3 [1; 2]].

(** Steps 1 and 2 depend on each other; step 3 is downstream of them. *)
Definition cyclicPlan : list PlanStep :=
  [sampleStep 0 []; sampleStep 1 [2]; sampleStep 2 [1]; sampleStep 3 [2]].

(** A run of the diamond in which step 1 fails twice and nothing aborts. *)
Definition failingRun : Executor.Run :=
  Executor.mkRun (fun _ => false)
                 (fun k => if Nat.eqb k 1 then inr (Some "boom"%string) else inl [])
                 (fun _ _ => inr None).

(** ** Sequences of calls on a WorkflowStateMachine *)

Module WorkflowRuns.
Import Workflow.

(** What a client can do with a machine: call a mutating operation,
    register a listener, or call the handle [onStateChange] returned for
    a listener. *)
Inductive Action :=
| a_call (o : Op)
| a_subscribe (listener : nat)
| a_unsubscribe (listener : nat).

(** A rejected operation throws in [assertPhase], before anything is
    assigned: the machine is left as it was. *)
Definition act (m : Machine) (a : Action) : Machine :=
  match a with
  | a_call o => match call o m with inl m' => m' | inr _ => m end
  | a_subscribe l => onStateChange l m
  | a_unsubscribe l => unsubscribe l m
  end.

Definition run (actions : list Action) (m : Machine) : Machine :=
  fold_left act actions m.

(** The states a listener has been called with, oldest first. *)
Definition heardBy (listener : nat) (m : Machine) : list WorkflowState :=
  map snd (filter (fun x => Nat.eqb (fst x) listener) (notified m)).

Definition subscribes (listener : nat) (a : Action) : bool :=
  match a with a_subscribe l => Nat.eqb l listener | _ => false end.

Definition isAnswer (o : Op) : bool :=
  match o with op_answerQuestion _ _ => true | _ => false end.

End WorkflowRuns.

(** ** The result [executePlan] keeps for a step *)

Module ExecutorRuns.
Import Executor.

(** The entry of [results] for a step the loop has gone past: the first
    result when it is a success, else the result of the retry, which
    [results[results.length - 1] = retryResult] puts in its place. *)
Definition keptResult (r : Run) (step : PlanStep) : StepResult :=
  if isSuccess (executeStep r step) then executeStep r step
  else retryStep r step (errorOrUnknown (executeStep r step)).

(** What a call of [skipDependents] may do to a run. *)
Definition skipsOnlyDependents (k : nat) (e e' : Exec) : Prop :=
  evolves (ex_steps e) (ex_steps e')
  /\ ex_results e' = ex_results e
  /\ forall j, newlySkipped (ex_steps e) (ex_steps e') j ->
               clos_trans nat (depends (ex_steps e)) j k.

(** A step that waits for no other step: its in-degree is 0 from the start. *)
Definition independent (s : PlanStep) : bool :=
  match dependsOn s with [] => true | _ :: _ => false end.

(** A step one of whose dependencies names no step of the plan. *)
Definition danglingDependency (steps : list PlanStep) (t : PlanStep) : Prop :=
  exists d, In d (dependsOn t) /\ ~ In d (map index steps).

(** A plan whose step 1 depends on an index that is not in the plan. *)
Definition danglingPlan : list PlanStep :=
  [mkStep 0 "" "" [] [] pending; mkStep 1 "" "" [7] [] pending;
   mkStep 2 "" "" [1] [] pending; mkStep 3 "" "" [0] [] pending].

(** A run in which nothing aborts and every first attempt succeeds. *)
Definition smoothRun : Run :=
  mkRun (fun _ => false) (fun _ => inl []) (fun _ _ => inl tt).

(** A run aborted when the loop reaches step 2; step 1 needs its retry. *)
Definition abortedRun : Run :=
  mkRun (fun k => Nat.eqb k 2)
        (fun k => if Nat.eqb k 1 then inr (Some "boom"%string) else inl [])
        (fun _ _ => inl tt).

End ExecutorRuns.

(** ** [executeStep] and [retryStep] on the reply of the provider *)

Module StepRuns.
Import Tools Stream.

(** What [provider.chat] yields for one request: the chunks, and the
    value the stream throws after them, if it throws. *)
Record Reply := mkReply {
  chunks : list ChatChunk;
  thrown : option Fault
}.

(** The object [executeStep] and [retryStep] return.  [nodeIds] holds
    whatever the tools returned under [nodeId]: the cast to [string] in
    the source checks nothing. *)
Record Attempt := mkAttempt {
  at_stepIndex : nat;
  at_status : ResultStatus;
  at_nodeIds : option (list JValue);
  at_error : option string
}.

(** Truthiness of a value (numbers are integers here: only 0 is falsy). *)
Definition truthyValue (v : JValue) : bool :=
  match v with
  | J_undefined | J_null => false
  | J_bool b => b
  | J_number n => negb (Z.eqb n 0)
  | J_string s => truthy s
  | J_array _ | J_object _ => true
  end.

Definition truthyData (data : option JValue) : bool :=
  match data with Some v => truthyValue v | None => false end.

(** [data["nodeId"]] *)
Definition nodeIdOf (data : option JValue) : JValue :=
  match data with
  | Some (J_object fields) =>
      match JSMap.get String.eqb "nodeId"%string fields with
      | Some v => v
      | None => J_undefined
      end
  | _ => J_undefined
  end.

(** The loop [for (const call of chunk.toolCalls)] of [executeStep]:
    the node ids so far, or the error of the [return] inside the loop. *)
Fixpoint callsLoop (hs : Handlers) (calls : list ToolCall) (nodeIds : list JValue)
  : list JValue + option string :=
  match calls with
  | [] => inl nodeIds
  | call :: rest =>
      let toolResult := execute hs call in
      if tr_success toolResult && truthyData (tr_data toolResult)
      then
        let nodeId := nodeIdOf (tr_data toolResult) in
        callsLoop hs rest (if truthyValue nodeId then nodeIds ++ [nodeId] else nodeIds)
      else if negb (tr_success toolResult) then inr (tr_error toolResult)
      else callsLoop hs rest nodeIds
  end.

(** The loop [for await (const chunk of stream)] of [executeStep]. *)
Fixpoint chunksLoop (hs : Handlers) (stream : list ChatChunk) (nodeIds : list JValue)
  : list JValue + option string :=
  match stream with
  | [] => inl nodeIds
  | chunk :: rest =>
      match toolCalls chunk with
      | Some calls =>
          match callsLoop hs calls nodeIds with
          | inl nodeIds' => chunksLoop hs rest nodeIds'
          | inr error => inr error
          end
      | None => chunksLoop hs rest nodeIds
      end
  end.

Definition executeStep (hs : Handlers) (reply : Reply) (step : PlanStep) : Attempt :=
  match chunksLoop hs (chunks reply) [] with
  | inr error => mkAttempt (index step) failure None error
  | inl nodeIds =>
      match thrown reply with
      | Some error =>
          mkAttempt (index step) failure None (Some (String_of_fault error))
      | None => mkAttempt (index step) success (Some nodeIds) None
      end
  end.

(** The two loops of [retryStep]: [None] when they run to the end, else
    the error of the [return] inside them. *)
Fixpoint retryCalls (hs : Handlers) (calls : list ToolCall)
  : option (option string) :=
  match calls with
  | [] => None
  | call :: rest =>
      let result := execute hs call in
      if negb (tr_success result) then Some (tr_error result)
      else retryCalls hs rest
  end.

Fixpoint retryChunks (hs : Handlers) (stream : list ChatChunk)
  : option (option string) :=
  match stream with
  | [] => None
  | chunk :: rest =>
      match toolCalls chunk with
      | Some calls =>
          match retryCalls hs calls with
          | None => retryChunks hs rest
          | Some error => Some error
          end
      | None => retryChunks hs rest
      end
  end.

Definition retryStep (hs : Handlers) (reply : Reply) (step : PlanStep) : Attempt :=
  match retryChunks hs (chunks reply) with
  | Some error => mkAttempt (index step) failure None error
  | None =>
      match thrown reply with
      | Some error =>
          mkAttempt (index step) failure None (Some (String_of_fault error))
      | None => mkAttempt (index step) success None None
      end
  end.

(** The first tool call of a stream that fails, if any. *)
Definition fails (hs : Handlers) (call : ToolCall) : bool :=
  negb (tr_success (execute hs call)).

Definition firstFailure (hs : Handlers) (stream : list ChatChunk) : option ToolCall :=
  find (fails hs) (allCalls stream).

(** The node id a finished call contributes, if any. *)
Definition nodeIdsOf (hs : Handlers) (call : ToolCall) : list JValue :=
  let toolResult := execute hs call in
  if tr_success toolResult && truthyData (tr_data toolResult)
     && truthyValue (nodeIdOf (tr_data toolResult))
  then [nodeIdOf (tr_data toolResult)] else [].

(** A handler that creates a node, and a reply that uses it, then the
    failing handler. *)
Definition boxHandler : ToolHandler :=
  mkHandler (mkSchema None None)
            (fun _ => inl (J_object [("nodeId"%string, J_string "n1")])).

Definition boxHandlers : Handlers :=
  registerHandler "failing" (mkHandler (mkSchema None (Some []))
                                       (fun _ => inr (ErrorObject "CAD engine error")))
    (registerHandler "box" boxHandler (JSMap.empty _ _)).

Definition failingReply : Reply :=
  mkReply [mkChunk "" None (Some [mkCall "c1" "box" []]);
           mkChunk "" None (Some [mkCall "c2" "failing" []; mkCall "c3" "box" []])]
          None.

End StepRuns.

(** ** Sequences of calls on an InMemoryVectorStore *)

Module StoreRuns.
Import VectorStore.

(** [clear] and [dispose] both empty the map. *)
Definition clear (st : Store) : Store :=
  mkStore (store_name st) (dimensions st) (JSMap.empty _ _).

Definition dispose (st : Store) : Store :=
  mkStore (store_name st) (dimensions st) (JSMap.empty _ _).

(** [this._documents.get(id)] *)
Definition getDocument (id : string) (st : Store) : option VectorDocument :=
  JSMap.get String.eqb id (_documents st).

(** A call that changes the store.  An [upsert] that throws leaves the
    store as it was when it threw. *)
Inductive StoreCall :=
| c_upsert (documents : list VectorDocument)
| c_remove (ids : list string)
| c_clear
| c_dispose.

Definition perform (st : Store) (c : StoreCall) : Store :=
  match c with
  | c_upsert documents => fst (upsert documents st)
  | c_remove ids => remove ids st
  | c_clear => clear st
  | c_dispose => dispose st
  end.

Definition performAll (calls : list StoreCall) (st : Store) : Store :=
  fold_left perform calls st.

(** What holds of the map of a store whatever has been done to it. *)
Definition StoreInv (st : Store) : Prop :=
  wellFormed st
  /\ NoDup (JSMap.keys (_documents st))
  /\ forall k d, In (k, d) (_documents st) -> k = doc_id d.

End StoreRuns.

(** ** Measure used to state the size of the chunks of [chunkText] *)

Module ChunkSizes.
Import Utils.

(** Every chunk of a list is within [maxTokens]. *)
Definition fits (maxTokens : Z) (chunks : list string) : Prop :=
  Forall (fun c => (estimateTokens c <= maxTokens)%Z) chunks.

End ChunkSizes.

(** ** Measures used to state what the context assembler keeps *)

Module ContextRuns.
Import Utils Context.

(** The estimate [truncateHistory] adds up for a list of messages. *)
Definition historyTokens (l : list ChatMessage) : Z :=
  fold_right (fun m acc => (estimateTokens (messageText m) + acc)%Z) 0%Z l.

(** The parts of the final user message. *)
Definition userPartsOf (sceneContext ragContext query : string) : list ContentPart :=
  (if nonEmpty sceneContext
   then [TextPart ("Scene:" ++ String "010" sceneContext)] else [])
  ++ (if nonEmpty ragContext
      then [TextPart ("Relevant context:" ++ String "010" ragContext)] else [])
  ++ [TextPart query].

(** The retrieved-knowledge text [buildContext] ends up with. *)
Definition ragTextOf (rt : Retrieval) (tokenBudget : Z) (system sceneContext : string)
  : string :=
  ragContextOf rt tokenBudget (estimateTokens system + estimateTokens sceneContext)%Z.

End ContextRuns.

(** ** IndexingPipeline (indexing-pipeline.ts) *)

Module Indexing.
Import VectorStore.

(** The id [indexDocument] gives to the [i]-th chunk of a document:
    [`${docId}:chunk:${i}`]. *)
Definition chunkId (docId : string) (i : nat) : string :=
  (docId ++ ":chunk:" ++ NilEmpty.string_of_uint (Nat.to_uint i))%string.

(** [removeByPrefix]: one call of [store.remove], with the prefix as the
    only id. *)
Definition removeByPrefix (prefix : string) (st : Store) : Store :=
  remove [prefix] st.

End Indexing.

(** ** BaseProvider: [fetchWithRetry] *)

Module Retry.

(** What [fetchWithRetry] reads of a [Response]: the status and the
    value of [headers.get("Retry-After")] ([None] for [null]). *)
Record Response := mkResponse {
  status : Z;
  retryAfter : option string
}.

(** The outside world: the outcome of [fetch] at each attempt (a
    response, or a thrown value) and the value of [Math.random()] drawn
    at that attempt. *)
Record World := mkWorld {
  fetch : nat -> Response + Fault;
  random : nat -> R
}.

Section WithParseInt.
(** [Number.parseInt(s, 10)] *)
Variable parseInt : string -> R.

(** [Math.min(1000 * 2 ** attempt + Math.random() * 1000, 30000)] *)
Definition backoff (w : World) (attempt : nat) : R :=
  Rmin (1000 * 2 ^ attempt + random w attempt * 1000) 30000.

Definition delayFor (w : World) (attempt : nat) (response : Response) : R :=
  match retryAfter response with
  | Some text =>
      if negb (String.eqb text "") then (parseInt text * 1000)%R
      else backoff w attempt
  | None => backoff w attempt
  end.

(** The loop [for (let attempt = 0; attempt <= maxRetries; attempt++)],
    with [remaining] turns left; the result is what is returned or
    thrown, and the delays slept, oldest first. *)
Fixpoint attempts (w : World) (maxRetries remaining attempt : nat)
         (lastError : option Fault) (slept : list R)
  : (Response + Fault) * list R :=
  match remaining with
  | O =>
      (inr (match lastError with
            | Some error => error
            | None => ErrorObject "Request failed after retries"
            end), slept)
  | S remaining' =>
      match fetch w attempt with
      | inl response =>
          if Z.eqb (status response) 429 && Nat.ltb attempt maxRetries
          then attempts w maxRetries remaining' (S attempt) lastError
                        (slept ++ [delayFor w attempt response])
          else (inl response, slept)
      | inr error =>
          attempts w maxRetries remaining' (S attempt) (Some error)
                   (if Nat.ltb attempt maxRetries
                    then slept ++ [backoff w attempt] else slept)
      end
  end.

Definition fetchWithRetry (w : World) (maxRetries : nat)
  : (Response + Fault) * list R :=
  attempts w maxRetries (S maxRetries) 0 None [].

End WithParseInt.

(** An attempt after which the loop goes on: [fetch] threw, or answered 429. *)
Definition retried (w : World) (attempt : nat) : Prop :=
  match fetch w attempt with
  | inl response => status response = 429%Z
  | inr _ => True
  end.

(** A world whose first two attempts are rate-limited. *)
Definition busyWorld : World :=
  mkWorld (fun k => if Nat.ltb k 2 then inl (mkResponse 429 None)
                    else inl (mkResponse 200 None))
          (fun _ => 0%R).

End Retry.

(** ** BaseProvider: [parseSSEStream] *)

Module SSE.
Import Utils.

(** [buffer.split("\n")]; [cur] holds the current piece backwards. *)
Fixpoint splitLines (l : list ascii) (cur : list ascii) : list string :=
  match l with
  | [] => [string_of_list_ascii (rev cur)]
  | c :: r =>
      if isNewline c then string_of_list_ascii (rev cur) :: splitLines r []
      else splitLines r (c :: cur)
  end.

Definition split (text : string) : list string :=
  splitLines (list_ascii_of_string text) [].

(** The payload of a line: [trimmed.slice(6)] when the trimmed line
    starts with ["data: "]. *)
Definition payloadOf (line : string) : option string :=
  let trimmed := trim line in
  if String.prefix "data: " trimmed
  then Some (substring 6 (String.length trimmed - 6) trimmed)
  else None.

(** The loop [for (const line of lines)]: the payloads yielded so far,
    and whether the generator has returned at ["[DONE]"]. *)
Fixpoint linesLoop (lines : list string) (yielded : list string)
  : list string * bool :=
  match lines with
  | [] => (yielded, false)
  | line :: rest =>
      match payloadOf line with
      | Some data =>
          if String.eqb data "[DONE]" then (yielded, true)
          else linesLoop rest (yielded ++ [data])
      | None => linesLoop rest yielded
      end
  end.

(** The loop [while (true)] over the decoded values the reader returns;
    it ends when the reader is done or at ["[DONE]"]. *)
Fixpoint readLoop (reads : list string) (buffer : string) (yielded : list string)
  : list string :=
  match reads with
  | [] => yielded
  | value :: rest =>
      let lines := split (buffer ++ value) in
      let buffer' := last lines EmptyString in
      match linesLoop (removelast lines) yielded with
      | (yielded', true) => yielded'
      | (yielded', false) => readLoop rest buffer' yielded'
      end
  end.

(** The payloads [parseSSEStream] yields; [None] is a response without body. *)
Definition parseSSEStream (body : option (list string)) : list string :=
  match body with
  | None => []
  | Some reads => readLoop reads EmptyString []
  end.

Definition noNewline (l : list ascii) : Prop :=
  forall c, In c l -> isNewline c = false.

End SSE.

(* ================================================================== *)
(** * Part II: properties *)
(* ================================================================== *)

Unset Implicit Arguments.

Section WorkflowProperties.
Import Workflow.

Lemma assertPhase_ok expected m :
  phase m = expected -> assertPhase expected m = inl tt.
Proof.
  intros <-. unfold assertPhase. now rewrite String.eqb_refl.
Qed.

Lemma assertPhase_fail expected m :
  phase m <> expected ->
  assertPhase expected m = inr (invalid_transition expected (phase m)).
Proof.
  intros H. unfold assertPhase.
  destruct (String.eqb_spec (phase m) expected); [contradiction | reflexivity].
Qed.

(** C1, as stated, fails: [startPlanning] has no phase guard, so it
    succeeds from every phase although it is neither [reset] nor
    [setError]. *)
Lemma workflow_contract_counterexample : ~ contract_as_specified.
Proof.
  intros [_ H].
  specialize (H (op_startPlanning emptyPlan)).
  assert (E : is_reset_or_setError (op_startPlanning emptyPlan) = true).
  { apply H. intros m. eexists. reflexivity. }
  discriminate E.
Qed.

(** C1 (amended).  Every mutating operation either performs its
    transition or fails with the invalid-transition message naming the
    phase it asserts and the actual phase.  An operation that succeeds
    installs the state it is meant to reach and leaves the listeners
    registered: [startAnalysis] the [analyzing] state with the prompt,
    [requestClarification] the [clarifying] state with the questions and
    no answer, [answerQuestion] the same [clarifying] state with the
    answer stored, [startPlanning], [awaitApproval] and [complete] the
    [planning], [awaiting_approval] and [completed] states with their
    arguments, [startExecution] the [executing] state at step 0,
    [advanceStep] the [executing] state of the same plan at the given
    step, [setError] the [error] state and [reset] the [idle] state.
    [reset], [setError], [startPlanning], [awaitApproval] and [complete]
    assert nothing and succeed from every phase; each of the other five
    succeeds exactly when the machine is in the phase it asserts, and
    otherwise fails with that phase named as expected.  In particular
    [requestClarification] in phase [idle] is rejected with [analyzing]
    named as the expected phase. *)
Theorem workflow_transition_contract :
  (forall o m,
      match asserted_phase o with
      | None => succeeds o m
      | Some expected =>
          (phase m = expected /\ succeeds o m) \/
          (phase m <> expected /\
           call o m = inr (invalid_transition expected (phase m)))
      end)
  /\ (forall o m m',
         call o m = inl m' ->
         _listeners m' = _listeners m
         /\ match o with
            | op_startAnalysis userPrompt => _state m' = St_analyzing userPrompt
            | op_requestClarification qs =>
                _state m' = St_clarifying qs []
            | op_answerQuestion questionId answer =>
                exists qs answers,
                  _state m = St_clarifying qs answers
                  /\ _state m'
                     = St_clarifying qs (JSMap.set String.eqb questionId answer answers)
            | op_startPlanning p => _state m' = St_planning p
            | op_awaitApproval p => _state m' = St_awaiting_approval p
            | op_startExecution p => _state m' = St_executing p 0%Z
            | op_advanceStep stepIndex =>
                exists p current,
                  _state m = St_executing p current
                  /\ _state m' = St_executing p stepIndex
            | op_complete p results => _state m' = St_completed p results
            | op_setError error recoverable => _state m' = St_error error recoverable
            | op_reset => _state m' = St_idle
            end)
  /\ (forall u, asserted_phase (op_startAnalysis u) = Some "idle"%string)
  /\ (forall q, asserted_phase (op_requestClarification q) = Some "analyzing"%string)
  /\ (forall q a, asserted_phase (op_answerQuestion q a) = Some "clarifying"%string)
  /\ (forall p, asserted_phase (op_startExecution p) = Some "awaiting_approval"%string)
  /\ (forall i, asserted_phase (op_advanceStep i) = Some "executing"%string)
  /\ (forall o, (forall m, succeeds o m) <->
                (exists p, o = op_startPlanning p) \/
                (exists p, o = op_awaitApproval p) \/
                (exists p r, o = op_complete p r) \/
                (exists e r, o = op_setError e r) \/
                o = op_reset)
  /\ (forall qs,
         call (op_requestClarification qs) init
         = inr "Invalid state transition: expected 'analyzing', got 'idle'"%string).
Proof.
  assert (main : forall o m,
      match asserted_phase o with
      | None => succeeds o m
      | Some expected =>
          (phase m = expected /\ succeeds o m) \/
          (phase m <> expected /\
           call o m = inr (invalid_transition expected (phase m)))
      end).
  { intros o m.
    destruct o; cbn [asserted_phase call];
      try (eexists; reflexivity);
      match goal with
      | |- (phase m = ?e /\ _) \/ _ =>
          destruct (string_dec (phase m) e) as [Heq | Hne];
          [ left; split; [exact Heq|]
          | right; split; [exact Hne|] ]
      end;
      cbv beta delta [succeeds call startAnalysis requestClarification
                        answerQuestion startExecution advanceStep] iota;
      try (rewrite (@assertPhase_ok _ _ Heq));
      try (rewrite (@assertPhase_fail _ _ Hne); reflexivity);
      try (eexists; reflexivity);
      destruct (_state m); eexists; reflexivity. }
  assert (reached : forall o m m',
         call o m = inl m' ->
         _listeners m' = _listeners m
         /\ match o with
            | op_startAnalysis userPrompt => _state m' = St_analyzing userPrompt
            | op_requestClarification qs =>
                _state m' = St_clarifying qs []
            | op_answerQuestion questionId answer =>
                exists qs answers,
                  _state m = St_clarifying qs answers
                  /\ _state m'
                     = St_clarifying qs (JSMap.set String.eqb questionId answer answers)
            | op_startPlanning p => _state m' = St_planning p
            | op_awaitApproval p => _state m' = St_awaiting_approval p
            | op_startExecution p => _state m' = St_executing p 0%Z
            | op_advanceStep stepIndex =>
                exists p current,
                  _state m = St_executing p current
                  /\ _state m' = St_executing p stepIndex
            | op_complete p results => _state m' = St_completed p results
            | op_setError error recoverable => _state m' = St_error error recoverable
            | op_reset => _state m' = St_idle
            end).
  { intros o m m' H.
    destruct o; cbn [call] in H;
      unfold startAnalysis, requestClarification, answerQuestion, startPlanning,
        awaitApproval, startExecution, advanceStep, complete, setError, reset,
        assertPhase, phase in H;
      destruct (_state m) eqn:S; simpl in H; try discriminate H;
      injection H as <-; simpl; split; try reflexivity; eauto. }
  split; [exact main|]. split; [exact reached|].
  repeat (split; [reflexivity|]).
  split; [|reflexivity].
  intros o; split.
  - intros Hall.
    (* a guarded operation fails in the error phase, or else in idle *)
    destruct o; eauto 10; exfalso;
      first [ destruct (Hall (mkMachine (St_error "" true) [] [])) as [m' E];
              discriminate E
            | destruct (Hall init) as [m' E]; discriminate E ].
  - intros H m.
    destruct H as [[p ->]|[[p ->]|[[p [r ->]]|[[e [r ->]]| ->]]]];
      eexists; reflexivity.
Qed.

(** From the initial state [startAnalysis] succeeds and installs the
    [analyzing] state with the prompt. *)
Lemma workflow_transition_contract_witness :
  exists m',
    call (op_startAnalysis "a box") init = inl m'
    /\ _state m' = St_analyzing "a box"
    /\ _listeners m' = _listeners init.
Proof.
  destruct workflow_transition_contract as (H & S & _).
  destruct (H (op_startAnalysis "a box") init) as [[_ (m' & E)]|[N _]].
  - exists m'. split; [exact E|].
    destruct (S _ _ _ E) as [L St]. split; [exact St | exact L].
  - exfalso. apply N. reflexivity.
Defined.

End WorkflowProperties.


(** ** Association lists with numeric keys *)

Section JSMapFacts.
Variable V : Type.
Implicit Types (m : JSMap.t nat V) (k : nat) (v : V).

Lemma get_set_same m k v : JSMap.get Nat.eqb k (JSMap.set Nat.eqb k v m) = Some v.
Proof.
  induction m as [|[k' v'] r IH]; simpl.
  - now rewrite Nat.eqb_refl.
  - destruct (Nat.eqb k k') eqn:E; simpl.
    + now rewrite Nat.eqb_refl.
    + now rewrite E.
Qed.

Lemma get_set_other m k k' v :
  k <> k' -> JSMap.get Nat.eqb k (JSMap.set Nat.eqb k' v m) = JSMap.get Nat.eqb k m.
Proof.
  intros Hne. induction m as [|[k0 v0] r IH]; simpl.
  - destruct (Nat.eqb_spec k k'); [contradiction | reflexivity].
  - destruct (Nat.eqb_spec k' k0) as [->|Hn0]; simpl.
    + destruct (Nat.eqb_spec k k0); [contradiction | reflexivity].
    + destruct (Nat.eqb k k0); [reflexivity | exact IH].
Qed.

Lemma get_None_notin m k :
  JSMap.get Nat.eqb k m = None <-> ~ In k (JSMap.keys m).
Proof.
  induction m as [|[k' v'] r IH]; simpl.
  - tauto.
  - destruct (Nat.eqb_spec k k') as [->|Hne].
    + split; [discriminate | intros H; exfalso; apply H; now left].
    + rewrite IH. unfold JSMap.keys. split; intros H; [intros [E|I]|]; auto.
Qed.

Lemma set_fresh m k v :
  ~ In k (JSMap.keys m) -> JSMap.set Nat.eqb k v m = m ++ [(k, v)].
Proof.
  induction m as [|[k' v'] r IH]; simpl; intros H; [reflexivity|].
  destruct (Nat.eqb_spec k k') as [->|Hne].
  - exfalso; apply H; now left.
  - f_equal. apply IH. intros I; apply H; now right.
Qed.

Lemma get_app_fresh m k v k0 :
  ~ In k (JSMap.keys m) ->
  JSMap.get Nat.eqb k0 (m ++ [(k, v)])
  = if Nat.eqb k0 k then (if JSMap.has Nat.eqb k0 m then JSMap.get Nat.eqb k0 m else Some v)
    else JSMap.get Nat.eqb k0 m.
Proof.
  intros _. unfold JSMap.has.
  induction m as [|[k' v'] r IH]; simpl.
  - reflexivity.
  - destruct (Nat.eqb k0 k'); [now destruct (Nat.eqb k0 k) | exact IH].
Qed.

End JSMapFacts.

(** ** The graph built by the first loop of [topologicalSort] *)

Section GraphFacts.
Import Executor.

Lemma neighborsOf_set adj k k' l :
  neighborsOf (JSMap.set Nat.eqb k' l adj) k
  = if Nat.eqb k k' then l else neighborsOf adj k.
Proof.
  unfold neighborsOf. destruct (Nat.eqb_spec k k') as [->|Hne].
  - now rewrite get_set_same.
  - now rewrite get_set_other.
Qed.

Lemma neighborsOf_addEdges i deps : forall adj k,
  neighborsOf (addEdges i deps adj) k
  = neighborsOf adj k ++ map (fun _ => i) (filter (fun d => Nat.eqb d k) deps).
Proof.
  unfold addEdges.
  induction deps as [|dep deps IH]; intros adj k; simpl.
  - now rewrite app_nil_r.
  - rewrite IH, neighborsOf_set.
    rewrite (Nat.eqb_sym k dep).
    destruct (Nat.eqb dep k) eqn:E; simpl; [|reflexivity].
    apply Nat.eqb_eq in E; subst dep.
    now rewrite <- app_assoc.
Qed.

Lemma neighborsOf_addStep g s k :
  neighborsOf (snd (addStep g s)) k
  = neighborsOf (snd g) k
      ++ map (fun _ => index s) (filter (fun d => Nat.eqb d k) (dependsOn s)).
Proof.
  unfold addStep; simpl. rewrite neighborsOf_addEdges. f_equal.
  unfold JSMap.has.
  destruct (JSMap.get Nat.eqb (index s) (snd g)) eqn:E; [reflexivity|].
  rewrite neighborsOf_set.
  destruct (Nat.eqb_spec k (index s)) as [->|]; [|reflexivity].
  unfold neighborsOf. now rewrite E.
Qed.

Lemma neighborsOf_fold steps : forall g k,
  neighborsOf (snd (fold_left addStep steps g)) k
  = neighborsOf (snd g) k ++ adjSpec steps k.
Proof.
  induction steps as [|s r IH]; intros g k; simpl.
  - now rewrite app_nil_r.
  - rewrite IH, neighborsOf_addStep. now rewrite <- app_assoc.
Qed.

Lemma neighborsOf_buildGraph steps k :
  neighborsOf (snd (buildGraph steps)) k = adjSpec steps k.
Proof. unfold buildGraph. now rewrite neighborsOf_fold. Qed.

Lemma inDegree_fold steps : forall g,
  NoDup (JSMap.keys (fst g) ++ map index steps) ->
  fst (fold_left addStep steps g) = fst g ++ map degreeEntry steps.
Proof.
  induction steps as [|s r IH]; intros g Hnd; simpl.
  - now rewrite app_nil_r.
  - assert (Hfresh : ~ In (index s) (JSMap.keys (fst g))).
    { simpl in Hnd. apply NoDup_remove_2 in Hnd.
      intros I; apply Hnd, in_or_app; now left. }
    rewrite IH; simpl.
    + rewrite (set_fresh _ _ _ _ Hfresh). now rewrite <- app_assoc.
    + rewrite (set_fresh _ _ _ _ Hfresh). unfold JSMap.keys.
      rewrite map_app; simpl. rewrite <- app_assoc. exact Hnd.
Qed.

Lemma inDegree_buildGraph steps :
  uniqueIndices steps -> fst (buildGraph steps) = map degreeEntry steps.
Proof.
  intros H. unfold buildGraph. now rewrite inDegree_fold.
Qed.

Lemma get_degreeEntries steps k :
  JSMap.get Nat.eqb k (map degreeEntry steps)
  = option_map (fun s => Z.of_nat (List.length (dependsOn s)))
               (find (fun s => Nat.eqb (index s) k) steps).
Proof.
  induction steps as [|s r IH]; simpl; [reflexivity|].
  rewrite (Nat.eqb_sym k). now destruct (Nat.eqb (index s) k).
Qed.

Lemma find_index_in steps k :
  In k (map index steps) ->
  exists s, find (fun s => Nat.eqb (index s) k) steps = Some s
            /\ In s steps /\ index s = k.
Proof.
  induction steps as [|s r IH]; simpl; [tauto|].
  intros [E|I].
  - exists s. rewrite E, Nat.eqb_refl. auto.
  - destruct (Nat.eqb_spec (index s) k) as [E|Hne].
    + exists s; auto.
    + destruct (IH I) as (s' & F & I' & E'). exists s'; auto.
Qed.

Lemma find_index_notin steps k :
  ~ In k (map index steps) -> find (fun s => Nat.eqb (index s) k) steps = None.
Proof.
  induction steps as [|s r IH]; simpl; [reflexivity|].
  intros H. destruct (Nat.eqb_spec (index s) k) as [E|Hne].
  - exfalso; apply H; now left.
  - apply IH. intros I; apply H; now right.
Qed.

Lemma find_unique steps s :
  uniqueIndices steps -> In s steps ->
  find (fun s' => Nat.eqb (index s') (index s)) steps = Some s.
Proof.
  unfold uniqueIndices.
  induction steps as [|s0 r IH]; simpl; [tauto|].
  intros Hnd [->|I].
  - now rewrite Nat.eqb_refl.
  - inversion Hnd as [|? ? Hn Hr]; subst.
    destruct (Nat.eqb_spec (index s0) (index s)) as [E|Hne].
    + exfalso; apply Hn. rewrite E. now apply in_map.
    + now apply IH.
Qed.

Lemma depsOf_step steps s :
  uniqueIndices steps -> In s steps -> depsOf steps (index s) = dependsOn s.
Proof. intros U I. unfold depsOf. now rewrite find_unique. Qed.

Lemma depsOf_notin steps k :
  ~ In k (map index steps) -> depsOf steps k = [].
Proof. intros H. unfold depsOf. now rewrite find_index_notin. Qed.

Lemma depsOf_depends steps k d :
  In d (depsOf steps k) -> depends steps k d.
Proof.
  unfold depsOf. destruct (find _ steps) as [s|] eqn:F; [|intros []].
  intros I. apply find_some in F as [Is E]. apply Nat.eqb_eq in E.
  exists s; auto.
Qed.

Lemma depends_depsOf steps k d :
  uniqueIndices steps -> depends steps k d -> In d (depsOf steps k).
Proof.
  intros U (s & Is & <- & I). now rewrite depsOf_step.
Qed.

Lemma degreeOf_initial steps k :
  uniqueIndices steps -> In k (map index steps) ->
  degreeOf (fst (buildGraph steps)) k
  = Z.of_nat (List.length (depsOf steps k)).
Proof.
  intros U I. unfold degreeOf, depsOf.
  rewrite inDegree_buildGraph, get_degreeEntries by assumption.
  destruct (find_index_in _ _ I) as (s & -> & _). reflexivity.
Qed.

Lemma count_constant_map (i k : nat) (l : list nat) :
  count_occ Nat.eq_dec (map (fun _ => i) l) k
  = if Nat.eqb i k then List.length l else 0.
Proof.
  induction l as [|a l IH]; simpl.
  - now destruct (Nat.eqb i k).
  - destruct (Nat.eq_dec i k) as [->|Hne].
    + rewrite Nat.eqb_refl in *. now rewrite IH.
    + destruct (Nat.eqb_spec i k); [contradiction | exact IH].
Qed.

Lemma length_filter_eqb (l : list nat) (p : nat) :
  List.length (filter (fun d => Nat.eqb d p) l) = count_occ Nat.eq_dec l p.
Proof.
  induction l as [|a l IH]; simpl; [reflexivity|].
  destruct (Nat.eq_dec a p) as [->|Hne].
  - rewrite Nat.eqb_refl; simpl. now rewrite IH.
  - destruct (Nat.eqb_spec a p); [contradiction | exact IH].
Qed.

Lemma adjSpec_in steps p k :
  In k (adjSpec steps p) -> In k (map index steps).
Proof.
  unfold adjSpec. rewrite in_flat_map. intros (s & Is & I).
  apply in_map_iff in I as (d & <- & _). now apply in_map.
Qed.

Lemma count_adjSpec steps p k :
  uniqueIndices steps ->
  count_occ Nat.eq_dec (adjSpec steps p) k
  = count_occ Nat.eq_dec (depsOf steps k) p.
Proof.
  unfold uniqueIndices.
  induction steps as [|s r IH]; intros Hnd; [reflexivity|].
  inversion Hnd as [|? ? Hn Hr]; subst.
  change (adjSpec (s :: r) p)
    with (map (fun _ => index s) (filter (fun d => Nat.eqb d p) (dependsOn s))
            ++ adjSpec r p).
  rewrite count_occ_app, count_constant_map, length_filter_eqb.
  unfold depsOf at 1; simpl.
  destruct (Nat.eqb_spec (index s) k) as [E|Hne].
  - subst k.
    assert (Z0 : count_occ Nat.eq_dec (adjSpec r p) (index s) = 0).
    { apply count_occ_not_In. intros I. apply Hn. eapply adjSpec_in; eauto. }
    rewrite Z0. lia.
  - rewrite (IH Hr). reflexivity.
Qed.

Lemma remaining_snoc_list (processed : list nat) (p : nat) (l : list nat) :
  ~ In p processed ->
  List.length (filter (fun d => negb (existsb (Nat.eqb d) processed)) l)
  = List.length
      (filter (fun d => negb (existsb (Nat.eqb d) (processed ++ [p]))) l)
    + count_occ Nat.eq_dec l p.
Proof.
  intros Hp. induction l as [|a l IH]; simpl; [reflexivity|].
  rewrite existsb_app; simpl. rewrite orb_false_r.
  destruct (Nat.eq_dec a p) as [->|Hne].
  - rewrite Nat.eqb_refl, orb_true_r; simpl.
    assert (E : existsb (Nat.eqb p) processed = false).
    { apply not_true_is_false. intros E. apply existsb_exists in E as (x & Ix & Ex).
      apply Nat.eqb_eq in Ex; subst x. contradiction. }
    rewrite E; simpl. rewrite IH. lia.
  - destruct (Nat.eqb_spec a p); [contradiction|].
    rewrite orb_false_r.
    destruct (existsb (Nat.eqb a) processed); simpl; rewrite IH; reflexivity.
Qed.

Lemma remaining_snoc steps processed p k :
  ~ In p processed ->
  remaining steps processed k
  = remaining steps (processed ++ [p]) k
    + count_occ Nat.eq_dec (depsOf steps k) p.
Proof. intros H. unfold remaining. now apply remaining_snoc_list. Qed.

Lemma remaining_zero steps processed k :
  remaining steps processed k = 0 <->
  forall d, In d (depsOf steps k) -> In d processed.
Proof.
  unfold remaining. generalize (depsOf steps k) as l.
  induction l as [|a l IH]; simpl.
  - split; [intros _ d [] | reflexivity].
  - destruct (existsb (Nat.eqb a) processed) eqn:E; simpl.
    + apply existsb_exists in E as (x & Ix & Ex). apply Nat.eqb_eq in Ex; subst x.
      rewrite IH. split; intros H d; [intros [<-|I]; auto | intros I; apply H; auto].
    + split; [discriminate|]. intros H. exfalso.
      assert (I : In a processed) by (apply H; now left).
      assert (T : existsb (Nat.eqb a) processed = true).
      { apply existsb_exists. exists a. split; [exact I | apply Nat.eqb_refl]. }
      congruence.
Qed.

Lemma remaining_nil steps k :
  remaining steps [] k = List.length (depsOf steps k).
Proof.
  unfold remaining. generalize (depsOf steps k) as l.
  induction l; simpl; auto.
Qed.

End GraphFacts.

(** ** The inner loop of [topologicalSort] *)

Section RelaxFacts.
Import Executor.

Lemma degreeOf_set inDeg n d k :
  degreeOf (JSMap.set Nat.eqb n d inDeg) k
  = if Nat.eqb k n then d else degreeOf inDeg k.
Proof.
  unfold degreeOf. destruct (Nat.eqb_spec k n) as [->|Hne].
  - now rewrite get_set_same.
  - now rewrite get_set_other.
Qed.

Lemma relax_cons n ns inDeg q :
  relax (n :: ns) (inDeg, q)
  = relax ns (JSMap.set Nat.eqb n (degreeOf inDeg n - 1)%Z inDeg,
              if Z.eqb (degreeOf inDeg n - 1) 0 then q ++ [n] else q).
Proof. reflexivity. Qed.

(** Running the loop over [ns] lowers each degree by the number of
    occurrences in [ns], and appends to the queue, once each, exactly the
    indices whose degree was positive and reaches zero on the way. *)
Lemma relax_spec ns : forall inDeg q,
  exists pushed,
    snd (relax ns (inDeg, q)) = q ++ pushed
    /\ (forall k, degreeOf (fst (relax ns (inDeg, q))) k
                  = (degreeOf inDeg k - Z.of_nat (count_occ Nat.eq_dec ns k))%Z)
    /\ (forall k, In k pushed <->
                  (0 < degreeOf inDeg k <= Z.of_nat (count_occ Nat.eq_dec ns k))%Z)
    /\ NoDup pushed.
Proof.
  induction ns as [|n ns IH]; intros inDeg q.
  - exists []. simpl. rewrite app_nil_r.
    split; [reflexivity|]. split; [intros k; lia|].
    split; [|constructor].
    intros k; split; [intros [] | lia].
  - rewrite relax_cons.
    set (deg := (degreeOf inDeg n - 1)%Z).
    set (inDeg1 := JSMap.set Nat.eqb n deg inDeg).
    set (q1 := if Z.eqb deg 0 then q ++ [n] else q).
    destruct (IH inDeg1 q1) as (pushed & Hq & Hdeg & Hin & Hnd).
    assert (D1 : forall k, degreeOf inDeg1 k
                           = if Nat.eqb k n then deg else degreeOf inDeg k).
    { intros k. apply degreeOf_set. }
    exists ((if Z.eqb deg 0 then [n] else []) ++ pushed).
    split; [|split; [|split]].
    + transitivity (q1 ++ pushed); [exact Hq|].
      unfold q1. destruct (Z.eqb deg 0); simpl.
      * now rewrite <- app_assoc.
      * reflexivity.
    + intros k. etransitivity; [apply Hdeg|]. rewrite D1. cbn [count_occ].
      destruct (Nat.eq_dec n k) as [->|Hne].
      * rewrite Nat.eqb_refl. unfold deg. lia.
      * destruct (Nat.eqb_spec k n); [congruence | reflexivity].
    + intros k. rewrite in_app_iff, Hin, D1. cbn [count_occ].
      destruct (Nat.eq_dec n k) as [->|Hne].
      * rewrite Nat.eqb_refl.
        destruct (Z.eqb_spec deg 0) as [E|E]; simpl; unfold deg in *; lia.
      * destruct (Nat.eqb_spec k n); [congruence|].
        destruct (Z.eqb deg 0); simpl; intuition congruence.
    + destruct (Z.eqb_spec deg 0) as [E|E]; simpl; [|exact Hnd].
      constructor; [|exact Hnd].
      rewrite Hin, D1, Nat.eqb_refl. lia.
Qed.

End RelaxFacts.

(** ** The main loop of [topologicalSort] *)

Section KahnFacts.
Import Executor.
Variable steps : list PlanStep.
Hypothesis U : uniqueIndices steps.

Lemma Inv_initial :
  Inv steps [] (initialQueue (fst (buildGraph steps))) (fst (buildGraph steps)).
Proof.
  assert (Q : initialQueue (fst (buildGraph steps))
              = map index (filter (fun s => Nat.eqb (List.length (dependsOn s)) 0) steps)).
  { rewrite inDegree_buildGraph by exact U. unfold initialQueue.
    clear U. induction steps as [|s r IH]; simpl; [reflexivity|].
    replace (Z.eqb (Z.of_nat (List.length (dependsOn s))) 0)
      with (Nat.eqb (List.length (dependsOn s)) 0).
    - destruct (Nat.eqb _ 0); simpl; now rewrite IH.
    - destruct (dependsOn s); reflexivity. }
  split; [|split; [|split]].
  - intros k I. rewrite remaining_nil. now apply degreeOf_initial.
  - simpl. rewrite Q.
    assert (G : forall l, NoDup (map index l) ->
                forall f, NoDup (map index (filter f l))).
    { induction l as [|a l IH]; intros Hnd f; simpl; [constructor|].
      inversion Hnd as [|? ? Hn Hr]; subst.
      destruct (f a); simpl; [constructor|]; auto.
      intros I. apply Hn. apply in_map_iff in I as (x & E & Ix).
      apply filter_In in Ix as [Ix _]. rewrite <- E. now apply in_map. }
    now apply G.
  - intros k. simpl. rewrite Q, remaining_nil. split.
    + intros I. apply in_map_iff in I as (s & <- & Is).
      apply filter_In in Is as [Is E]. apply Nat.eqb_eq in E.
      split; [now apply in_map|]. now rewrite depsOf_step.
    + intros [I E]. destruct (find_index_in _ _ I) as (s & _ & Is & <-).
      apply in_map, filter_In. split; [exact Is|].
      rewrite depsOf_step in E by assumption. now apply Nat.eqb_eq.
  - constructor.
Qed.

Lemma Inv_step processed p rest inDeg :
  Inv steps processed (p :: rest) inDeg ->
  Inv steps (processed ++ [p])
      (snd (relax (neighborsOf (snd (buildGraph steps)) p) (inDeg, rest)))
      (fst (relax (neighborsOf (snd (buildGraph steps)) p) (inDeg, rest))).
Proof.
  intros (Hdeg & Hnd & Hmem & Hord).
  rewrite neighborsOf_buildGraph.
  destruct (relax_spec (adjSpec steps p) inDeg rest)
    as (pushed & Hq & Hd & Hin & Hpn).
  rewrite Hq.
  assert (Pq : In p (processed ++ p :: rest)) by (apply in_elt).
  assert (Pnot : ~ In p processed).
  { intros I. apply NoDup_remove_2 in Hnd. apply Hnd, in_or_app. now left. }
  assert (Pzero : remaining steps processed p = 0) by (apply Hmem; exact Pq).
  assert (Cnt : forall k, count_occ Nat.eq_dec (adjSpec steps p) k
                          = count_occ Nat.eq_dec (depsOf steps k) p).
  { intros k. now apply count_adjSpec. }
  assert (Rem : forall k, remaining steps processed k
                          = remaining steps (processed ++ [p]) k
                            + count_occ Nat.eq_dec (adjSpec steps p) k).
  { intros k. rewrite Cnt. now apply remaining_snoc. }
  assert (PushedIdx : forall k, In k pushed -> In k (map index steps)).
  { intros k I. apply Hin in I.
    assert (C : count_occ Nat.eq_dec (adjSpec steps p) k > 0) by lia.
    apply count_occ_In in C. eapply adjSpec_in; eauto. }
  assert (PushedIff : forall k, In k pushed <->
            In k (map index steps) /\ 0 < remaining steps processed k
            /\ remaining steps (processed ++ [p]) k = 0).
  { intros k. split.
    - intros I. pose proof (PushedIdx k I) as Ik.
      apply Hin in I. rewrite (Hdeg k Ik) in I. specialize (Rem k).
      split; [exact Ik|]. lia.
    - intros (Ik & Hpos & Hz). apply Hin. rewrite (Hdeg k Ik).
      specialize (Rem k). lia. }
  split; [|split; [|split]].
  - intros k Ik. rewrite Hd, (Hdeg k Ik). specialize (Rem k). lia.
  - rewrite <- app_assoc. simpl.
    assert (E : processed ++ p :: rest ++ pushed
                = (processed ++ p :: rest) ++ pushed)
      by (now rewrite <- app_assoc).
    rewrite E. apply NoDup_app; auto.
    intros k I1 I2. apply Hmem in I1 as [_ Z0].
    apply PushedIff in I2. lia.
  - intros k.
    assert (E : (processed ++ [p]) ++ rest ++ pushed
                = (processed ++ p :: rest) ++ pushed)
      by (now repeat rewrite <- app_assoc).
    rewrite E, in_app_iff, Hmem, PushedIff. specialize (Rem k).
    split.
    + intros [[Ik Z0]|(Ik & _ & Z0)]; split; auto; lia.
    + intros [Ik Z0].
      destruct (Nat.eq_dec (remaining steps processed k) 0) as [Z1|Z1];
        [left | right]; repeat split; auto; lia.
  - constructor; [exact Hord|].
    now apply remaining_zero.
Qed.

Lemma Inv_length processed queue inDeg :
  Inv steps processed queue inDeg ->
  List.length processed + List.length queue <= List.length steps.
Proof.
  intros (_ & Hnd & Hmem & _).
  rewrite <- length_app, <- (length_map index steps).
  apply NoDup_incl_length; [exact Hnd|].
  intros k I. now apply Hmem in I.
Qed.

Lemma refs_snoc stepMap l k :
  refs stepMap (l ++ [k])
  = match JSMap.get Nat.eqb k stepMap with
    | Some r => refs stepMap l ++ [r]
    | None => refs stepMap l
    end.
Proof.
  unfold refs. rewrite flat_map_app; simpl.
  destruct (JSMap.get Nat.eqb k stepMap); simpl; now rewrite ?app_nil_r.
Qed.

Lemma kahnLoop_spec stepMap : forall fuel processed queue inDeg,
  Inv steps processed queue inDeg ->
  List.length steps + 1 <= fuel + List.length processed ->
  exists processed' inDeg',
    kahnLoop fuel (snd (buildGraph steps)) stepMap inDeg queue
             (refs stepMap processed)
    = Some (refs stepMap processed')
    /\ Inv steps processed' [] inDeg'.
Proof.
  induction fuel as [|fuel IH]; intros processed queue inDeg HI Hf.
  - apply Inv_length in HI. lia.
  - destruct queue as [|p rest]; simpl.
    + exists processed, inDeg. split; [reflexivity | exact HI].
    + pose proof (Inv_length _ _ _ HI) as HL. simpl in HL.
      apply Inv_step in HI.
      destruct (IH _ _ _ HI) as (processed' & inDeg' & E & HI').
      { rewrite length_app; simpl. lia. }
      exists processed', inDeg'. split; [|exact HI'].
      rewrite refs_snoc in E. exact E.
Qed.

(** Summary of [topologicalSort] on a plan with unique indices: the loop
    ends and returns the steps of the indices [processed], which are
    distinct, ordered after their dependencies, and are exactly the
    indices of the plan all of whose dependencies were output. *)
Lemma topologicalSortRefs_spec :
  exists processed,
    topologicalSortRefs steps = Some (refs (stepMapOf steps) processed)
    /\ NoDup processed
    /\ (forall k, In k processed <->
                  In k (map index steps)
                  /\ forall d, In d (depsOf steps k) -> In d processed)
    /\ Ordered steps processed.
Proof.
  destruct (kahnLoop_spec (stepMapOf steps) (S (List.length steps)) [] _ _ Inv_initial)
    as (processed & inDeg & E & (Hdeg & Hnd & Hmem & Hord)).
  { simpl. lia. }
  exists processed. rewrite app_nil_r in *.
  split; [exact E|]. split; [exact Hnd|]. split; [|exact Hord].
  intros k. rewrite Hmem, remaining_zero. reflexivity.
Qed.

End KahnFacts.

(** ** From indices to step objects *)

Section StepMapFacts.
Import Executor.

Lemma buildStepMap_other r : forall base m k,
  ~ In k (map index r) ->
  JSMap.get Nat.eqb k (buildStepMap base r m) = JSMap.get Nat.eqb k m.
Proof.
  induction r as [|s r IH]; intros base m k Hn; simpl; [reflexivity|].
  rewrite IH by (intros I; apply Hn; now right).
  apply get_set_other. intros E; apply Hn; now left.
Qed.

Lemma buildStepMap_get steps : forall base m pos s,
  NoDup (map index steps) ->
  nth_error steps pos = Some s ->
  JSMap.get Nat.eqb (index s) (buildStepMap base steps m) = Some (base + pos, s).
Proof.
  induction steps as [|s0 r IH]; intros base m pos s Hnd Hn.
  - destruct pos; discriminate.
  - inversion Hnd as [|? ? Hfresh Hr]; subst. destruct pos as [|pos]; simpl in *.
    + injection Hn as ->. rewrite buildStepMap_other by exact Hfresh.
      rewrite get_set_same. now rewrite Nat.add_0_r.
    + rewrite (IH (S base) _ pos s Hr Hn). f_equal. f_equal. lia.
Qed.

Lemma stepMapOf_get steps pos s :
  uniqueIndices steps -> nth_error steps pos = Some s ->
  JSMap.get Nat.eqb (index s) (stepMapOf steps) = Some (pos, s).
Proof.
  intros U H. unfold stepMapOf. now rewrite (buildStepMap_get steps 0 _ pos s U H).
Qed.

Lemma refs_Forall2 steps l :
  uniqueIndices steps ->
  (forall k, In k l -> In k (map index steps)) ->
  Forall2 (refOf steps) l (refs (stepMapOf steps) l).
Proof.
  intros U. induction l as [|k l IH]; intros Hl; [constructor|].
  assert (Ik : In k (map index steps)) by (apply Hl; now left).
  apply in_map_iff in Ik as (s & <- & Is).
  apply In_nth_error in Is as [pos Hpos].
  unfold refs; simpl. rewrite (stepMapOf_get _ _ _ U Hpos). simpl.
  constructor.
  - split; [exact Hpos | reflexivity].
  - apply IH. intros k I. apply Hl. now right.
Qed.

Lemma Forall2_refOf_index steps l rs :
  Forall2 (refOf steps) l rs -> map index (map snd rs) = l.
Proof.
  induction 1 as [|k r l rs [_ E] _ IH]; simpl; [reflexivity|].
  now rewrite E, IH.
Qed.

Lemma Forall2_refOf_in steps l rs :
  Forall2 (refOf steps) l rs -> forall r, In r rs -> In (snd r) steps.
Proof.
  induction 1 as [|k r l rs [N _] _ IH]; intros r0; simpl; [tauto|].
  intros [<-|I]; [eapply nth_error_In; eauto | auto].
Qed.

End StepMapFacts.

(** ** Paths in the dependency graph *)

Section PathFacts.
Import Executor.
Variable R : nat -> nat -> Prop.

Lemma chain_split l1 : forall x y l2,
  chain R x (l1 ++ y :: l2) -> clos_trans nat R x y /\ chain R y l2.
Proof.
  induction l1 as [|a l1 IH]; intros x y l2; simpl.
  - intros [H C]. split; [now apply t_step | exact C].
  - intros [H C]. destruct (IH _ _ _ C) as [T C'].
    split; [|exact C']. eapply t_trans; [apply t_step; exact H | exact T].
Qed.

Lemma duplicate_split (l : list nat) :
  ~ NoDup l -> exists z l1 l2 l3, l = l1 ++ z :: l2 ++ z :: l3.
Proof.
  induction l as [|a l IH]; intros H.
  - exfalso; apply H; constructor.
  - destruct (in_dec Nat.eq_dec a l) as [I|NI].
    + apply in_split in I as (l2 & l3 & ->).
      exists a, [], l2, l3. reflexivity.
    + destruct IH as (z & l1 & l2 & l3 & ->).
      * intros Hnd. apply H. now constructor.
      * exists z, (a :: l1), l2, l3. reflexivity.
Qed.

(** A path longer than the number of vertices it visits closes a cycle. *)
Lemma long_chain_cycle (vertices : list nat) x l :
  chain R x l -> incl (x :: l) vertices ->
  List.length vertices < List.length (x :: l) ->
  exists z, clos_refl_trans nat R x z /\ clos_trans nat R z z.
Proof.
  intros C Hincl Hlen.
  destruct (duplicate_split (x :: l)) as (z & l1 & l2 & l3 & E).
  { intros Hnd. apply (NoDup_incl_length Hnd) in Hincl. lia. }
  destruct l1 as [|a l1]; simpl in E; injection E as Ex El; subst.
  - exists z. split; [apply rt_refl|].
    now apply chain_split in C.
  - apply chain_split in C as [T C].
    exists z. split; [now apply clos_t_clos_rt|].
    now apply chain_split in C.
Qed.

End PathFacts.

(** ** Steps on or downstream of a cycle *)

Section CycleFacts.
Import Executor.
Variable steps : list PlanStep.
Hypothesis U : uniqueIndices steps.

Lemma tainted_successor k :
  onOrDownstreamOfCycle steps k ->
  exists d, depends steps k d /\ onOrDownstreamOfCycle steps d.
Proof.
  intros (c & Hkc & Hcc).
  apply clos_rt_rt1n in Hkc. destruct Hkc as [|d c Hkd Hdc].
  - apply clos_trans_t1n in Hcc. inversion Hcc as [d Hd | d z Hd Hdz]; subst.
    + exists k. split; [exact Hd|].
      exists k. split; [apply rt_refl | now apply t_step].
    + exists d. split; [exact Hd|].
      exists k. split.
      * apply clos_t_clos_rt. now apply clos_t1n_trans.
      * eapply t_trans; [apply t_step; exact Hd | now apply clos_t1n_trans].
  - exists d. split; [exact Hkd|].
    exists c. split; [now apply clos_rt1n_rt | exact Hcc].
Qed.

Lemma Ordered_untainted l :
  Ordered steps l -> forall k, In k l -> ~ onOrDownstreamOfCycle steps k.
Proof.
  induction 1 as [|l k' Hord IH Hdeps]; intros k I T; [destruct I|].
  apply in_app_or in I as [I|[->|[]]]; [now apply (IH k)|].
  destruct (tainted_successor _ T) as (d & Hd & Td).
  apply (IH d); [|exact Td].
  apply Hdeps. now apply depends_depsOf.
Qed.

Lemma Ordered_split l :
  Ordered steps l ->
  forall l1 k l2, l = l1 ++ k :: l2 ->
                  forall d, In d (depsOf steps k) -> In d l1.
Proof.
  induction 1 as [|l k' Hord IH Hdeps]; intros l1 k l2 E d Hd.
  - destruct l1; discriminate.
  - destruct (exists_last (l := k :: l2)) as (l2' & last & E2); [discriminate|].
    rewrite E2, app_assoc in E.
    apply app_inj_tail in E as [El Ek]. subst k'.
    destruct l2' as [|a l2'].
    + simpl in E2. injection E2 as -> E2.
      destruct l2; [|destruct l2; discriminate].
      rewrite app_nil_r in El. subst l. now apply Hdeps.
    + simpl in E2. injection E2 as <- E2. subst l.
      eapply IH; eauto.
Qed.

(** An index left out by a closed set [processed] starts an arbitrarily
    long path of left-out indices. *)
Lemma unprocessed_chain processed :
  closedDependencies steps ->
  (forall k, In k (map index steps) ->
             (forall d, In d (depsOf steps k) -> In d processed) ->
             In k processed) ->
  forall n k, In k (map index steps) -> ~ In k processed ->
  exists l, List.length l = n /\ chain (depends steps) k l
            /\ incl l (map index steps).
Proof.
  intros Hclosed Hall. induction n as [|n IH]; intros k Ik Nk.
  - exists []. simpl. repeat split. intros x [].
  - assert (Ex : exists d, In d (depsOf steps k) /\ ~ In d processed).
    { assert (G : forall l, (forall d, In d l -> In d processed)
                            \/ exists d, In d l /\ ~ In d processed).
      { induction l as [|a l IHl]; [left; intros d []|].
        destruct (in_dec Nat.eq_dec a processed) as [Ia|Na].
        - destruct IHl as [A|(d & Id & Nd)].
          + left. intros d [<-|I]; auto.
          + right. exists d. split; [now right | exact Nd].
        - right. exists a. split; [now left | exact Na]. }
      destruct (G (depsOf steps k)) as [A|E]; [|exact E].
      exfalso. apply Nk. now apply Hall. }
    destruct Ex as (d & Id & Nd).
    apply depsOf_depends in Id.
    assert (Idx : In d (map index steps)).
    { destruct Id as (s & Is & _ & Ids). eapply Hclosed; eauto. }
    destruct (IH d Idx Nd) as (l & Hl & C & Hincl).
    exists (d :: l). simpl. repeat split; auto.
    intros x [<-|I]; auto.
Qed.

Lemma unprocessed_tainted processed :
  closedDependencies steps ->
  (forall k, In k (map index steps) ->
             (forall d, In d (depsOf steps k) -> In d processed) ->
             In k processed) ->
  forall k, In k (map index steps) -> ~ In k processed ->
  onOrDownstreamOfCycle steps k.
Proof.
  intros Hclosed Hall k Ik Nk.
  destruct (unprocessed_chain processed Hclosed Hall
              (List.length (map index steps)) k Ik Nk) as (l & Hl & C & Hincl).
  apply (long_chain_cycle (depends steps) (map index steps) k l C).
  - intros x [<-|I]; auto.
  - simpl. lia.
Qed.

End CycleFacts.

(** ** The execution order *)

Section SortTheorems.
Import Executor.

Lemma unique_step steps s s' :
  uniqueIndices steps -> In s steps -> In s' steps -> index s = index s' -> s = s'.
Proof.
  intros U I I' E.
  pose proof (find_unique _ _ U I) as F. pose proof (find_unique _ _ U I') as F'.
  rewrite E in F. congruence.
Qed.

Lemma acyclic_of_rank steps (rank : nat -> nat) :
  (forall s d, In s steps -> In d (dependsOn s) -> rank d < rank (index s)) ->
  acyclic steps.
Proof.
  intros H k T.
  assert (G : forall a b, clos_trans nat (depends steps) a b -> rank b < rank a).
  { induction 1 as [a b (s & Is & <- & Id) | a b c _ IH1 _ IH2].
    - now apply H.
    - lia. }
  specialize (G k k T). lia.
Qed.

(** What [topologicalSort] returns, in terms of step objects. *)
Lemma topologicalSort_spec steps :
  uniqueIndices steps ->
  exists sorted,
    topologicalSort steps = Some sorted
    /\ NoDup (map index sorted)
    /\ (forall s, In s sorted -> In s steps)
    /\ (forall k, In k (map index sorted) <->
                  In k (map index steps)
                  /\ forall d, In d (depsOf steps k) -> In d (map index sorted))
    /\ Ordered steps (map index sorted).
Proof.
  intros U.
  destruct (topologicalSortRefs_spec steps U) as (processed & E & Hnd & Hmem & Hord).
  assert (F : Forall2 (refOf steps) processed (refs (stepMapOf steps) processed)).
  { apply refs_Forall2; [exact U|]. intros k I. now apply Hmem in I. }
  exists (map snd (refs (stepMapOf steps) processed)).
  rewrite (Forall2_refOf_index _ _ _ F).
  split; [unfold topologicalSort; now rewrite E|].
  split; [exact Hnd|]. split; [|split; [exact Hmem | exact Hord]].
  intros s I. apply in_map_iff in I as (r & <- & Ir).
  eapply Forall2_refOf_in; eauto.
Qed.

Lemma sorted_contains steps sorted s :
  uniqueIndices steps ->
  (forall s', In s' sorted -> In s' steps) ->
  In s steps -> In (index s) (map index sorted) -> In s sorted.
Proof.
  intros U Hsub Is I. apply in_map_iff in I as (s' & E & I').
  rewrite (unique_step steps s s' U Is (Hsub _ I')); auto.
Qed.

(** C2.  For a well-formed plan (unique indices, dependencies naming
    indices of the plan) whose [dependsOn] graph is acyclic,
    [topologicalSort] returns an order that is a permutation of the
    steps, holds no index twice, and in which every step comes after all
    the steps listed in its [dependsOn]. *)
Theorem topologicalSort_dag steps :
  uniqueIndices steps -> closedDependencies steps -> acyclic steps ->
  exists sorted,
    topologicalSort steps = Some sorted
    /\ Permutation sorted steps
    /\ NoDup (map index sorted)
    /\ (forall l1 s l2, sorted = l1 ++ s :: l2 ->
        forall d, In d (dependsOn s) -> In d (map index l1)).
Proof.
  intros U Hclosed Hacyc.
  destruct (topologicalSort_spec steps U) as (sorted & E & Hnd & Hsub & Hmem & Hord).
  exists sorted. split; [exact E|].
  assert (Hall : forall s, In s steps -> In s sorted).
  { intros s Is. apply (sorted_contains steps); auto.
    destruct (in_dec Nat.eq_dec (index s) (map index sorted)) as [I|NI]; [exact I|].
    exfalso.
    destruct (unprocessed_tainted steps (map index sorted) Hclosed) with (k := index s)
      as (c & _ & Hc); auto.
    - intros k Ik Hk. apply Hmem. auto.
    - now apply in_map.
    - exact (Hacyc c Hc). }
  split; [|split; [exact Hnd|]].
  - apply NoDup_Permutation.
    + eapply NoDup_map_inv; eauto.
    + eapply NoDup_map_inv; exact U.
    + intros s; split; auto.
  - intros l1 s l2 -> d Hd.
    rewrite map_app in Hord; simpl in Hord.
    apply (Ordered_split steps _ Hord (map index l1) (index s) (map index l2) eq_refl).
    rewrite depsOf_step; auto.
    apply Hsub, in_elt.
Qed.

Lemma diamondPlan_sorted :
  topologicalSort diamondPlan = Some diamondPlan.
Proof. reflexivity. Qed.

Lemma topologicalSort_dag_witness :
  exists sorted,
    topologicalSort diamondPlan = Some sorted
    /\ Permutation sorted diamondPlan
    /\ NoDup (map index sorted)
    /\ (forall l1 s l2, sorted = l1 ++ s :: l2 ->
        forall d, In d (dependsOn s) -> In d (map index l1)).
Proof.
  apply (topologicalSort_dag diamondPlan).
  - unfold uniqueIndices; simpl.
    repeat (constructor; [simpl; intuition discriminate|]). constructor.
  - intros s d Is Id. simpl in Is.
    repeat (destruct Is as [<-|Is]; [simpl in Id |- *; intuition lia|]).
    destruct Is.
  - apply (acyclic_of_rank diamondPlan (fun k => k)).
    intros s d Is Id. simpl in Is.
    repeat (destruct Is as [<-|Is]; [simpl in Id |- *; intuition lia|]).
    destruct Is.
Defined.

(** C7.  On a plan with unique indices [topologicalSort] always returns
    an order (no error is raised), and no step that is on a dependency
    cycle, or that depends directly or transitively on a step of a cycle,
    appears in it.  When moreover every dependency names a step of the
    plan, these are the only steps left out. *)
Theorem topologicalSort_cycle_exclusion steps :
  uniqueIndices steps ->
  exists sorted,
    topologicalSort steps = Some sorted
    /\ (forall s, In s steps ->
                  onOrDownstreamOfCycle steps (index s) -> ~ In s sorted)
    /\ (closedDependencies steps ->
        forall s, In s steps ->
                  ~ onOrDownstreamOfCycle steps (index s) -> In s sorted).
Proof.
  intros U.
  destruct (topologicalSort_spec steps U) as (sorted & E & Hnd & Hsub & Hmem & Hord).
  exists sorted. split; [exact E|]. split.
  - intros s Is T I.
    apply (Ordered_untainted steps U _ Hord (index s)); [|exact T].
    now apply in_map.
  - intros Hclosed s Is NT. apply (sorted_contains steps); auto.
    destruct (in_dec Nat.eq_dec (index s) (map index sorted)) as [I|NI]; [exact I|].
    exfalso. apply NT.
    apply (unprocessed_tainted steps (map index sorted) Hclosed); auto.
    + intros k Ik Hk. apply Hmem. auto.
    + now apply in_map.
Qed.

Lemma cyclicPlan_sorted :
  topologicalSort cyclicPlan = Some [sampleStep 0 []].
Proof. reflexivity. Qed.

(** In [cyclicPlan] step 3 is downstream of the cycle between 1 and 2. *)
Lemma cyclicPlan_downstream : onOrDownstreamOfCycle cyclicPlan 3.
Proof.
  assert (D32 : depends cyclicPlan 3 2).
  { exists (sampleStep 3 [2]). simpl. intuition. }
  assert (D21 : depends cyclicPlan 2 1).
  { exists (sampleStep 2 [1]). simpl. intuition. }
  assert (D12 : depends cyclicPlan 1 2).
  { exists (sampleStep 1 [2]). simpl. intuition. }
  exists 2. split.
  - apply rt_step. exact D32.
  - eapply t_trans; apply t_step; eassumption.
Qed.

Lemma topologicalSort_cycle_exclusion_witness :
  exists sorted,
    topologicalSort cyclicPlan = Some sorted
    /\ (forall s, In s cyclicPlan ->
                  onOrDownstreamOfCycle cyclicPlan (index s) -> ~ In s sorted)
    /\ (closedDependencies cyclicPlan ->
        forall s, In s cyclicPlan ->
                  ~ onOrDownstreamOfCycle cyclicPlan (index s) -> In s sorted).
Proof.
  apply (topologicalSort_cycle_exclusion cyclicPlan).
  unfold uniqueIndices; simpl.
  repeat (constructor; [simpl; intuition discriminate|]). constructor.
Defined.

End SortTheorems.

(** ** [skipDependents] *)

Section SkipFacts.
Import Executor.

Lemma stepEvolves_refl a : stepEvolves a a.
Proof. repeat split; auto. Qed.

Lemma stepEvolves_trans a b c : stepEvolves a b -> stepEvolves b c -> stepEvolves a c.
Proof.
  intros (I1 & D1 & S1) (I2 & D2 & S2).
  split; [congruence|]. split; [congruence|].
  destruct S1 as [S1|[S1 S1']], S2 as [S2|[S2 S2']]; try (left; congruence);
    right; split; congruence.
Qed.

Lemma evolves_refl l : evolves l l.
Proof. induction l; constructor; auto using stepEvolves_refl. Qed.

Lemma evolves_trans l1 : forall l2 l3, evolves l1 l2 -> evolves l2 l3 -> evolves l1 l3.
Proof.
  induction l1 as [|a l1 IH]; intros l2 l3 H1 H2; inversion H1; subst;
    inversion H2; subst; constructor.
  - eapply stepEvolves_trans; eauto.
  - eapply IH; eauto.
Qed.

Lemma evolves_length l l' : evolves l l' -> List.length l' = List.length l.
Proof. intros H. symmetry. eapply Forall2_length; eauto. Qed.

Lemma evolves_nth l l' : evolves l l' -> forall p u,
  nth_error l p = Some u -> exists u', nth_error l' p = Some u' /\ stepEvolves u u'.
Proof.
  induction 1 as [|a b l l' Hab _ IH]; intros p u Hn.
  - destruct p; discriminate.
  - destruct p as [|p]; simpl in *.
    + injection Hn as <-. eauto.
    + eauto.
Qed.

Lemma evolves_nth_inv l l' : evolves l l' -> forall p u',
  nth_error l' p = Some u' -> exists u, nth_error l p = Some u /\ stepEvolves u u'.
Proof.
  induction 1 as [|a b l l' Hab _ IH]; intros p u Hn.
  - destruct p; discriminate.
  - destruct p as [|p]; simpl in *.
    + injection Hn as <-. eauto.
    + eauto.
Qed.

Lemma evolves_index l l' : evolves l l' -> map index l' = map index l.
Proof.
  induction 1 as [|a b l l' (I & _) _ IH]; simpl; [reflexivity|].
  now rewrite I, IH.
Qed.

Lemma closedUnder_evolves l l' k :
  closedUnder l k -> evolves l l' -> closedUnder l' k.
Proof.
  intros C E t' It' Ik.
  apply In_nth_error in It' as [p Hp].
  destruct (evolves_nth_inv _ _ E _ _ Hp) as (u & Hu & (_ & D & S)).
  assert (Su : status u <> pending).
  { apply C; [eapply nth_error_In; eauto | now rewrite D]. }
  destruct S as [S|[S _]]; congruence.
Qed.

Lemma nth_error_updStatus l : forall pos st p,
  nth_error (updStatus pos st l) p
  = if Nat.eqb p pos
    then option_map (fun s => withStatus s st) (nth_error l p)
    else nth_error l p.
Proof.
  induction l as [|a l IH]; intros pos st p; simpl.
  - destruct (Nat.eqb p pos); destruct p; simpl; reflexivity.
  - destruct pos as [|pos], p as [|p]; simpl; try reflexivity.
    apply IH.
Qed.

Lemma updStatus_evolves l : forall pos u,
  nth_error l pos = Some u -> status u = pending ->
  evolves l (updStatus pos skipped l).
Proof.
  induction l as [|a l IH]; intros pos u Hn Hs; [constructor|].
  destruct pos as [|pos]; simpl in *.
  - injection Hn as ->. constructor; [|apply evolves_refl].
    repeat split; auto.
  - constructor; [apply stepEvolves_refl | eapply IH; eauto].
Qed.

Lemma pendingCount_updStatus l : forall pos u,
  nth_error l pos = Some u -> status u = pending ->
  S (pendingCount (updStatus pos skipped l)) = pendingCount l.
Proof.
  unfold pendingCount.
  induction l as [|a l IH]; intros pos u Hn Hs; [destruct pos; discriminate|].
  destruct pos as [|pos]; simpl in *.
  - injection Hn as ->. rewrite Hs. reflexivity.
  - destruct (StepStatus_eqb (status a) pending); simpl;
      now rewrite <- (IH pos u Hn Hs).
Qed.

Lemma pendingCount_evolves l l' :
  evolves l l' -> pendingCount l' <= pendingCount l.
Proof.
  unfold pendingCount.
  induction 1 as [|a b l l' (_ & _ & S) _ IH]; simpl; [lia|].
  destruct S as [S|[S S']].
  - rewrite S. destruct (StepStatus_eqb (status b) pending); simpl; lia.
  - rewrite S, S'. simpl. lia.
Qed.

Lemma skippedClosed_trans l l1 l2 :
  evolves l l1 -> evolves l1 l2 ->
  skippedClosed l l1 -> skippedClosed l1 l2 -> skippedClosed l l2.
Proof.
  intros E1 E2 C1 C2 k (p & u & u2 & Hu & Hu2 & Su & Su2 & Ik).
  destruct (evolves_nth _ _ E1 _ _ Hu) as (u1 & Hu1 & (I1 & _ & S1)).
  destruct S1 as [S1|[_ S1]].
  - apply C2. exists p, u1, u2. repeat split; auto; congruence.
  - eapply closedUnder_evolves; [|exact E2].
    apply C1. exists p, u, u1. repeat split; auto.
Qed.

Lemma skipSpec_refl e : skipSpec e e.
Proof.
  split; [apply evolves_refl|]. split; [reflexivity|]. split.
  - exists []. rewrite app_nil_r. split; [reflexivity | intros x []].
  - intros k (p & u & u' & Hu & Hu' & Su & Su' & _). congruence.
Qed.

Lemma skipSpec_trans e e1 e2 : skipSpec e e1 -> skipSpec e1 e2 -> skipSpec e e2.
Proof.
  intros (E1 & R1 & (sl1 & L1 & A1) & C1) (E2 & R2 & (sl2 & L2 & A2) & C2).
  split; [eapply evolves_trans; eauto|]. split; [congruence|]. split.
  - exists (sl1 ++ sl2). split.
    + now rewrite L2, L1, app_assoc.
    + intros x I. apply in_app_or in I as [I|I]; auto.
  - eapply skippedClosed_trans; eauto.
Qed.

(** Marking the step at [pos] and closing under its index is one
    [skipSpec] step. *)
Lemma skipSpec_mark e e2 pos u :
  nth_error (ex_steps e) pos = Some u -> status u = pending ->
  skipSpec (mark pos skipped e) e2 ->
  closedUnder (ex_steps e2) (index u) ->
  skipSpec e e2.
Proof.
  intros Hu Su (E & R & (sl & L & A) & C) Cu.
  assert (E0 : evolves (ex_steps e) (ex_steps (mark pos skipped e))).
  { simpl. eapply updStatus_evolves; eauto. }
  split; [eapply evolves_trans; eauto|]. split; [exact R|]. split.
  - exists ((pos, skipped) :: sl). split.
    + rewrite L. simpl. now rewrite <- app_assoc.
    + intros x [<-|I]; auto.
  - intros k (p & v & v2 & Hv & Hv2 & Sv & Sv2 & Ik).
    destruct (Nat.eq_dec p pos) as [->|Hne].
    + assert (v = u) by congruence. subst v. now rewrite <- Ik.
    + apply C. exists p, v, v2. repeat split; auto.
      simpl. rewrite nth_error_updStatus.
      destruct (Nat.eqb_spec p pos); [contradiction | exact Hv].
Qed.

Lemma skipLoop_spec f :
  (forall k e, pendingCount (ex_steps e) < f ->
               exists e', skipDependents f k e = Some e' /\ skipSpec e e'
                          /\ closedUnder (ex_steps e') k) ->
  forall ps k e,
    pendingCount (ex_steps e) <= f ->
    exists e', skipLoop (skipDependents f) k ps e = Some e' /\ skipSpec e e'
               /\ forall p t, In p ps -> nth_error (ex_steps e') p = Some t ->
                              In k (dependsOn t) -> status t <> pending.
Proof.
  intros Hrec. induction ps as [|pos rest IH]; intros k e Hf.
  - exists e. split; [reflexivity|]. split; [apply skipSpec_refl|]. intros p t [].
  - simpl. destruct (nth_error (ex_steps e) pos) as [step|] eqn:Hn.
    + destruct (existsb (Nat.eqb k) (dependsOn step)
                && StepStatus_eqb (status step) pending) eqn:Hc.
      * apply andb_prop in Hc as [_ Hp].
        assert (Sp : status step = pending) by (destruct (status step); auto; discriminate).
        pose proof (pendingCount_updStatus _ _ _ Hn Sp) as Hcount.
        destruct (Hrec (index step) (mark pos skipped e)) as (e1 & E1 & S1 & C1).
        { simpl. lia. }
        rewrite E1.
        assert (S01 : skipSpec e e1) by (eapply skipSpec_mark; eauto).
        destruct (IH k e1) as (e' & E' & S' & P').
        { destruct S01 as (Ev & _). apply pendingCount_evolves in Ev. lia. }
        exists e'. split; [exact E'|]. split; [eapply skipSpec_trans; eauto|].
        intros p t [<-|I] Ht Ik; [|eapply P'; eauto].
        destruct S1 as (Ev1 & _), S' as (Ev' & _).
        destruct (evolves_nth_inv _ _ Ev' _ _ Ht) as (t1 & Ht1 & (_ & _ & St1)).
        destruct (evolves_nth_inv _ _ Ev1 _ _ Ht1) as (t0 & Ht0 & (_ & _ & St0)).
        simpl in Ht0. rewrite nth_error_updStatus, Nat.eqb_refl, Hn in Ht0.
        injection Ht0 as <-. simpl in St0.
        destruct St0 as [St0|[St0 _]]; [|discriminate].
        destruct St1 as [St1|[St1 _]]; congruence.
      * destruct (IH k e Hf) as (e' & E' & S' & P').
        exists e'. split; [exact E'|]. split; [exact S'|].
        intros p t [<-|I] Ht Ik; [|eapply P'; eauto].
        destruct S' as (Ev' & _).
        destruct (evolves_nth_inv _ _ Ev' _ _ Ht) as (t0 & Ht0 & (_ & D0 & St0)).
        assert (t0 = step) by congruence. subst t0.
        assert (Ex : existsb (Nat.eqb k) (dependsOn step) = true).
        { apply existsb_exists. exists k. split; [now rewrite D0 | apply Nat.eqb_refl]. }
        rewrite Ex in Hc. simpl in Hc.
        destruct St0 as [St0|[St0 _]].
        -- rewrite <- St0. intros Q. rewrite Q in Hc. discriminate.
        -- rewrite St0 in Hc. discriminate.
    + destruct (IH k e Hf) as (e' & E' & S' & P').
      exists e'. split; [exact E'|]. split; [exact S'|].
      intros p t [<-|I] Ht Ik; [|eapply P'; eauto].
      destruct S' as (Ev' & _).
      destruct (evolves_nth_inv _ _ Ev' _ _ Ht) as (t0 & Ht0 & _). congruence.
Qed.

(** With more fuel than [pending] steps, [skipDependents] returns; it
    only turns [pending] steps into [skipped] ones, and afterwards no
    [pending] step depends on [k] or on a step it has just skipped. *)
Lemma skipDependents_spec : forall fuel k e,
  pendingCount (ex_steps e) < fuel ->
  exists e', skipDependents fuel k e = Some e' /\ skipSpec e e'
             /\ closedUnder (ex_steps e') k.
Proof.
  induction fuel as [|f IH]; intros k e Hf; [lia|].
  simpl.
  destruct (skipLoop_spec f IH (seq 0 (List.length (ex_steps e))) k e)
    as (e' & E' & S' & P'); [lia|].
  exists e'. split; [exact E'|]. split; [exact S'|].
  intros t It Ik. apply In_nth_error in It as [p Hp].
  apply (P' p t); auto.
  apply in_seq. split; [lia|]. simpl.
  destruct S' as (Ev & _). rewrite <- (evolves_length _ _ Ev).
  apply nth_error_Some. congruence.
Qed.

End SkipFacts.

(** ** The loop of [executePlan] *)

Section RunFacts.
Import Executor.
Variable r : Run.

Lemma executeStep_index a b :
  index a = index b -> executeStep r a = executeStep r b.
Proof. intros E. unfold executeStep. now rewrite E. Qed.

Lemma retryStep_index a b msg :
  index a = index b -> retryStep r a msg = retryStep r b msg.
Proof. intros E. unfold retryStep. now rewrite E. Qed.

Lemma passes_index a b : index a = index b -> passes r a = passes r b.
Proof.
  intros E. unfold passes.
  now rewrite (executeStep_index a b E), (retryStep_index a b _ E).
Qed.

Lemma executeStep_stepIndex s : stepIndex (executeStep r s) = index s.
Proof. unfold executeStep. now destruct (first r (index s)). Qed.

Lemma retryStep_stepIndex s msg : stepIndex (retryStep r s msg) = index s.
Proof. unfold retryStep. now destruct (retry r (index s) msg). Qed.

Lemma updStatus_twice l : forall pos a b,
  updStatus pos a (updStatus pos b l) = updStatus pos a l.
Proof.
  induction l as [|s l IH]; intros pos a b; [reflexivity|].
  destruct pos; simpl; [reflexivity | now rewrite IH].
Qed.

Lemma updStatus_length l : forall pos st,
  List.length (updStatus pos st l) = List.length l.
Proof.
  induction l as [|s l IH]; intros pos st; [reflexivity|].
  destruct pos; simpl; auto.
Qed.

Lemma sameShape_refl l : sameShape l l.
Proof. induction l; constructor; auto. Qed.

Lemma updStatus_shape l : forall pos st, sameShape l (updStatus pos st l).
Proof.
  induction l as [|s l IH]; intros pos st; [constructor|].
  destruct pos; simpl; constructor; auto.
  - apply sameShape_refl.
  - apply IH.
Qed.

Lemma sameShape_trans l1 : forall l2 l3,
  sameShape l1 l2 -> sameShape l2 l3 -> sameShape l1 l3.
Proof.
  induction l1 as [|a l1 IH]; intros l2 l3 H1 H2; inversion H1; subst;
    inversion H2; subst; constructor.
  - intuition congruence.
  - eapply IH; eauto.
Qed.

Lemma sameShape_nth l l' : sameShape l l' -> forall p u,
  nth_error l p = Some u ->
  exists u', nth_error l' p = Some u' /\ index u = index u'
             /\ dependsOn u = dependsOn u'.
Proof.
  induction 1 as [|a b l l' Hab _ IH]; intros p u Hn.
  - destruct p; discriminate.
  - destruct p as [|p]; simpl in *.
    + injection Hn as <-. exists b. tauto.
    + eauto.
Qed.

Lemma sameShape_sym l l' : sameShape l l' -> sameShape l' l.
Proof. induction 1; constructor; intuition. Qed.

Lemma evolves_shape l l' : evolves l l' -> sameShape l l'.
Proof.
  induction 1 as [|a b l l' (I & D & _) _ IH]; constructor; auto.
Qed.

Lemma markedDone_shape ps : forall l, sameShape l (markedDone ps l).
Proof.
  unfold markedDone. induction ps as [|p ps IH]; intros l; simpl.
  - apply sameShape_refl.
  - eapply sameShape_trans; [apply updStatus_shape | apply IH].
Qed.

Lemma markedDone_nth ps : forall l q,
  ~ In q ps -> nth_error (markedDone ps l) q = nth_error l q.
Proof.
  unfold markedDone. induction ps as [|p ps IH]; intros l q Hn; simpl.
  - reflexivity.
  - rewrite IH by (intros I; apply Hn; now right).
    rewrite nth_error_updStatus.
    destruct (Nat.eqb_spec q p) as [->|]; [|reflexivity].
    exfalso; apply Hn; now left.
Qed.

Lemma markedDone_snoc ps p l :
  markedDone (ps ++ [p]) l = updStatus p done (markedDone ps l).
Proof. unfold markedDone. now rewrite fold_left_app. Qed.

(** One iteration for a step that passes (first attempt or retry). *)
Lemma runSorted_pass pos rest e step :
  nth_error (ex_steps e) pos = Some step ->
  aborted r (index step) = false ->
  passes r step = true ->
  exists e',
    runSorted r (pos :: rest) e = runSorted r rest e'
    /\ ex_steps e' = updStatus pos done (ex_steps e)
    /\ (exists res, ex_results e' = ex_results e ++ [res]
                    /\ stepIndex res = index step)
    /\ (exists lg, ex_log e' = ex_log e ++ lg
                   /\ forall x, In x lg -> fst x = pos).
Proof.
  intros Hn Ha Hp. simpl. rewrite Hn, Ha.
  unfold passes in Hp.
  destruct (isSuccess (executeStep r step)) eqn:E1.
  - eexists. split; [reflexivity|]. simpl.
    split; [apply updStatus_twice|]. split.
    + eexists. split; [reflexivity | apply executeStep_stepIndex].
    + exists [(pos, active); (pos, done)]. split.
      * now rewrite <- app_assoc.
      * intros x [<-|[<-|[]]]; reflexivity.
  - simpl in Hp. rewrite Hp.
    eexists. split; [reflexivity|]. simpl.
    split; [now rewrite !updStatus_twice|]. split.
    + eexists. rewrite removelast_last.
      split; [reflexivity | apply retryStep_stepIndex].
    + exists [(pos, active); (pos, failed); (pos, done)]. split.
      * now rewrite <- !app_assoc.
      * intros x [<-|[<-|[<-|[]]]]; reflexivity.
Qed.

(** The iteration for a step whose first attempt and retry both fail:
    the loop is left through [skipDependents] and [break]. *)
Lemma runSorted_fail pos rest e step :
  nth_error (ex_steps e) pos = Some step ->
  aborted r (index step) = false ->
  passes r step = false ->
  runSorted r (pos :: rest) e
  = skipDependents (S (List.length (ex_steps e))) (index step)
      (mkExec (updStatus pos failed (ex_steps e))
              (ex_results e ++ [executeStep r step])
              (ex_log e ++ [(pos, active); (pos, failed)])).
Proof.
  intros Hn Ha Hp. cbn [runSorted]. rewrite Hn, Ha.
  unfold passes in Hp. apply orb_false_elim in Hp as [E1 E2].
  cbv zeta. rewrite E1, E2.
  unfold mark, pushResult; cbn [ex_steps ex_results ex_log].
  rewrite updStatus_twice, !updStatus_length, <- app_assoc. reflexivity.
Qed.

(** Running over a prefix of steps that all pass. *)
Lemma runSorted_prefix steps : forall rs e rest,
  sameShape steps (ex_steps e) ->
  (forall x, In x rs -> nth_error steps (fst x) = Some (snd x)
                        /\ aborted r (index (snd x)) = false
                        /\ passes r (snd x) = true) ->
  exists e',
    runSorted r (map fst rs ++ rest) e = runSorted r rest e'
    /\ ex_steps e' = markedDone (map fst rs) (ex_steps e)
    /\ map stepIndex (ex_results e')
       = map stepIndex (ex_results e) ++ map index (map snd rs)
    /\ (exists lg, ex_log e' = ex_log e ++ lg
                   /\ forall x, In x lg -> In (fst x) (map fst rs)).
Proof.
  induction rs as [|[pos s] rs IH]; intros e rest Hsh Hall.
  - exists e. simpl. split; [reflexivity|]. split; [reflexivity|].
    split; [now rewrite app_nil_r|].
    exists []. rewrite app_nil_r. split; [reflexivity | intros x []].
  - destruct (Hall (pos, s) (or_introl eq_refl)) as (Hn & Ha & Hp).
    cbn [fst snd] in Hn, Ha, Hp.
    change (map fst ((pos, s) :: rs) ++ rest) with (pos :: map fst rs ++ rest).
    change (map fst ((pos, s) :: rs)) with (pos :: map fst rs).
    change (map index (map snd ((pos, s) :: rs)))
      with (index s :: map index (map snd rs)).
    destruct (sameShape_nth _ _ Hsh _ _ Hn) as (step & Hstep & Hi & _).
    destruct (runSorted_pass pos (map fst rs ++ rest) e step Hstep)
      as (e1 & E1 & St1 & (res & R1 & Ri) & (lg1 & L1 & A1)).
    { now rewrite <- Hi. }
    { now rewrite <- (passes_index s step Hi). }
    destruct (IH e1 rest) as (e' & E' & St' & R' & (lg & L' & A')).
    { rewrite St1. eapply sameShape_trans; [exact Hsh | apply updStatus_shape]. }
    { intros x I. apply Hall. now right. }
    exists e'. split; [now rewrite E1|]. split; [now rewrite St', St1|]. split.
    + rewrite R', R1, map_app. simpl. rewrite Ri, <- Hi, <- app_assoc. reflexivity.
    + exists (lg1 ++ lg). split; [now rewrite L', L1, app_assoc|].
      intros x I. apply in_app_or in I as [I|I].
      * left. symmetry. now apply A1.
      * right. now apply A'.
Qed.

End RunFacts.

(** ** Failure propagation in [executePlan] *)

Section FailureFacts.
Import Executor.

Lemma sameShape_index l l' : sameShape l l' -> map index l' = map index l.
Proof.
  induction 1 as [|a b l l' (I & _) _ IH]; simpl; [reflexivity|].
  now rewrite I, IH.
Qed.

Lemma depends_shape l l' k d : sameShape l l' -> depends l k d -> depends l' k d.
Proof.
  intros Sh (s & Is & Ik & Id).
  apply In_nth_error in Is as [p Hp].
  destruct (sameShape_nth _ _ Sh _ _ Hp) as (s' & Hs' & I' & D').
  exists s'. split; [eapply nth_error_In; eauto|]. split; congruence.
Qed.

Lemma clos_trans_shape l l' a b :
  sameShape l l' ->
  clos_trans nat (depends l) a b -> clos_trans nat (depends l') a b.
Proof.
  intros Sh. induction 1 as [x y H | x y z _ IH1 _ IH2].
  - apply t_step. eapply depends_shape; eauto.
  - eapply t_trans; eauto.
Qed.

Lemma statusOf_nth l p t :
  uniqueIndices l -> nth_error l p = Some t ->
  statusOf l (index t) = Some (status t).
Proof.
  intros U H. unfold statusOf.
  rewrite find_unique; [reflexivity | exact U | eapply nth_error_In; eauto].
Qed.

Lemma pendingCount_le l : pendingCount l <= List.length l.
Proof. unfold pendingCount. apply filter_length_le. Qed.

Lemma Ordered_trans_before steps l :
  uniqueIndices steps -> Ordered steps l ->
  forall k d, clos_trans nat (depends steps) k d ->
  forall a b, l = a ++ k :: b -> In d a.
Proof.
  intros U Hord k d T. apply clos_trans_t1n in T.
  induction T as [k d H | k y d H _ IH]; intros a b E.
  - eapply Ordered_split; eauto. now apply depends_depsOf.
  - assert (Iy : In y a).
    { eapply Ordered_split; eauto. now apply depends_depsOf. }
    apply in_split in Iy as (a1 & a2 & ->).
    apply in_or_app. left.
    apply (IH a1 (a2 ++ k :: b)).
    rewrite E, <- app_assoc. reflexivity.
Qed.

(** Once [skipDependents k] has run on steps whose transitive dependents
    of [k] were all [pending], every one of them is [skipped]. *)
Lemma skip_transitive L L' k :
  uniqueIndices L' -> evolves L L' -> skippedClosed L L' ->
  closedUnder L' k ->
  (forall t, In t L -> clos_trans nat (depends L') (index t) k ->
             status t = pending) ->
  forall x, clos_trans_1n nat (depends L') x k ->
  forall t', In t' L' -> index t' = x ->
             status t' = skipped /\ newlySkipped L L' x.
Proof.
  intros U Ev SC Ck Hpend.
  assert (Sub : forall x t', clos_trans nat (depends L') x k ->
                 In t' L' -> index t' = x -> status t' <> pending ->
                 status t' = skipped /\ newlySkipped L L' x).
  { intros x t' T It' Ix Np.
    apply In_nth_error in It' as [p Hp].
    destruct (evolves_nth_inv _ _ Ev _ _ Hp) as (u & Hu & (Iu & _ & Su)).
    assert (Pu : status u = pending).
    { apply Hpend; [eapply nth_error_In; eauto|]. now rewrite Iu, Ix. }
    destruct Su as [Su|[_ Su]]; [congruence|].
    split; [exact Su|]. exists p, u, t'. repeat split; auto. congruence. }
  intros x T.
  induction T as [x k H | x y k H T IH]; intros t' It' Ix.
  - apply Sub; auto; [now apply t_step|].
    destruct H as (s & Is & Es & Ik).
    rewrite <- (unique_step L' s t' U Is It') by congruence.
    now apply Ck.
  - apply Sub; auto.
    { eapply t_trans; [apply t_step; exact H | now apply clos_t1n_trans]. }
    assert (Ey : exists ty, In ty L' /\ index ty = y).
    { inversion T as [? (s & Is & Es & _) | ? ? (s & Is & Es & _) _]; subst; eauto. }
    destruct Ey as (ty & Ity & Ety).
    destruct (IH Ck Hpend Sub ty Ity Ety) as [_ NS].
    destruct H as (s & Is & Es & Iy).
    rewrite <- (unique_step L' s t' U Is It') by congruence.
    now apply (SC y NS).
Qed.

Lemma refs_position steps (rs : list (nat * PlanStep)) q s :
  (forall x, In x rs -> nth_error steps (fst x) = Some (snd x)) ->
  In q (map fst rs) -> nth_error steps q = Some s -> In s (map snd rs).
Proof.
  intros H I Hq. apply in_map_iff in I as (x & <- & Ix).
  apply in_map_iff. exists x. split; [|exact Ix].
  specialize (H x Ix). congruence.
Qed.

Lemma Forall2_refOf_nth steps l rs :
  Forall2 (refOf steps) l rs ->
  forall x, In x rs -> nth_error steps (fst x) = Some (snd x).
Proof.
  induction 1 as [|k x l rs [N _] _ IH]; intros y; simpl; [tauto|].
  intros [<-|I]; auto.
Qed.

End FailureFacts.

Section FailureTheorem.
Import Executor.

(** C3.  Take a plan with unique indices whose steps are all [pending],
    and a run in which the scheduler reaches step [S] (every step before
    [S] in the execution order passes, and no abort is signalled) and [S]
    fails on its first attempt and on its retry.  Then [executePlan]
    returns; [S] ends [failed]; every step that depends on [S] directly
    or transitively ends [skipped] and is at no time marked [done]; the
    results are those of the steps up to [S]; and the steps after [S] in
    the execution order are not processed: the only assignment their
    status can receive is [skipped]. *)
Theorem executePlan_failure_propagation r steps l1 S l2 :
  uniqueIndices steps ->
  (forall s, In s steps -> status s = pending) ->
  topologicalSort steps = Some (l1 ++ S :: l2) ->
  (forall s, In s l1 -> aborted r (index s) = false /\ passes r s = true) ->
  aborted r (index S) = false ->
  failsAfterRetry r S = true ->
  exists e,
    executePlan r steps = Some e
    /\ statusOf (ex_steps e) (index S) = Some failed
    /\ (forall T, In T steps ->
          clos_trans nat (depends steps) (index T) (index S) ->
          statusOf (ex_steps e) (index T) = Some skipped
          /\ forall pos, nth_error steps pos = Some T ->
                         ~ In (pos, done) (ex_log e))
    /\ map stepIndex (ex_results e) = map index (l1 ++ [S])
    /\ (forall pos s, nth_error steps pos = Some s -> In s l2 ->
          forall st, In (pos, st) (ex_log e) -> st = skipped).
Proof.
  intros U Hpending Hsort Hpass HaS HfS.
  (* the references behind the sorted steps *)
  destruct (topologicalSortRefs_spec steps U)
    as (processed & Erefs & Hnd & Hmem & Hord).
  assert (F : Forall2 (refOf steps) processed (refs (stepMapOf steps) processed)).
  { apply refs_Forall2; [exact U|]. intros k I. now apply Hmem in I. }
  set (rs := refs (stepMapOf steps) processed) in *.
  assert (Hmap : map snd rs = l1 ++ S :: l2).
  { unfold topologicalSort in Hsort. rewrite Erefs in Hsort. simpl in Hsort.
    now injection Hsort. }
  assert (Hidx : map index (l1 ++ S :: l2) = processed).
  { rewrite <- Hmap. eapply Forall2_refOf_index; eauto. }
  assert (Hnth : forall x, In x rs -> nth_error steps (fst x) = Some (snd x)).
  { eapply Forall2_refOf_nth; eauto. }
  apply map_eq_app in Hmap as (rs1 & rs' & Ers & Hl1 & Hrs').
  destruct rs' as [|[posS S'] rs2]; [discriminate|].
  simpl in Hrs'. injection Hrs' as -> Hl2.
  assert (HndI : NoDup (map index l1 ++ index S :: map index l2)).
  { rewrite map_app in Hidx. simpl in Hidx. now rewrite Hidx. }
  assert (HposS : nth_error steps posS = Some S).
  { apply (Hnth (posS, S)). rewrite Ers. apply in_elt. }
  assert (Hnth1 : forall x, In x rs1 -> nth_error steps (fst x) = Some (snd x)).
  { intros x I. apply Hnth. rewrite Ers. apply in_or_app. now left. }
  (* a step not among [l1 ++ [S]] is untouched when [S] fails *)
  assert (Hin1 : forall q s, In q (map fst rs1) -> nth_error steps q = Some s ->
                             In (index s) (map index l1)).
  { intros q s I Hq. apply in_map. rewrite <- Hl1.
    eapply refs_position; eauto. }
  assert (HSnot1 : ~ In (index S) (map index l1)).
  { intros I. apply NoDup_remove_2 in HndI. apply HndI, in_or_app. now left. }
  assert (HposS1 : ~ In posS (map fst rs1)).
  { intros I. apply HSnot1. eapply Hin1; eauto. }
  (* transitive dependents of [S] come after [S] in the order *)
  assert (Hafter : forall T, In T steps ->
            clos_trans nat (depends steps) (index T) (index S) ->
            ~ In (index T) (map index l1) /\ index T <> index S).
  { intros T IT HT. split.
    - intros I. apply in_split in I as (a & b & Eab).
      assert (Ia : In (index S) a).
      { apply (Ordered_trans_before steps processed U Hord _ _ HT a
                 (b ++ index S :: map index l2)).
        rewrite <- Hidx, map_app. simpl. rewrite Eab, <- app_assoc. reflexivity. }
      apply HSnot1. rewrite Eab. apply in_or_app. now left.
    - intros E. rewrite E in HT. apply HSnot1.
      apply (Ordered_trans_before steps processed U Hord _ _ HT (map index l1)
               (map index l2)).
      rewrite <- Hidx, map_app. reflexivity. }
  (* run the prefix *)
  unfold executePlan. rewrite Erefs. fold rs. rewrite Ers, map_app.
  change (map fst ((posS, S) :: rs2)) with (posS :: map fst rs2).
  destruct (runSorted_prefix r steps rs1 (mkExec steps [] []) (posS :: map fst rs2))
    as (e1 & E1 & St1 & R1 & (lg1 & L1 & A1)).
  { apply sameShape_refl. }
  { intros x I. split; [now apply Hnth1|].
    apply Hpass. rewrite <- Hl1. now apply in_map. }
  simpl in St1, R1, L1. rewrite E1.
  assert (HS1 : nth_error (ex_steps e1) posS = Some S).
  { rewrite St1, markedDone_nth; auto. }
  rewrite (runSorted_fail r posS (map fst rs2) e1 S HS1 HaS).
  2:{ unfold failsAfterRetry in HfS. now destruct (passes r S). }
  set (e3 := mkExec (updStatus posS failed (ex_steps e1))
                    (ex_results e1 ++ [executeStep r S])
                    (ex_log e1 ++ [(posS, active); (posS, failed)])).
  destruct (skipDependents_spec (Datatypes.S (List.length (ex_steps e1))) (index S) e3)
    as (e & Ee & (Ev & Res & (sl & Lg & Asl) & SC) & Ck).
  { pose proof (pendingCount_le (ex_steps e3)) as P. simpl in P.
    rewrite updStatus_length in P. simpl. lia. }
  exists e. split; [exact Ee|].
  assert (Sh3 : sameShape steps (ex_steps e3)).
  { simpl. rewrite St1.
    eapply sameShape_trans; [apply markedDone_shape | apply updStatus_shape]. }
  assert (Sh : sameShape steps (ex_steps e)).
  { eapply sameShape_trans; [exact Sh3 | now apply evolves_shape]. }
  assert (Ue : uniqueIndices (ex_steps e)).
  { unfold uniqueIndices. now rewrite (sameShape_index _ _ Sh). }
  (* steps outside [l1 ++ [S]] are still as in the plan when [S] fails *)
  assert (Hsame : forall q s, nth_error steps q = Some s ->
            ~ In (index s) (map index l1) -> index s <> index S ->
            nth_error (ex_steps e3) q = Some s).
  { intros q s Hq N1 NS. simpl. rewrite nth_error_updStatus.
    destruct (Nat.eqb_spec q posS) as [->|_].
    - exfalso. apply NS. congruence.
    - rewrite St1, markedDone_nth; auto.
      intros I. apply N1. eapply Hin1; eauto. }
  assert (Hlog : forall q st, In (q, st) (ex_log e) ->
            In q (map fst rs1) \/ q = posS /\ st <> done \/ st = skipped).
  { intros q st I. rewrite Lg in I. simpl in I. rewrite L1 in I.
    apply in_app_or in I as [I|I]; [|right; right; exact (Asl _ I)].
    apply in_app_or in I as [I|[I|[I|[]]]].
    - left. exact (A1 _ I).
    - right; left. injection I as <- <-. split; [reflexivity | discriminate].
    - right; left. injection I as <- <-. split; [reflexivity | discriminate]. }
  split; [|split; [|split]].
  - (* S ends failed *)
    assert (H3 : nth_error (ex_steps e3) posS = Some (withStatus S failed)).
    { simpl. rewrite nth_error_updStatus, Nat.eqb_refl, HS1. reflexivity. }
    destruct (evolves_nth _ _ Ev _ _ H3) as (S'' & HS'' & (I'' & _ & St'')).
    simpl in I'', St''. rewrite I''.
    rewrite (statusOf_nth _ _ _ Ue HS'').
    destruct St'' as [<-|[Q _]]; [reflexivity | discriminate].
  - (* dependents are skipped and never done *)
    intros T IT HT. destruct (Hafter T IT HT) as [N1 NS]. split.
    + apply In_nth_error in IT as [q Hq].
      pose proof (Hsame q T Hq N1 NS) as H3.
      destruct (evolves_nth _ _ Ev _ _ H3) as (T' & HT' & (IT' & _ & _)).
      rewrite IT', (statusOf_nth _ _ _ Ue HT'). f_equal.
      apply (skip_transitive (ex_steps e3) (ex_steps e) (index S) Ue Ev SC Ck)
        with (x := index T').
      * intros t It Ht.
        apply In_nth_error in It as [q' Hq'].
        destruct (sameShape_nth _ _ (sameShape_sym _ _ Sh3) _ _ Hq')
          as (t0 & Ht0 & I0 & _).
        assert (T0 : clos_trans nat (depends steps) (index t0) (index S)).
        { rewrite <- I0. eapply clos_trans_shape; [|exact Ht].
          now apply sameShape_sym. }
        destruct (Hafter t0 (nth_error_In _ _ Ht0) T0) as [M1 MS].
        pose proof (Hsame q' t0 Ht0 M1 MS) as Hq''.
        assert (t = t0) by congruence. subst t0.
        apply Hpending. eapply nth_error_In; eauto.
      * apply clos_trans_t1n. rewrite <- IT'.
        eapply clos_trans_shape; eauto.
      * eapply nth_error_In; eauto.
      * reflexivity.
    + intros pos Hpos I.
      destruct (Hlog _ _ I) as [I1|[[_ Nd]|Sk]].
      * apply N1. eapply Hin1; eauto.
      * now apply Nd.
      * discriminate Sk.
  - (* results *)
    rewrite Res. simpl. rewrite map_app, R1. simpl.
    rewrite executeStep_stepIndex, Hl1, map_app. reflexivity.
  - (* steps after S are not processed *)
    intros pos s Hpos Is st I.
    assert (Ns1 : ~ In (index s) (map index l1)).
    { intros I1. apply (in_map index) in Is.
      apply NoDup_app_remove_r in HndI as Hnd1.
      assert (Hd : forall k, In k (map index l1) ->
                             ~ In k (index S :: map index l2)).
      { clear -HndI. induction (map index l1) as [|a m IH]; intros k; [intros []|].
        simpl in HndI. inversion HndI as [|? ? Hn Hr]; subst.
        intros [<-|Ik].
        - intros I. apply Hn, in_or_app. now right.
        - now apply IH. }
      apply (Hd _ I1). now right. }
    assert (NsS : index s <> index S).
    { intros E. apply NoDup_remove_2 in HndI. apply HndI.
      apply in_or_app. right. rewrite <- E. now apply in_map. }
    destruct (Hlog _ _ I) as [I1|[[Ep _]|Sk]].
    + exfalso. apply Ns1. eapply Hin1; eauto.
    + exfalso. apply NsS. congruence.
    + exact Sk.
Qed.

End FailureTheorem.

Section FailureExamples.
Import Executor.

(** The diamond with step 1 failing twice: 0 is done, 1 failed, 2 is
    left pending, 3 is skipped, and only 0 and 1 have results. *)
Lemma failingRun_diamond :
  option_map (fun e => (map status (ex_steps e), map stepIndex (ex_results e),
                        ex_log e))
             (executePlan failingRun diamondPlan)
  = Some ([done; failed; pending; skipped], [0; 1],
          [(0, active); (0, done); (1, active); (1, failed); (3, skipped)]).
Proof. reflexivity. Qed.

Lemma executePlan_failure_propagation_witness :
  exists e,
    executePlan failingRun diamondPlan = Some e
    /\ statusOf (ex_steps e) 1 = Some failed
    /\ (forall T, In T diamondPlan ->
          clos_trans nat (depends diamondPlan) (index T) 1 ->
          statusOf (ex_steps e) (index T) = Some skipped
          /\ forall pos, nth_error diamondPlan pos = Some T ->
                         ~ In (pos, done) (ex_log e))
    /\ map stepIndex (ex_results e) = [0; 1]
    /\ (forall pos s, nth_error diamondPlan pos = Some s ->
          In s [sampleStep 2 [0]; sampleStep 3 [1; 2]] ->
          forall st, In (pos, st) (ex_log e) -> st = skipped).
Proof.
  apply (executePlan_failure_propagation failingRun diamondPlan
           [sampleStep 0 []] (sampleStep 1 [0])
           [sampleStep 2 [0]; sampleStep 3 [1; 2]]).
  - unfold uniqueIndices; simpl.
    repeat (constructor; [simpl; intuition discriminate|]). constructor.
  - intros s Is. simpl in Is.
    repeat (destruct Is as [<-|Is]; [reflexivity|]). destruct Is.
  - reflexivity.
  - intros s [<-|[]]. split; reflexivity.
  - reflexivity.
  - reflexivity.
Defined.

End FailureExamples.

(** ** Tool dispatch *)

Section ToolFacts.
Import Tools.

Lemma flat_map_nil_iff (A B : Type) (f : A -> list B) (l : list A) :
  flat_map f l = [] <-> forall x, In x l -> f x = [].
Proof.
  induction l as [|a l IH]; simpl.
  - split; [intros _ x [] | reflexivity].
  - split.
    + intros H. apply app_eq_nil in H as [Ha Hl].
      intros x [<-|I]; [exact Ha | now apply IH].
    + intros H. rewrite (H a (or_introl eq_refl)). simpl.
      apply IH. intros x I. apply H. now right.
Qed.










(** A required field that the input inherits counts as present. *)
Lemma validate_inherited_field :
  validateToolInput [] (mkSchema (Some ["toString"%string]) None) = (true, []).
Proof. reflexivity. Qed.

Lemma String_of_empty_error : String_of_fault (ErrorObject "") = "Error"%string.
Proof. reflexivity. Qed.

(** The scenarios of the specification and of the test suite. *)
Lemma execute_double :
  execute sampleHandlers (mkCall "call_1" "double" [("value"%string, J_number 21)])
  = mkToolResult true (Some (J_object [("doubled"%string, J_number 42)])) None.
Proof. reflexivity. Qed.

Lemma execute_unknown :
  execute sampleHandlers (mkCall "call_1" "nonexistent" [])
  = mkToolResult false None (Some "Unknown tool: nonexistent"%string).
Proof. reflexivity. Qed.

Lemma execute_missing_field :
  execute sampleHandlers (mkCall "call_1" "double" [])
  = mkToolResult false None (Some "Missing required field: value"%string).
Proof. reflexivity. Qed.

Lemma execute_wrong_type :
  execute sampleHandlers
          (mkCall "call_1" "double" [("value"%string, J_string "five"); ("extra"%string, J_null)])
  = mkToolResult false None (Some "Field 'value' must be a number"%string).
Proof. reflexivity. Qed.

Lemma execute_throwing :
  execute sampleHandlers (mkCall "call_1" "failing" [("anything"%string, J_bool true)])
  = mkToolResult false None (Some "Error: CAD engine error"%string).
Proof. reflexivity. Qed.

End ToolFacts.

(** ** Strings *)

Section StringFacts.

Lemma string_app_assoc (a b c : string) : ((a ++ b) ++ c = a ++ (b ++ c))%string.
Proof. induction a as [|ch a IH]; simpl; [reflexivity | now rewrite IH]. Qed.

Lemma string_app_nil_r (a : string) : (a ++ "" = a)%string.
Proof. induction a as [|ch a IH]; simpl; [reflexivity | now rewrite IH]. Qed.

Lemma string_length_app (a b : string) :
  String.length (a ++ b) = String.length a + String.length b.
Proof. induction a as [|ch a IH]; simpl; [reflexivity | now rewrite IH]. Qed.

End StringFacts.

(** ** The streaming router *)

Section StreamFacts.
Import Tools Stream.

Lemma truthy_false s : truthy s = false -> s = EmptyString.
Proof.
  unfold truthy. destruct (String.eqb_spec s ""); [auto | discriminate].
Qed.

Lemma truthy_app_r a b : truthy b = true -> truthy (a ++ b) = true.
Proof. destruct a; [auto | reflexivity]. Qed.

Lemma truthy_app_l a b : truthy a = true -> truthy (a ++ b) = true.
Proof. destruct a; [discriminate | reflexivity]. Qed.

Lemma updAt_app l1 : forall p f l2,
  List.length l1 <= p ->
  updAt p f (l1 ++ l2) = l1 ++ updAt (p - List.length l1) f l2.
Proof.
  induction l1 as [|a l1 IH]; intros p f l2 H; simpl.
  - now rewrite Nat.sub_0_r.
  - destruct p as [|p]; simpl in *; [lia|]. rewrite IH by lia. reflexivity.
Qed.

Lemma updAt_last l x f : updAt (List.length l) f (l ++ [x]) = l ++ [f x].
Proof.
  rewrite updAt_app by lia. rewrite Nat.sub_diag. reflexivity.
Qed.

Lemma nth_error_updAt l : forall p f q,
  nth_error (updAt p f l) q
  = if Nat.eqb q p then option_map f (nth_error l q) else nth_error l q.
Proof.
  induction l as [|a l IH]; intros p f q; simpl.
  - destruct (Nat.eqb q p); destruct q; reflexivity.
  - destruct p as [|p], q as [|q]; simpl; try reflexivity. apply IH.
Qed.

Lemma filter_updAt_other P f l : forall q y,
  (forall z, P (f z) = P z) ->
  nth_error l q = Some y -> P y = false ->
  filter P (updAt q f l) = filter P l.
Proof.
  intros q y HP. revert q.
  induction l as [|a l IH]; intros q Hq Py; [reflexivity|].
  destruct q as [|q]; simpl in *.
  - injection Hq as ->. now rewrite HP, Py.
  - rewrite (IH q Hq Py). reflexivity.
Qed.

Lemma filter_updAt_single P f l : forall q x,
  (forall z, P (f z) = P z) ->
  nth_error l q = Some x -> filter P l = [x] ->
  filter P (updAt q f l) = [f x].
Proof.
  intros q x HP. revert q.
  induction l as [|a l IH]; intros q Hq Hf; [destruct q; discriminate|].
  destruct q as [|q]; simpl in *.
  - injection Hq as ->. rewrite HP.
    destruct (P x) eqn:E.
    + injection Hf as Hf. now rewrite Hf.
    + assert (J : In x (filter P l)) by (rewrite Hf; now left).
      apply filter_In in J as [_ J]. congruence.
  - destruct (P a) eqn:Pa.
    + injection Hf as -> Hf.
      assert (I : In x (filter P l)).
      { apply filter_In. split; [eapply nth_error_In; eauto | exact Pa]. }
      rewrite Hf in I. destruct I.
    + now apply IH.
Qed.

End StreamFacts.

Section SlotFacts.
Import Tools Stream.
Variable P : StreamReasoningEntry -> bool.
Variable mk : string -> StreamReasoningEntry.
Hypothesis P_mk : forall s, P (mk s) = true.
Hypothesis P_append : forall t z, P (appendContent t z) = P z.
Hypothesis append_mk : forall t s, appendContent t (mk s) = mk (s ++ t).

Lemma slot_push_other trace new cur acc x :
  Slot P mk trace new cur acc -> P x = false ->
  Slot P mk trace (new ++ [x]) cur acc.
Proof.
  unfold Slot. destruct cur as [p|].
  - intros (L & N & F & T) Px. repeat split; auto.
    + rewrite nth_error_app1; [exact N|]. apply nth_error_Some. congruence.
    + rewrite filter_app. simpl. rewrite Px, F. reflexivity.
  - intros (F & A) Px. split; [|exact A].
    rewrite filter_app. simpl. now rewrite Px, F.
Qed.

Lemma slot_upd_other trace new cur acc q y f :
  Slot P mk trace new cur acc ->
  nth_error new q = Some y -> P y = false -> (forall z, P (f z) = P z) ->
  Slot P mk trace (updAt q f new) cur acc.
Proof.
  unfold Slot. intros HS Hq Py Pf.
  rewrite (filter_updAt_other P f new q y Pf Hq Py).
  destruct cur as [p|]; [|exact HS].
  destruct HS as (L & N & F & T). repeat split; auto.
  rewrite nth_error_updAt.
  destruct (Nat.eqb_spec (p - List.length trace) q) as [E|_]; [|exact N].
  exfalso. rewrite E in N. rewrite Hq in N. injection N as ->.
  rewrite P_mk in Py. discriminate.
Qed.

Lemma slot_open trace new acc text :
  Slot P mk trace new None acc -> truthy text = true ->
  Slot P mk trace (new ++ [mk text])
       (Some (List.length trace + List.length new)) text.
Proof.
  unfold Slot. intros (F & _) T. repeat split; auto.
  - lia.
  - rewrite nth_error_app2 by lia.
    replace (List.length trace + List.length new - List.length trace
             - List.length new) with 0 by lia.
    reflexivity.
  - rewrite filter_app. simpl. now rewrite P_mk, F.
Qed.

Lemma slot_append trace new p acc text :
  Slot P mk trace new (Some p) acc -> truthy text = true ->
  Slot P mk trace (updAt (p - List.length trace) (appendContent text) new)
       (Some p) (acc ++ text).
Proof.
  unfold Slot. intros (L & N & F & T) Tt. repeat split; auto.
  - rewrite nth_error_updAt, Nat.eqb_refl, N. simpl. now rewrite append_mk.
  - rewrite (filter_updAt_single P (appendContent text) new _ (mk acc)
               (P_append text) N F).
    now rewrite append_mk.
  - now apply truthy_app_r.
Qed.

Lemma slot_nth trace new p acc :
  Slot P mk trace new (Some p) acc ->
  nth_error new (p - List.length trace) = Some (mk acc) /\ List.length trace <= p.
Proof. intros (L & N & _). auto. Qed.

End SlotFacts.

Section StreamInvariant.
Import Tools Stream.
Variable hs : Handlers.
Variable trace : list StreamReasoningEntry.

Lemma isThinking_append t z : isThinking (appendContent t z) = isThinking z.
Proof. now destruct z. Qed.
Lemma isMessage_append t z : isMessage (appendContent t z) = isMessage z.
Proof. now destruct z. Qed.
Lemma isToolCall_append t z : isToolCall (appendContent t z) = isToolCall z.
Proof. now destruct z. Qed.

Lemma routeThinking_inv st c accT accM calls :
  StreamInv hs trace st accT accM calls ->
  StreamInv hs trace (routeThinking c st) (accT ++ thinkingText c) accM calls.
Proof.
  intros (new & E & ST & SM & SC).
  unfold routeThinking, thinkingText.
  destruct (thinking c) as [text|];
    [|rewrite string_app_nil_r; exists new; auto].
  destruct (truthy text) eqn:T;
    [|rewrite (truthy_false _ T), string_app_nil_r; exists new; auto].
  destruct (currentThinking st) as [p|] eqn:C; simpl; rewrite ?C.
  - destruct (slot_nth _ _ _ _ _ _ ST) as [N L].
    exists (updAt (p - List.length trace) (appendContent text) new). simpl.
    split; [rewrite E; now apply updAt_app|]. split; [|split].
    + apply slot_append; auto using isThinking_append.
    + eapply slot_upd_other; eauto using isMessage_append.
    + rewrite (filter_updAt_other _ _ _ _ _ (isToolCall_append text) N); auto.
  - exists (new ++ [E_thinking text]). simpl.
    split; [rewrite updAt_last, E, <- app_assoc; reflexivity|].
    destruct ST as (F & ->). simpl. rewrite E, length_app.
    split; [|split].
    + apply slot_open with (acc := EmptyString); auto. split; auto.
    + apply slot_push_other; auto.
    + rewrite filter_app. simpl. now rewrite app_nil_r.
Qed.

Lemma routeDelta_inv st c accT accM calls :
  StreamInv hs trace st accT accM calls ->
  StreamInv hs trace (routeDelta c st) accT (accM ++ delta c) calls.
Proof.
  intros (new & E & ST & SM & SC).
  unfold routeDelta.
  destruct (truthy (delta c)) eqn:T;
    [|rewrite (truthy_false _ T), string_app_nil_r; exists new; auto].
  destruct (currentMessage st) as [p|] eqn:C; simpl; rewrite ?C.
  - destruct (slot_nth _ _ _ _ _ _ SM) as [N L].
    exists (updAt (p - List.length trace) (appendContent (delta c)) new). simpl.
    split; [rewrite E; now apply updAt_app|]. split; [|split].
    + eapply slot_upd_other; eauto using isThinking_append.
    + apply slot_append; auto using isMessage_append.
    + rewrite (filter_updAt_other _ _ _ _ _ (isToolCall_append (delta c)) N); auto.
  - exists (new ++ [E_message (delta c)]). simpl.
    split; [rewrite updAt_last, E, <- app_assoc; reflexivity|].
    destruct SM as (F & ->). simpl. rewrite E, length_app.
    split; [|split].
    + apply slot_push_other; auto.
    + apply slot_open with (acc := EmptyString); auto. split; auto.
    + rewrite filter_app. simpl. now rewrite app_nil_r.
Qed.

Lemma handleCall_inv st call accT accM calls :
  StreamInv hs trace st accT accM calls ->
  StreamInv hs trace (handleCall hs st call) accT accM (calls ++ [call]).
Proof.
  intros (new & E & ST & SM & SC).
  exists (new ++ [settledEntry hs call]). unfold handleCall. simpl.
  split; [rewrite updAt_last, E, <- app_assoc; reflexivity|].
  split; [|split].
  - apply slot_push_other; auto.
  - apply slot_push_other; auto.
  - rewrite filter_app, map_app, SC. reflexivity.
Qed.

Lemma routeToolCalls_inv c : forall st accT accM calls,
  StreamInv hs trace st accT accM calls ->
  StreamInv hs trace (routeToolCalls hs c st) accT accM
            (calls ++ match toolCalls c with Some l => l | None => [] end).
Proof.
  unfold routeToolCalls. destruct (toolCalls c) as [l|];
    [|intros; now rewrite app_nil_r].
  induction l as [|call l IH]; intros st accT accM calls H; simpl.
  - now rewrite app_nil_r.
  - apply handleCall_inv with (call := call) in H.
    apply IH in H. now rewrite <- app_assoc in H.
Qed.

Lemma processStream_inv stream : forall st accT accM calls,
  StreamInv hs trace st accT accM calls ->
  StreamInv hs trace (fold_left (processChunk hs) stream st)
            (accT ++ allThinking stream) (accM ++ allDelta stream)
            (calls ++ allCalls stream).
Proof.
  induction stream as [|c stream IH]; intros st accT accM calls H; simpl.
  - unfold allThinking, allDelta. simpl.
    now rewrite !string_app_nil_r, app_nil_r.
  - apply (routeThinking_inv _ c), (routeDelta_inv _ c), (routeToolCalls_inv c) in H.
    apply IH in H.
    unfold allThinking, allDelta, allCalls in *. simpl.
    now rewrite !string_app_assoc, <- app_assoc in H.
Qed.

End StreamInvariant.

Section StreamTheorems.
Import Tools Stream.

(** C4, as stated, fails: the accumulator variables are never cleared, so
    reasoning text that arrives after a tool call is appended to the
    entry opened before the call. *)
Lemma processStream_reopen_counterexample : ~ reopens_after_tool_call.
Proof.
  intros H.
  specialize (H [] "a"%string "b"%string (mkCall "call_1" "query" [])
                eq_refl eq_refl).
  vm_compute in H. discriminate H.
Qed.

(** What the stream of the counterexample produces. *)
Lemma processStream_after_tool_call :
  processStream [] [mkChunk "" (Some "a"%string) None;
                    mkChunk "" None (Some [mkCall "call_1" "query" []]);
                    mkChunk "" (Some "b"%string) None] []
  = [E_thinking "ab";
     E_tool_call "query" [] None cs_error].
Proof. reflexivity. Qed.

(** C4 (amended).  While one response stream is processed, the entries
    appended to the trace hold at most one [thinking] entry and at most
    one [message] entry: an entry is opened at the first non-empty
    fragment of its kind and every later fragment of that kind is
    appended to it, also after [tool_call] entries or entries of the
    other kind; and there is one [tool_call] entry per requested call, in
    arrival order. *)
Theorem processStream_single_accumulators hs stream trace :
  exists new,
    processStream hs stream trace = trace ++ new
    /\ filter isThinking new
       = (if truthy (allThinking stream) then [E_thinking (allThinking stream)]
          else [])
    /\ filter isMessage new
       = (if truthy (allDelta stream) then [E_message (allDelta stream)] else [])
    /\ filter isToolCall new = map (settledEntry hs) (allCalls stream).
Proof.
  assert (H0 : StreamInv hs trace (mkState trace None None) "" "" []).
  { exists []. simpl. rewrite app_nil_r. repeat split; auto. }
  apply (processStream_inv hs trace stream) in H0.
  destruct H0 as (new & E & ST & SM & SC). simpl in ST, SM, SC.
  exists new. split; [exact E|]. split; [|split; [|exact SC]].
  - unfold Slot in ST. destruct (currentThinking _).
    + destruct ST as (_ & _ & F & T). now rewrite T.
    + destruct ST as (F & ->). exact F.
  - unfold Slot in SM. destruct (currentMessage _).
    + destruct SM as (_ & _ & F & T). now rewrite T.
    + destruct SM as (F & ->). exact F.
Qed.

End StreamTheorems.

(** ** Association lists with string keys *)

Section StringMapFacts.
Variable V : Type.
Implicit Types (m : JSMap.t string V) (k : string) (v : V).

Lemma sget_set_same m k v :
  JSMap.get String.eqb k (JSMap.set String.eqb k v m) = Some v.
Proof.
  induction m as [|[k' v'] r IH]; simpl.
  - now rewrite String.eqb_refl.
  - destruct (String.eqb k k') eqn:E; simpl.
    + now rewrite String.eqb_refl.
    + now rewrite E.
Qed.

Lemma sget_set_other m k k' v :
  k <> k' ->
  JSMap.get String.eqb k (JSMap.set String.eqb k' v m) = JSMap.get String.eqb k m.
Proof.
  intros Hne. induction m as [|[k0 v0] r IH]; simpl.
  - destruct (String.eqb_spec k k'); [contradiction | reflexivity].
  - destruct (String.eqb_spec k' k0) as [->|Hn0]; simpl.
    + destruct (String.eqb_spec k k0); [contradiction | reflexivity].
    + destruct (String.eqb k k0); [reflexivity | exact IH].
Qed.

Lemma ssize_set m k v :
  JSMap.size (JSMap.set String.eqb k v m)
  = if JSMap.has String.eqb k m then JSMap.size m else S (JSMap.size m).
Proof.
  unfold JSMap.has, JSMap.size.
  induction m as [|[k' v'] r IH]; simpl; [reflexivity|].
  destruct (String.eqb k k'); simpl; [reflexivity|].
  rewrite IH. now destruct (JSMap.get String.eqb k r).
Qed.

Lemma svalues_set_in m k v x :
  In x (JSMap.values (JSMap.set String.eqb k v m)) ->
  x = v \/ In x (JSMap.values m).
Proof.
  unfold JSMap.values.
  induction m as [|[k' v'] r IH]; simpl.
  - intros [<-|[]]. now left.
  - destruct (String.eqb k k'); simpl.
    + intros [<-|I]; auto.
    + intros [<-|I]; auto. destruct (IH I); auto.
Qed.

Lemma svalues_delete_in m k x :
  In x (JSMap.values (JSMap.delete String.eqb k m)) -> In x (JSMap.values m).
Proof.
  unfold JSMap.values.
  induction m as [|[k' v'] r IH]; simpl; [tauto|].
  destruct (String.eqb k k'); simpl; [auto|].
  intros [<-|I]; auto.
Qed.

End StringMapFacts.

(** ** The similarity index *)

(** *** The arithmetic of doubles

    The facts of IEEE 754 arithmetic the index relies on, proved from
    the specification of the primitive floats. *)

Section SpecFloatSign.
Variables prec emax : Z.
Hypothesis prec_pos : (0 < prec)%Z.
Local Open Scope Z_scope.















End SpecFloatSign.

Section DoubleFacts.


Lemma SFmul_comm prec emax x y : SFmul prec emax x y = SFmul prec emax y x.
Proof.
  destruct x as [sx|sx| |sx mx ex], y as [sy|sy| |sy my ey]; simpl;
    try reflexivity; try (now rewrite xorb_comm).
  rewrite xorb_comm, Pos.mul_comm, Z.add_comm. reflexivity.
Qed.

Lemma float_mul_comm (x y : float) : (x * y)%float = (y * x)%float.
Proof.
  apply Prim2SF_inj. rewrite !mul_spec. apply SFmul_comm.
Qed.









End DoubleFacts.

Section VectorFacts.
Import VectorStore.









Lemma insertSorted_perm x l : Permutation (insertSorted x l) (x :: l).
Proof.
  induction l as [|y r IH]; simpl; [reflexivity|].
  destruct (0 <? compareFn y x)%float; [reflexivity|].
  rewrite IH. apply perm_swap.
Qed.


Lemma sortResults_perm l : Permutation (sortResults l) l.
Proof.
  unfold sortResults.
  assert (G : forall acc,
            Permutation (fold_left (fun a x => insertSorted x a) l acc) (acc ++ l)).
  { induction l as [|x l IH]; intros acc; simpl.
    - now rewrite app_nil_r.
    - rewrite IH, (insertSorted_perm x acc). apply Permutation_middle. }
  apply (G []).
Qed.



Lemma scoreAll_spec query filter docs :
  (forall d, In d docs -> List.length (embedding d) = List.length query) ->
  scoreAll query filter docs
  = inl (map (fun d => mkSearchResult d (cosineValue query (embedding d)))
             (List.filter (passesFilter filter) docs)).
Proof.
  induction docs as [|d docs IH]; intros H; simpl; [reflexivity|].
  rewrite IH by (intros d' I; apply H; now right).
  destruct (passesFilter filter d); [|reflexivity].
  unfold cosineSimilarity.
  rewrite (H d (or_introl eq_refl)), Nat.eqb_refl. reflexivity.
Qed.

Lemma upsert_wellFormed docs : forall st,
  wellFormed st -> wellFormed (fst (upsert docs st)).
Proof.
  induction docs as [|d docs IH]; intros st W; simpl; [exact W|].
  destruct (Nat.eqb_spec (List.length (embedding d)) (dimensions st)) as [E|N];
    simpl; [|exact W].
  apply IH. intros x I. simpl in *.
  apply svalues_set_in in I as [->|I]; [exact E | now apply W].
Qed.

Lemma remove_wellFormed ids st : wellFormed st -> wellFormed (remove ids st).
Proof.
  unfold wellFormed, remove. simpl.
  generalize (_documents st) as m. induction ids as [|i ids IH]; intros m W d I.
  - now apply W.
  - simpl in I. eapply IH; [|exact I].
    intros x Ix. apply W. eapply svalues_delete_in; eauto.
Qed.

(** The scenarios of the test suite on [axesStore]. *)
Lemma cosineValue_same_axis :
  cosineValue [1; 0; 0]%float [1; 0; 0]%float = 1%float.
Proof. reflexivity. Qed.

Lemma cosineValue_other_axis :
  cosineValue [1; 0; 0]%float [0; 1; 0]%float = 0%float.
Proof. reflexivity. Qed.

Lemma axesStore_wellFormed : wellFormed axesStore.
Proof.
  apply upsert_wellFormed. intros d [].
Qed.

Lemma search_axes_top1 :
  search [1; 0; 0]%float 1 None axesStore
  = inl [mkSearchResult (sampleDoc "a" [1; 0; 0]%float "x-axis") 1%float].
Proof. reflexivity. Qed.

Lemma search_axes_wrong_dimension :
  search [1; 0]%float 1 None axesStore = inr (QueryDimensionsMismatch 3 2).
Proof. reflexivity. Qed.

Lemma upsert_overwrites_sample :
  let st := fst (upsert [sampleDoc "a" [1; 0; 0]%float "updated"] axesStore) in
  JSMap.get String.eqb "a"%string (_documents st)
  = Some (sampleDoc "a" [1; 0; 0]%float "updated")
  /\ count st = 2%nat.
Proof. split; reflexivity. Qed.

(** Doubles are not the real numbers: the similarity of a vector with
    itself need not be 1. *)
Lemma cosineValue_self_rounded :
  cosineValue [0.5; 0.25]%float [0.5; 0.25]%float <> 1%float.
Proof. vm_compute. intros H. discriminate H. Qed.



(** With a zero norm on one side and an infinite norm on the other the
    similarity is [NaN], not 0. *)
Lemma cosineSimilarity_zero_infinite :
  (norm [0%float] =? 0)%float = true
  /\ cosineSimilarity [0%float] [infinity] = inl nan.
Proof. split; reflexivity. Qed.




End VectorFacts.

Section UpsertFacts.
Import VectorStore.

Lemma insertAll_snoc pre d m :
  insertAll (pre ++ [d]) m = JSMap.set String.eqb (doc_id d) d (insertAll pre m).
Proof. unfold insertAll. now rewrite fold_left_app. Qed.

Lemma get_insertAll pre : forall m k,
  JSMap.get String.eqb k (insertAll pre m)
  = match find (fun d => String.eqb (doc_id d) k) (rev pre) with
    | Some d => Some d
    | None => JSMap.get String.eqb k m
    end.
Proof.
  induction pre as [|d pre IH] using rev_ind; intros m k; [reflexivity|].
  rewrite insertAll_snoc, rev_unit. simpl.
  destruct (String.eqb_spec (doc_id d) k) as [<-|N].
  - apply sget_set_same.
  - rewrite sget_set_other by congruence. apply IH.
Qed.

Lemma upsert_prefix pre : forall st rest,
  (forall d, In d pre -> List.length (embedding d) = dimensions st) ->
  upsert (pre ++ rest) st
  = upsert rest (mkStore (store_name st) (dimensions st)
                         (insertAll pre (_documents st))).
Proof.
  induction pre as [|d pre IH]; intros st rest H; simpl.
  - now destruct st.
  - rewrite (H d (or_introl eq_refl)), Nat.eqb_refl. simpl.
    rewrite IH; [reflexivity|].
    intros d' I. simpl. apply H. now right.
Qed.

Lemma NoDup_map_unique (A B : Type) (f : A -> B) (l : list A) a b :
  NoDup (map f l) -> In a l -> In b l -> f a = f b -> a = b.
Proof.
  induction l as [|x l IH]; simpl; [tauto|].
  intros Hnd Ia Ib E. inversion Hnd as [|? ? Hn Hr]; subst.
  destruct Ia as [->|Ia], Ib as [->|Ib]; auto.
  - exfalso. apply Hn. rewrite E. now apply in_map.
  - exfalso. apply Hn. rewrite <- E. now apply in_map.
Qed.

(** C10.  When the first document of a batch whose embedding length
    differs from the store's dimensionality stands at position [k],
    [upsert] throws the dimension error, and the store then holds
    exactly what setting the [k] documents before it produces: each of
    their ids is retrievable and maps to the last document of the prefix
    carrying that id, which is the document itself when the ids of the
    prefix are distinct.  Nothing is rolled back. *)
Theorem upsert_not_atomic st pre bad post :
  (forall d, In d pre -> List.length (embedding d) = dimensions st) ->
  List.length (embedding bad) <> dimensions st ->
  snd (upsert (pre ++ bad :: post) st)
  = inr (EmbeddingDimensionsMismatch (dimensions st) (List.length (embedding bad)))
  /\ _documents (fst (upsert (pre ++ bad :: post) st))
     = insertAll pre (_documents st)
  /\ (forall d, In d pre ->
        exists d', In d' pre /\ doc_id d' = doc_id d
                   /\ JSMap.get String.eqb (doc_id d)
                                (_documents (fst (upsert (pre ++ bad :: post) st)))
                      = Some d')
  /\ (NoDup (map doc_id pre) ->
      forall d, In d pre ->
        JSMap.get String.eqb (doc_id d)
                  (_documents (fst (upsert (pre ++ bad :: post) st)))
        = Some d).
Proof.
  intros Hpre Hbad.
  rewrite (upsert_prefix pre st (bad :: post) Hpre). simpl.
  destruct (Nat.eqb_spec (List.length (embedding bad)) (dimensions st));
    [contradiction|]. simpl.
  split; [reflexivity|]. split; [reflexivity|].
  assert (G : forall d, In d pre ->
            exists d', In d' pre /\ doc_id d' = doc_id d
                       /\ JSMap.get String.eqb (doc_id d)
                                    (insertAll pre (_documents st)) = Some d').
  { intros d I. rewrite get_insertAll.
    destruct (find (fun d0 => String.eqb (doc_id d0) (doc_id d)) (rev pre))
      as [d'|] eqn:F.
    - apply find_some in F as [I' E]. apply String.eqb_eq in E.
      exists d'. split; [now apply in_rev|]. auto.
    - exfalso. apply in_rev in I. apply (find_none _ _ F d) in I.
      rewrite String.eqb_refl in I. discriminate. }
  split; [exact G|].
  intros Hnd d I. destruct (G d I) as (d' & I' & E & ->).
  f_equal. eapply NoDup_map_unique; eauto.
Qed.

Lemma upsert_not_atomic_witness :
  snd (upsert ([sampleDoc "a" [1; 0; 0]%float "doc a"] ++
               sampleDoc "b" [1; 0]%float "doc b" :: [sampleDoc "c" [0; 0; 1]%float "doc c"])
              (newStore "test" 3))
  = inr (EmbeddingDimensionsMismatch 3 2)
  /\ _documents (fst (upsert ([sampleDoc "a" [1; 0; 0]%float "doc a"] ++
                              sampleDoc "b" [1; 0]%float "doc b"
                              :: [sampleDoc "c" [0; 0; 1]%float "doc c"])
                             (newStore "test" 3)))
     = insertAll [sampleDoc "a" [1; 0; 0]%float "doc a"] (JSMap.empty _ _)
  /\ (forall d, In d [sampleDoc "a" [1; 0; 0]%float "doc a"] ->
        exists d', In d' [sampleDoc "a" [1; 0; 0]%float "doc a"]
                   /\ doc_id d' = doc_id d
                   /\ JSMap.get String.eqb (doc_id d)
                        (_documents
                           (fst (upsert ([sampleDoc "a" [1; 0; 0]%float "doc a"] ++
                                         sampleDoc "b" [1; 0]%float "doc b"
                                         :: [sampleDoc "c" [0; 0; 1]%float "doc c"])
                                        (newStore "test" 3))))
                      = Some d')
  /\ (NoDup (map doc_id [sampleDoc "a" [1; 0; 0]%float "doc a"]) ->
      forall d, In d [sampleDoc "a" [1; 0; 0]%float "doc a"] ->
        JSMap.get String.eqb (doc_id d)
                  (_documents
                     (fst (upsert ([sampleDoc "a" [1; 0; 0]%float "doc a"] ++
                                   sampleDoc "b" [1; 0]%float "doc b"
                                   :: [sampleDoc "c" [0; 0; 1]%float "doc c"])
                                  (newStore "test" 3))))
        = Some d).
Proof.
  apply (upsert_not_atomic (newStore "test" 3)
           [sampleDoc "a" [1; 0; 0]%float "doc a"]
           (sampleDoc "b" [1; 0]%float "doc b")
           [sampleDoc "c" [0; 0; 1]%float "doc c"]).
  - intros d [<-|[]]. reflexivity.
  - simpl. discriminate.
Defined.

End UpsertFacts.

(** ** Context assembly *)

Section ContextFacts.
Import Utils Context.
Local Open Scope Z_scope.

Lemma estimateTokens_nonneg s : 0 <= estimateTokens s.
Proof.
  unfold estimateTokens. destruct (String.eqb s ""); [lia|].
  apply Z.div_pos; lia.
Qed.

Lemma selectLoop_prefix chunks budget : forall used,
  exists n,
    selectLoop chunks budget used = firstn n chunks
    /\ (n <= List.length chunks)%nat
    /\ (forall m, (0 < m <= n)%nat ->
                  used + totalTokens (firstn m chunks) <= budget)
    /\ ((n < List.length chunks)%nat ->
        used + totalTokens (firstn (S n) chunks) > budget).
Proof.
  induction chunks as [|chunk rest IH]; intros used.
  - exists 0%nat. simpl. split; [reflexivity|]. split; [lia|].
    split; [intros m Hm; lia | intros H; lia].
  - simpl. destruct (Z.gtb_spec (used + estimateTokens chunk) budget) as [Hgt|Hle].
    + exists 0%nat. simpl. split; [reflexivity|]. split; [lia|].
      split; [intros m Hm; lia | intros _; lia].
    + destruct (IH (used + estimateTokens chunk)) as (n & E & Hn & Hfit & Hnext).
      exists (S n). simpl. rewrite E.
      split; [reflexivity|]. split; [lia|]. split.
      * intros [|m] Hm; [lia|]. simpl.
        destruct m as [|m].
        -- simpl. lia.
        -- specialize (Hfit (S m)). simpl in Hfit |- *. lia.
      * intros Hlt. specialize (Hnext ltac:(lia)). simpl in Hnext |- *. lia.
Qed.

(** C8.  The retrieved-knowledge text is built under the sub-budget
    [min(4000, floor(0.4 * remaining))], where [remaining] is the token
    budget less the estimates of the system prompt and of the scene
    summary, and it is the join of a prefix of the ranked chunks: the
    longest prefix all of whose non-empty initial parts fit the
    sub-budget.  Selection stops at the first chunk that would exceed
    the sub-budget, so no later chunk is selected, whatever its size. *)
Theorem rag_greedy_prefix (rt : Retrieval) (contents : list string)
        (tokenBudget : Z) (sceneContext : string) (systemPrompt : option string) :
  (0 < store_count rt)%nat ->
  ranked rt = Some contents ->
  let system := match systemPrompt with Some p => p | None => defaultSystemPrompt end in
  let remaining := tokenBudget - (estimateTokens system + estimateTokens sceneContext) in
  let ragBudget := ragBudgetOf tokenBudget
                     (estimateTokens system + estimateTokens sceneContext) in
  let ragContext := ragContextOf rt tokenBudget
                      (estimateTokens system + estimateTokens sceneContext) in
  (exists b, ragBudget = Z.min 4000 b /\ 5 * b <= 2 * remaining < 5 * b + 5)
  /\ (exists n,
       ragContext = join chunkSeparator (firstn n contents)
       /\ (n <= List.length contents)%nat
       /\ (forall m, (0 < m <= n)%nat ->
                     totalTokens (firstn m contents) <= ragBudget)
       /\ ((n < List.length contents)%nat ->
           totalTokens (firstn (S n) contents) > ragBudget))
  /\ (forall query history,
         last (buildContext rt query history sceneContext tokenBudget systemPrompt)
              (mkMessage role_user [])
         = mkMessage role_user
             ((if nonEmpty sceneContext
               then [TextPart ("Scene:" ++ String "010" sceneContext)] else [])
              ++ (if nonEmpty ragContext
                  then [TextPart ("Relevant context:" ++ String "010" ragContext)]
                  else [])
              ++ [TextPart query])).
Proof.
  intros Hcount Hranked system remaining ragBudget ragContext.
  split; [|split].
  - exists (remaining * 2 / 5). split; [reflexivity|].
    pose proof (Z.div_mod (remaining * 2) 5 ltac:(lia)) as D.
    pose proof (Z.mod_pos_bound (remaining * 2) 5 ltac:(lia)) as B.
    lia.
  - unfold ragContext, ragContextOf. rewrite Hranked.
    assert (L : Nat.ltb 0 (store_count rt) = true) by now apply Nat.ltb_lt.
    rewrite L. unfold selectChunks. fold ragBudget.
    destruct (selectLoop_prefix contents ragBudget 0) as (n & E & Hn & Hfit & Hnext).
    exists n. rewrite E. split; [reflexivity|]. split; [exact Hn|]. split.
    + intros m Hm. specialize (Hfit m Hm). lia.
    + intros Hlt. specialize (Hnext Hlt). lia.
  - intros query history. unfold buildContext. cbv zeta.
    fold system. fold ragContext.
    rewrite app_assoc. apply last_last.
Qed.

(** With a sub-budget of 5 tokens the first chunk (2 tokens) is taken,
    the second (10 tokens) stops the selection, and the third (1 token)
    is not taken although it would fit. *)
Lemma ragContextOf_sample :
  ragBudgetOf 14 1 = 5
  /\ ragContextOf sampleRetrieval 14 1 = "aaaaaaaa"%string.
Proof. split; reflexivity. Qed.

Lemma rag_greedy_prefix_witness :
  (exists b, ragBudgetOf 14 (estimateTokens "sys" + estimateTokens "")
             = Z.min 4000 b
             /\ 5 * b <= 2 * (14 - (estimateTokens "sys" + estimateTokens ""))
                < 5 * b + 5)
  /\ (exists n,
       ragContextOf sampleRetrieval 14 (estimateTokens "sys" + estimateTokens "")
       = join chunkSeparator (firstn n sampleRanked)
       /\ (n <= List.length sampleRanked)%nat
       /\ (forall m, (0 < m <= n)%nat ->
                     totalTokens (firstn m sampleRanked)
                     <= ragBudgetOf 14 (estimateTokens "sys" + estimateTokens ""))
       /\ ((n < List.length sampleRanked)%nat ->
           totalTokens (firstn (S n) sampleRanked)
           > ragBudgetOf 14 (estimateTokens "sys" + estimateTokens "")))
  /\ (forall query history,
         last (buildContext sampleRetrieval query history "" 14 (Some "sys"%string))
              (mkMessage role_user [])
         = mkMessage role_user
             ((if nonEmpty "" then [TextPart ("Scene:" ++ String "010" "")] else [])
              ++ (if nonEmpty (ragContextOf sampleRetrieval 14
                                 (estimateTokens "sys" + estimateTokens ""))
                  then [TextPart ("Relevant context:"
                                  ++ String "010"
                                       (ragContextOf sampleRetrieval 14
                                          (estimateTokens "sys" + estimateTokens "")))]
                  else [])
              ++ [TextPart query])).
Proof.
  apply (rag_greedy_prefix sampleRetrieval sampleRanked 14 "" (Some "sys"%string)).
  - simpl. lia.
  - reflexivity.
Defined.

(** The whole message list for the sample: system prompt, no history,
    and the user message carrying the selected chunk and the query. *)
Lemma buildContext_sample :
  buildContext sampleRetrieval "Create a cube" [] "" 14 (Some "sys"%string)
  = [mkMessage role_system [TextPart "sys"];
     mkMessage role_user
       [TextPart ("Relevant context:" ++ String "010" "aaaaaaaa");
        TextPart "Create a cube"]].
Proof. reflexivity. Qed.

End ContextFacts.

(** ** Chunking *)

Section ChunkFacts.
Import Utils.

Lemma nonEmpty_false s : nonEmpty s = false -> s = EmptyString.
Proof.
  unfold nonEmpty. destruct (String.eqb_spec s ""); [auto | discriminate].
Qed.

Lemma nonEmpty_app_r a b : nonEmpty b = true -> nonEmpty (a ++ b) = true.
Proof. destruct a; [auto | reflexivity]. Qed.

Lemma join_snoc sep l x :
  join sep (l ++ [x])
  = match l with [] => x | _ => (join sep l ++ sep ++ x)%string end.
Proof.
  induction l as [|a l IH]; [reflexivity|].
  destruct l as [|b l].
  - reflexivity.
  - change (join sep ((a :: b :: l) ++ [x]))
      with (a ++ sep ++ join sep ((b :: l) ++ [x]))%string.
    rewrite IH.
    change (join sep (a :: b :: l)) with (a ++ sep ++ join sep (b :: l))%string.
    now rewrite !string_app_assoc.
Qed.

Lemma pendingChunks_nonEmpty chunks current :
  Forall (fun c => nonEmpty c = true) chunks ->
  Forall (fun c => nonEmpty c = true) (pendingChunks chunks current).
Proof.
  intros H. unfold pendingChunks. destruct (nonEmpty current) eqn:E; [|exact H].
  apply Forall_app. split; [exact H | now constructor].
Qed.

Lemma paragraphLoop_cons para rest maxTokens overlap chunks current :
  paragraphLoop (para :: rest) maxTokens overlap chunks current
  = if negb (nonEmpty (trim para))
    then paragraphLoop rest maxTokens overlap chunks current
    else if (estimateTokens (current ++ blankLine ++ trim para) <=? maxTokens)%Z
    then paragraphLoop rest maxTokens overlap chunks
                       (if nonEmpty current
                        then current ++ blankLine ++ trim para
                        else trim para)
    else
      if (estimateTokens (trim para) >? maxTokens)%Z
      then
        match sentenceLoop (sentencesOf (trim para)) maxTokens overlap
                           (pendingChunks chunks current) "" with
        | None => None
        | Some (chunks2, sentenceChunk) =>
            paragraphLoop rest maxTokens overlap
                          (if nonEmpty sentenceChunk
                           then chunks2 ++ [trim sentenceChunk]
                           else chunks2) ""
        end
      else paragraphLoop rest maxTokens overlap
                         (pendingChunks chunks current) (trim para).
Proof. reflexivity. Qed.

(** The paragraph loop when every paragraph fits in [maxTokens]: the
    chunks joined by blank lines are the paragraphs joined by blank
    lines. *)
Lemma paragraphLoop_fitting maxTokens overlap pieces :
  forall chunks current done_,
    (forall p, In p (filter nonEmpty (map trim pieces)) ->
               (estimateTokens p <= maxTokens)%Z) ->
    Forall (fun c => nonEmpty c = true) chunks ->
    join blankLine (pendingChunks chunks current) = join blankLine done_ ->
    (pendingChunks chunks current = [] <-> done_ = []) ->
    exists chunks' current',
      paragraphLoop pieces maxTokens overlap chunks current = Some (chunks', current')
      /\ Forall (fun c => nonEmpty c = true) chunks'
      /\ join blankLine (pendingChunks chunks' current')
         = join blankLine (done_ ++ filter nonEmpty (map trim pieces)).
Proof.
  induction pieces as [|para pieces IH]; intros chunks current done_ Hfit Hne Hj He.
  - exists chunks, current. simpl. rewrite app_nil_r. auto.
  - rewrite paragraphLoop_cons. simpl in Hfit.
    destruct (nonEmpty (trim para)) eqn:Et; cbn [negb filter map];
      rewrite ?Et; cbn [negb].
    2:{ apply IH; auto. }
    assert (Hstep : forall chunks1 current1,
              Forall (fun c => nonEmpty c = true) chunks1 ->
              join blankLine (pendingChunks chunks1 current1)
              = join blankLine (pendingChunks chunks current ++ [trim para]) ->
              pendingChunks chunks1 current1 <> [] ->
              exists chunks' current',
                paragraphLoop pieces maxTokens overlap chunks1 current1
                = Some (chunks', current')
                /\ Forall (fun c => nonEmpty c = true) chunks'
                /\ join blankLine (pendingChunks chunks' current')
                   = join blankLine (done_ ++ trim para
                                       :: filter nonEmpty (map trim pieces))).
    { intros chunks1 current1 Hne1 Hj1 Hn1.
      destruct (IH chunks1 current1 (done_ ++ [trim para])) as (c' & cur' & E & F & J).
      - intros p I. apply Hfit. now right.
      - exact Hne1.
      - rewrite Hj1, !join_snoc.
        destruct (pendingChunks chunks current) eqn:Ep.
        + destruct He as [He _]. now rewrite (He eq_refl).
        + destruct done_ as [|d ds];
            [destruct He as [_ He]; discriminate (He eq_refl)|].
          now rewrite Hj.
      - split; [intros Q; contradiction | intros Q; destruct done_; discriminate].
      - exists c', cur'. split; [exact E|]. split; [exact F|].
        now rewrite <- app_assoc in J. }
    destruct (Z.leb_spec (estimateTokens (current ++ blankLine ++ trim para))
                         maxTokens) as [Hle|Hgt].
    + (* the paragraph joins the open chunk *)
      apply Hstep; [exact Hne| |].
      * unfold pendingChunks.
        destruct (nonEmpty current) eqn:Ec.
        -- rewrite (nonEmpty_app_r current (blankLine ++ trim para));
             [|now apply nonEmpty_app_r].
           rewrite !join_snoc.
           destruct chunks as [|c cs]; [reflexivity|].
           cbn [app]. now rewrite !string_app_assoc.
        -- now rewrite Et.
      * unfold pendingChunks.
        destruct (nonEmpty current) eqn:Ec.
        -- rewrite (nonEmpty_app_r current (blankLine ++ trim para));
             [|now apply nonEmpty_app_r].
           intros Q. apply app_eq_nil in Q as [_ Q]. discriminate.
        -- rewrite Et. intros Q. apply app_eq_nil in Q as [_ Q]. discriminate.
    + (* the open chunk is closed and the paragraph opens the next one *)
      assert (Hf : (estimateTokens (trim para) >? maxTokens)%Z = false).
      { rewrite Z.gtb_ltb. apply Z.ltb_ge. apply Hfit. now left. }
      rewrite Hf.
      apply Hstep.
      * apply pendingChunks_nonEmpty with (current := current) in Hne.
        exact Hne.
      * unfold pendingChunks at 1. rewrite Et. reflexivity.
      * unfold pendingChunks at 1. rewrite Et.
        intros Q. apply app_eq_nil in Q as [_ Q]. discriminate.
Qed.

Lemma filter_all_true (A : Type) (f : A -> bool) (l : list A) :
  Forall (fun x => f x = true) l -> filter f l = l.
Proof.
  induction 1 as [|x l Hx _ IH]; simpl; [reflexivity|]. now rewrite Hx, IH.
Qed.

Lemma chunkText_fitting text maxTokens overlap :
  (forall p, In p (paragraphsOf text) -> (estimateTokens p <= maxTokens)%Z) ->
  exists chunks,
    chunkText text maxTokens overlap = Some chunks
    /\ join blankLine chunks = join blankLine (paragraphsOf text).
Proof.
  intros Hfit. unfold chunkText.
  destruct (nonEmpty text) eqn:Et; simpl.
  2:{ apply nonEmpty_false in Et. subst text. exists []. split; reflexivity. }
  destruct (paragraphLoop_fitting maxTokens overlap (splitParagraphs text) [] "" [])
    as (chunks & current & E & F & J); auto.
  { reflexivity. }
  rewrite E. eexists. split; [reflexivity|].
  fold (pendingChunks chunks current).
  rewrite filter_all_true by now apply pendingChunks_nonEmpty.
  exact J.
Qed.

End ChunkFacts.

Section ChunkWhitespaceFacts.
Import Utils.

Lemma list_ascii_app (a b : string) :
  list_ascii_of_string (a ++ b)
  = list_ascii_of_string a ++ list_ascii_of_string b.
Proof. induction a as [|c a IH]; simpl; [reflexivity | now rewrite IH]. Qed.

Lemma withoutSpaces_app (a b : string) :
  withoutSpaces (a ++ b) = withoutSpaces a ++ withoutSpaces b.
Proof. unfold withoutSpaces. now rewrite list_ascii_app, filter_app. Qed.

Lemma filter_dropSpaces (l : list ascii) :
  filter (fun c => negb (isSpace c)) (dropSpaces l)
  = filter (fun c => negb (isSpace c)) l.
Proof.
  induction l as [|c l IH]; [reflexivity|].
  simpl. destruct (isSpace c) eqn:E; simpl; [exact IH | now rewrite E].
Qed.

Lemma withoutSpaces_trim (s : string) : withoutSpaces (trim s) = withoutSpaces s.
Proof.
  unfold withoutSpaces, trim.
  rewrite list_ascii_of_string_of_list_ascii.
  rewrite filter_rev, filter_dropSpaces, filter_rev, rev_involutive.
  apply filter_dropSpaces.
Qed.

Lemma withoutSpaces_blankLine : withoutSpaces blankLine = [].
Proof. reflexivity. Qed.

Lemma concatAll_app (l1 l2 : list string) :
  concatAll (l1 ++ l2) = (concatAll l1 ++ concatAll l2)%string.
Proof.
  unfold concatAll. induction l1 as [|a l1 IH]; simpl; [reflexivity|].
  now rewrite IH, string_app_assoc.
Qed.

Lemma concatAll_snoc (l : list string) (x : string) :
  concatAll (l ++ [x]) = (concatAll l ++ x)%string.
Proof. rewrite concatAll_app. simpl. now rewrite string_app_nil_r. Qed.

Lemma concatAll_filter (l : list string) :
  concatAll (filter nonEmpty l) = concatAll l.
Proof.
  induction l as [|a l IH]; [reflexivity|]. simpl.
  destruct (nonEmpty a) eqn:E; simpl; [now rewrite IH|].
  apply nonEmpty_false in E. subst a. exact IH.
Qed.

Lemma withoutSpaces_pending chunks current :
  withoutSpaces (concatAll (pendingChunks chunks current))
  = withoutSpaces (concatAll chunks ++ current).
Proof.
  unfold pendingChunks. destruct (nonEmpty current) eqn:E.
  - now rewrite concatAll_snoc.
  - apply nonEmpty_false in E. subst current. now rewrite string_app_nil_r.
Qed.

Lemma sentenceLoop_cons sentence rest maxTokens overlap chunks sentenceChunk :
  sentenceLoop (sentence :: rest) maxTokens overlap chunks sentenceChunk
  = if (estimateTokens (sentenceChunk ++ sentence) <=? maxTokens)%Z
    then sentenceLoop rest maxTokens overlap chunks (sentenceChunk ++ sentence)
    else
      if (Z.of_nat (String.length sentence) >? maxTokens * 4)%Z
      then
        match sliceLoop (S (String.length sentence)) sentence
                        (maxTokens * 4) (maxTokens * 4 - overlap * 4) 0
                        (if nonEmpty sentenceChunk
                         then chunks ++ [trim sentenceChunk] else chunks) with
        | None => None
        | Some chunks2 => sentenceLoop rest maxTokens overlap chunks2 ""
        end
      else sentenceLoop rest maxTokens overlap
                        (if nonEmpty sentenceChunk
                         then chunks ++ [trim sentenceChunk] else chunks)
                        sentence.
Proof. reflexivity. Qed.

(** The sentence loop when no sentence needs cutting by characters. *)
Lemma sentenceLoop_whole maxTokens overlap sentences :
  forall chunks sentenceChunk,
    (forall s, In s sentences ->
               (Z.of_nat (String.length s) <= maxTokens * 4)%Z) ->
    exists chunks' sentenceChunk',
      sentenceLoop sentences maxTokens overlap chunks sentenceChunk
      = Some (chunks', sentenceChunk')
      /\ withoutSpaces (concatAll chunks' ++ sentenceChunk')
         = withoutSpaces (concatAll chunks ++ sentenceChunk ++ concatAll sentences).
Proof.
  induction sentences as [|s rest IH]; intros chunks sc Hlen.
  - exists chunks, sc. split; [reflexivity|].
    change (concatAll []) with EmptyString. now rewrite string_app_nil_r.
  - rewrite sentenceLoop_cons.
    assert (Hrest : forall x, In x rest ->
                              (Z.of_nat (String.length x) <= maxTokens * 4)%Z).
    { intros x I. apply Hlen. now right. }
    change (concatAll (s :: rest)) with (s ++ concatAll rest)%string.
    destruct (estimateTokens (sc ++ s) <=? maxTokens)%Z.
    + destruct (IH chunks (sc ++ s)%string Hrest) as (c' & sc' & E & W).
      exists c', sc'. split; [exact E|]. now rewrite W, !string_app_assoc.
    + assert (Hs : (Z.of_nat (String.length s) >? maxTokens * 4)%Z = false).
      { rewrite Z.gtb_ltb. apply Z.ltb_ge. apply Hlen. now left. }
      rewrite Hs.
      destruct (IH (if nonEmpty sc then chunks ++ [trim sc] else chunks) s Hrest)
        as (c' & sc' & E & W).
      exists c', sc'. split; [exact E|]. rewrite W.
      rewrite !withoutSpaces_app.
      rewrite (app_assoc (withoutSpaces (concatAll chunks))). f_equal.
      destruct (nonEmpty sc) eqn:Esc.
      * rewrite concatAll_snoc, !withoutSpaces_app. now rewrite withoutSpaces_trim.
      * apply nonEmpty_false in Esc. subst sc. simpl. now rewrite app_nil_r.
Qed.

Lemma paragraphLoop_whole maxTokens overlap pieces :
  forall chunks current done_,
    (forall p, In p (filter nonEmpty (map trim pieces)) -> handledWhole maxTokens p) ->
    withoutSpaces (concatAll (pendingChunks chunks current))
    = withoutSpaces (concatAll done_) ->
    exists chunks' current',
      paragraphLoop pieces maxTokens overlap chunks current = Some (chunks', current')
      /\ withoutSpaces (concatAll (pendingChunks chunks' current'))
         = withoutSpaces (concatAll (done_ ++ filter nonEmpty (map trim pieces))).
Proof.
  induction pieces as [|para pieces IH]; intros chunks current done_ Hcond Hw.
  - exists chunks, current. simpl. rewrite app_nil_r. auto.
  - rewrite paragraphLoop_cons. simpl in Hcond.
    destruct (nonEmpty (trim para)) eqn:Et; cbn [negb filter map];
      rewrite ?Et; cbn [negb].
    2:{ apply IH; auto. }
    assert (Hstep : forall chunks1 current1,
              withoutSpaces (concatAll (pendingChunks chunks1 current1))
              = withoutSpaces (concatAll (pendingChunks chunks current))
                  ++ withoutSpaces (trim para) ->
              exists chunks' current',
                paragraphLoop pieces maxTokens overlap chunks1 current1
                = Some (chunks', current')
                /\ withoutSpaces (concatAll (pendingChunks chunks' current'))
                   = withoutSpaces
                       (concatAll (done_ ++ trim para
                                     :: filter nonEmpty (map trim pieces)))).
    { intros chunks1 current1 Hw1.
      destruct (IH chunks1 current1 (done_ ++ [trim para])) as (c' & cur' & E & W).
      - intros p I. apply Hcond. now right.
      - rewrite Hw1, Hw, concatAll_snoc, withoutSpaces_app. reflexivity.
      - exists c', cur'. split; [exact E|]. now rewrite <- app_assoc in W. }
    destruct (estimateTokens (current ++ blankLine ++ trim para) <=? maxTokens)%Z.
    + apply Hstep. rewrite !withoutSpaces_pending.
      destruct (nonEmpty current) eqn:Ec.
      * rewrite !withoutSpaces_app, withoutSpaces_blankLine.
        now rewrite <- app_assoc.
      * apply nonEmpty_false in Ec. subst current.
        now rewrite string_app_nil_r, withoutSpaces_app.
    + destruct (estimateTokens (trim para) >? maxTokens)%Z eqn:Eg.
      * destruct (Hcond (trim para) (or_introl eq_refl)) as [Hle|[Hcover Hlen]].
        { rewrite Z.gtb_ltb in Eg. apply Z.ltb_lt in Eg. lia. }
        destruct (sentenceLoop_whole maxTokens overlap (sentencesOf (trim para))
                    (pendingChunks chunks current) "" Hlen)
          as (chunks2 & sc & E & W).
        rewrite E. rewrite Hcover in W. simpl in W.
        assert (Hw1 :
          withoutSpaces (concatAll (pendingChunks
                                      (if nonEmpty sc then chunks2 ++ [trim sc]
                                       else chunks2) ""))
          = withoutSpaces (concatAll (pendingChunks chunks current))
              ++ withoutSpaces (trim para)).
        { rewrite withoutSpaces_pending, string_app_nil_r, <- withoutSpaces_app, <- W.
          destruct (nonEmpty sc) eqn:Esc.
          - rewrite concatAll_snoc, !withoutSpaces_app. now rewrite withoutSpaces_trim.
          - apply nonEmpty_false in Esc. subst sc. now rewrite string_app_nil_r. }
        exact (Hstep _ _ Hw1).
      * apply Hstep. unfold pendingChunks at 1. rewrite Et.
        now rewrite concatAll_snoc, withoutSpaces_app.
Qed.

Lemma chunkText_whole text maxTokens overlap :
  (forall p, In p (paragraphsOf text) -> handledWhole maxTokens p) ->
  exists chunks,
    chunkText text maxTokens overlap = Some chunks
    /\ reconstructs chunks (paragraphsOf text).
Proof.
  intros Hcond. unfold chunkText, reconstructs.
  destruct (nonEmpty text) eqn:Et; simpl.
  2:{ apply nonEmpty_false in Et. subst text. exists []. split; reflexivity. }
  destruct (paragraphLoop_whole maxTokens overlap (splitParagraphs text) [] "" [])
    as (chunks & current & E & W); auto.
  rewrite E. eexists. split; [reflexivity|].
  fold (pendingChunks chunks current). rewrite concatAll_filter. exact W.
Qed.

End ChunkWhitespaceFacts.

Section ChunkTheorems.
Import Utils.

(** The character loop with an overlap repeats text: a 13-unit sentence
    cut with [maxTokens = 2] and [overlap = 1]. *)
Lemma chunkText_overlap_sample :
  chunkText "abcdefghijkl." 2 1
  = Some ["abcdefgh"; "efghijkl"; "ijkl."; "."]%string.
Proof. reflexivity. Qed.

(** Text after the last sentence mark of a paragraph that is too long
    does not reach any chunk. *)
Lemma chunkText_unterminated_sample :
  chunkText "aaaa. bbbbbbbb" 2 0 = Some ["aaaa."%string].
Proof. reflexivity. Qed.

(** With an overlap as large as the chunk size the character loop does
    not end. *)
Lemma chunkText_no_progress_sample :
  chunkText "abcdefghijkl." 2 2 = None.
Proof. reflexivity. Qed.

(** C9, as stated, fails: chunks cut by characters overlap, so their
    concatenation repeats text of the paragraph. *)
Lemma chunkText_reconstruction_counterexample : ~ chunkText_reconstructs_always.
Proof.
  intros H.
  destruct (H "abcdefghijkl."%string 2%Z 1%Z) as (chunks & E & R); [discriminate|].
  rewrite chunkText_overlap_sample in E. injection E as <-.
  vm_compute in R. discriminate R.
Qed.

(** C9 (amended).  [estimateTokens] of the empty string is 0 and
    [chunkText] of the empty string is the empty sequence.  For a text
    each of whose paragraphs either fits in [maxTokens] or is cut at
    sentence boundaries only (its sentences cover it and none is longer
    than [4 * maxTokens] code units), [chunkText] returns and the chunks
    concatenated in output order hold the paragraphs in their original
    order, up to white space.  When every paragraph fits in [maxTokens],
    the chunks joined by blank lines are exactly the paragraphs joined by
    blank lines. *)
Theorem chunkText_contract :
  estimateTokens "" = 0%Z
  /\ (forall maxTokens overlap, chunkText "" maxTokens overlap = Some [])
  /\ (forall text maxTokens overlap,
         (forall p, In p (paragraphsOf text) -> handledWhole maxTokens p) ->
         exists chunks,
           chunkText text maxTokens overlap = Some chunks
           /\ reconstructs chunks (paragraphsOf text))
  /\ (forall text maxTokens overlap,
         (forall p, In p (paragraphsOf text) ->
                    (estimateTokens p <= maxTokens)%Z) ->
         exists chunks,
           chunkText text maxTokens overlap = Some chunks
           /\ join blankLine chunks = join blankLine (paragraphsOf text)).
Proof.
  split; [reflexivity|]. split; [reflexivity|]. split.
  - apply chunkText_whole.
  - apply chunkText_fitting.
Qed.

(** The cases of the test suite. *)
Lemma chunkText_short : chunkText "Hello world" 100 10 = Some ["Hello world"%string].
Proof. reflexivity. Qed.

Lemma estimateTokens_hello : estimateTokens "hello" = 2%Z.
Proof. reflexivity. Qed.

(** A paragraph too long for one chunk and cut between its sentences. *)
Lemma chunkText_sentences_sample :
  chunkText "aaaa. bbbb." 2 0 = Some ["aaaa."; "bbbb."]%string
  /\ handledWhole 2 "aaaa. bbbb."
  /\ reconstructs ["aaaa."; "bbbb."]%string (paragraphsOf "aaaa. bbbb.").
Proof.
  split; [reflexivity|]. split; [|reflexivity].
  right. split; [reflexivity|].
  intros s [<-|[<-|[]]]; vm_compute; discriminate.
Qed.

End ChunkTheorems.

(* ================================================================== *)
(** * Part III: further properties of the code *)
(* ================================================================== *)

(** ** Listeners and state payloads of the workflow machine *)

Section WorkflowListeners.
Import Workflow WorkflowRuns.

Lemma call_notified o m m' :
  call o m = inl m' ->
  _listeners m' = _listeners m
  /\ notified m'
     = notified m
         ++ (if isAnswer o then []
             else map (fun l => (l, _state m')) (_listeners m)).
Proof.
  intros H.
  destruct o; cbn [call isAnswer] in *;
    unfold startAnalysis, requestClarification, answerQuestion, startPlanning,
      awaitApproval, startExecution, advanceStep, complete, setError, reset,
      assertPhase, phase in H;
    destruct (_state m); simpl in H; try discriminate H;
    injection H as <-; simpl; rewrite ?app_nil_r; auto.
Qed.

(** X1.  A successful operation leaves the list of listeners as it was.
    Unless it is [answerQuestion], it calls every registered listener
    once, in registration order, with the new state; [answerQuestion]
    calls nobody. *)
Theorem transition_notifies_in_order o m m' :
  call o m = inl m' ->
  _listeners m' = _listeners m
  /\ notified m'
     = notified m
         ++ (if isAnswer o then []
             else map (fun l => (l, _state m')) (_listeners m)).
Proof. apply call_notified. Qed.

Lemma transition_notifies_in_order_witness :
  _listeners (transition (St_analyzing "Make a cube")
                         (onStateChange 2 (onStateChange 1 init)))
  = _listeners (onStateChange 2 (onStateChange 1 init))
  /\ notified (transition (St_analyzing "Make a cube")
                          (onStateChange 2 (onStateChange 1 init)))
     = notified (onStateChange 2 (onStateChange 1 init))
         ++ (if isAnswer (op_startAnalysis "Make a cube") then []
             else map (fun l => (l, _state (transition (St_analyzing "Make a cube")
                                              (onStateChange 2 (onStateChange 1 init)))))
                      (_listeners (onStateChange 2 (onStateChange 1 init)))).
Proof.
  apply (transition_notifies_in_order (op_startAnalysis "Make a cube")
           (onStateChange 2 (onStateChange 1 init))).
  reflexivity.
Defined.

Lemma heardBy_app l m extra :
  map snd (filter (fun x => Nat.eqb (fst x) l) (notified m ++ extra))
  = heardBy l m ++ map snd (filter (fun x => Nat.eqb (fst x) l) extra).
Proof. unfold heardBy. now rewrite filter_app, map_app. Qed.

Lemma not_listening_silent l (st : WorkflowState) ls :
  ~ In l ls ->
  filter (fun x : nat * WorkflowState => Nat.eqb (fst x) l)
         (map (fun l' => (l', st)) ls) = [].
Proof.
  induction ls as [|a ls IH]; intros H; simpl; [reflexivity|].
  destruct (Nat.eqb_spec a l) as [->|_].
  - exfalso. apply H. now left.
  - apply IH. intros I. apply H. now right.
Qed.

Lemma act_silent l m a :
  ~ In l (_listeners m) -> subscribes l a = false ->
  ~ In l (_listeners (act m a)) /\ heardBy l (act m a) = heardBy l m.
Proof.
  intros Hn Hs. destruct a as [o|l'|l']; simpl.
  - destruct (call o m) as [m'|e] eqn:E; [|auto].
    destruct (call_notified o m m' E) as [L N].
    rewrite L. split; [exact Hn|].
    unfold heardBy at 1. rewrite N, heardBy_app.
    destruct (isAnswer o); simpl; [now rewrite app_nil_r|].
    rewrite (not_listening_silent l (_state m') _ Hn). simpl.
    now rewrite app_nil_r.
  - split; [|reflexivity]. simpl in Hs.
    intros I. apply in_app_or in I as [I|[->|[]]]; [auto|].
    now rewrite Nat.eqb_refl in Hs.
  - split; [|reflexivity].
    intros I. apply filter_In in I as [I _]. auto.
Qed.

(** X2.  Once the handle returned for a listener has been called, the
    listener is called by no later transition, whatever operations
    follow and whoever else subscribes or unsubscribes, as long as the
    listener itself is not registered again.  One call of the handle
    removes every registration of the listener, also when it had been
    registered more than once. *)
Theorem unsubscribed_listener_is_silent l actions m :
  forallb (fun a => negb (subscribes l a)) actions = true ->
  ~ In l (_listeners (unsubscribe l m))
  /\ heardBy l (run actions (unsubscribe l m)) = heardBy l m.
Proof.
  intros Hact.
  assert (H0 : ~ In l (_listeners (unsubscribe l m))).
  { simpl. intros I. apply filter_In in I as [_ I].
    now rewrite Nat.eqb_refl in I. }
  split; [exact H0|].
  change (heardBy l m) with (heardBy l (unsubscribe l m)).
  revert Hact H0. generalize (unsubscribe l m) as m0. unfold run.
  induction actions as [|a actions IH]; intros m0 Hact H0; [reflexivity|].
  simpl in Hact. apply andb_prop in Hact as [Ha Hrest].
  apply negb_true_iff in Ha.
  destruct (act_silent l m0 a H0 Ha) as [H1 E1].
  simpl. rewrite (IH (act m0 a) Hrest H1). exact E1.
Qed.

Lemma unsubscribed_listener_is_silent_witness :
  ~ In 1 (_listeners (unsubscribe 1 (transition (St_analyzing "test")
                                       (onStateChange 1 (onStateChange 1 init)))))
  /\ heardBy 1 (run [a_call op_reset; a_subscribe 2; a_call (op_startAnalysis "again")]
                    (unsubscribe 1 (transition (St_analyzing "test")
                                      (onStateChange 1 (onStateChange 1 init)))))
     = heardBy 1 (transition (St_analyzing "test")
                             (onStateChange 1 (onStateChange 1 init))).
Proof.
  apply (unsubscribed_listener_is_silent 1
           [a_call op_reset; a_subscribe 2; a_call (op_startAnalysis "again")]).
  reflexivity.
Defined.

(** X3.  A successful [answerQuestion] happens in a [clarifying] state
    and changes nothing but the answer map: the answer is stored under
    the question id, replacing an earlier answer to the same question,
    and the answers to the other questions are kept. *)
Theorem answerQuestion_stores_answer q a m m' :
  call (op_answerQuestion q a) m = inl m' ->
  exists qs answers answers',
    _state m = St_clarifying qs answers
    /\ _state m' = St_clarifying qs answers'
    /\ JSMap.get String.eqb q answers' = Some a
    /\ forall q', q' <> q ->
                  JSMap.get String.eqb q' answers' = JSMap.get String.eqb q' answers.
Proof.
  cbn [call]. unfold answerQuestion.
  destruct (assertPhase "clarifying" m) as [[]|e] eqn:A; [|discriminate].
  unfold assertPhase, phase in A.
  destruct (_state m) as [| | qs ans | | | | |] eqn:S; try discriminate A.
  intros H. injection H as <-. simpl.
  exists qs, ans, (JSMap.set String.eqb q a ans).
  split; [reflexivity|]. split; [reflexivity|].
  split; [apply sget_set_same|].
  intros q' N. now apply sget_set_other.
Qed.

Lemma answerQuestion_stores_answer_witness :
  exists qs answers answers',
    _state (transition (St_clarifying [] [("q1", "old")]%string) init)
    = St_clarifying qs answers
    /\ _state (mkMachine (St_clarifying [] [("q1", "Sci-fi")]%string) [] [])
       = St_clarifying qs answers'
    /\ JSMap.get String.eqb "q1"%string answers' = Some "Sci-fi"%string
    /\ forall q', q' <> "q1"%string ->
                  JSMap.get String.eqb q' answers' = JSMap.get String.eqb q' answers.
Proof.
  apply (answerQuestion_stores_answer "q1" "Sci-fi"
           (transition (St_clarifying [] [("q1", "old")]%string) init)).
  reflexivity.
Defined.

(** X4.  After [startExecution] any number of [advanceStep] calls keeps
    the machine in the [executing] phase on the same plan; only the
    current step index changes, to the index of the last call. *)
Theorem advanceStep_keeps_plan p m m1 (indices : list Z) :
  call (op_startExecution p) m = inl m1 ->
  _state (run (map (fun i => a_call (op_advanceStep i)) indices) m1)
  = St_executing p (last indices 0%Z).
Proof.
  intros H.
  assert (S1 : _state m1 = St_executing p 0%Z).
  { cbn [call] in H. unfold startExecution in H.
    destruct (assertPhase _ m) as [[]|e]; [|discriminate].
    now injection H as <-. }
  clear H. revert S1. generalize 0%Z as i0. revert m1. unfold run.
  induction indices as [|i indices IH]; intros m1 i0 S1; [exact S1|].
  cbn [map fold_left].
  assert (E : act m1 (a_call (op_advanceStep i))
              = transition (St_executing p i) m1).
  { cbn [act call]. unfold advanceStep, assertPhase, phase. rewrite S1. reflexivity. }
  rewrite E.
  rewrite (IH (transition (St_executing p i) m1) i eq_refl).
  f_equal. destruct indices as [|j indices]; [reflexivity|].
  change (last (i :: j :: indices) i0) with (last (j :: indices) i0).
  clear. revert j. induction indices as [|k indices IH]; intros j; [reflexivity|].
  change (last (k :: indices) i = last (k :: indices) i0). apply IH.
Qed.

Lemma advanceStep_keeps_plan_witness :
  _state (run (map (fun i => a_call (op_advanceStep i)) [1; 2; 3]%Z)
              (transition (St_executing emptyPlan 0)
                          (transition (St_awaiting_approval emptyPlan) init)))
  = St_executing emptyPlan (last [1; 2; 3]%Z 0%Z).
Proof.
  apply (advanceStep_keeps_plan emptyPlan
           (transition (St_awaiting_approval emptyPlan) init)).
  reflexivity.
Defined.

End WorkflowListeners.

(** ** Runs of [executePlan] that do not end in a failure *)

Section RunOutcomes.
Import Executor ExecutorRuns.
Variable r : Run.

Lemma keptResult_index a b : index a = index b -> keptResult r a = keptResult r b.
Proof.
  intros E. unfold keptResult.
  now rewrite (executeStep_index r a b E), (retryStep_index r a b _ E).
Qed.

Lemma keptResult_success s : passes r s = true -> isSuccess (keptResult r s) = true.
Proof.
  unfold passes, keptResult. intros H.
  destruct (isSuccess (executeStep r s)) eqn:E; [exact E | exact H].
Qed.

Lemma runSorted_pass_kept pos rest e step :
  nth_error (ex_steps e) pos = Some step ->
  aborted r (index step) = false ->
  passes r step = true ->
  exists e',
    runSorted r (pos :: rest) e = runSorted r rest e'
    /\ ex_steps e' = updStatus pos done (ex_steps e)
    /\ ex_results e' = ex_results e ++ [keptResult r step].
Proof.
  intros Hn Ha Hp. simpl. rewrite Hn, Ha.
  unfold passes in Hp. unfold keptResult.
  destruct (isSuccess (executeStep r step)) eqn:E1.
  - eexists. split; [reflexivity|]. simpl.
    split; [apply updStatus_twice | reflexivity].
  - simpl in Hp. rewrite Hp.
    eexists. split; [reflexivity|]. simpl.
    split; [now rewrite !updStatus_twice|].
    now rewrite removelast_last.
Qed.

Lemma runSorted_prefix_kept steps : forall rs e rest,
  sameShape steps (ex_steps e) ->
  (forall x, In x rs -> nth_error steps (fst x) = Some (snd x)
                        /\ aborted r (index (snd x)) = false
                        /\ passes r (snd x) = true) ->
  exists e',
    runSorted r (map fst rs ++ rest) e = runSorted r rest e'
    /\ ex_steps e' = markedDone (map fst rs) (ex_steps e)
    /\ ex_results e' = ex_results e ++ map (keptResult r) (map snd rs).
Proof.
  induction rs as [|[pos s] rs IH]; intros e rest Hsh Hall.
  - exists e. simpl. split; [reflexivity|]. split; [reflexivity|].
    now rewrite app_nil_r.
  - destruct (Hall (pos, s) (or_introl eq_refl)) as (Hn & Ha & Hp).
    cbn [fst snd] in Hn, Ha, Hp.
    change (map fst ((pos, s) :: rs) ++ rest) with (pos :: map fst rs ++ rest).
    change (map fst ((pos, s) :: rs)) with (pos :: map fst rs).
    destruct (sameShape_nth _ _ Hsh _ _ Hn) as (step & Hstep & Hi & _).
    destruct (runSorted_pass_kept pos (map fst rs ++ rest) e step Hstep)
      as (e1 & E1 & St1 & R1).
    { now rewrite <- Hi. }
    { now rewrite <- (passes_index r s step Hi). }
    destruct (IH e1 rest) as (e' & E' & St' & R').
    { rewrite St1. eapply sameShape_trans; [exact Hsh | apply updStatus_shape]. }
    { intros x I. apply Hall. now right. }
    exists e'. split; [now rewrite E1|]. split; [now rewrite St', St1|].
    rewrite R', R1, <- app_assoc. simpl.
    now rewrite (keptResult_index s step Hi).
Qed.

Lemma markedDone_in ps : forall l q s,
  In q ps -> nth_error l q = Some s ->
  nth_error (markedDone ps l) q = Some (withStatus s done).
Proof.
  induction ps as [|p ps IH]; intros l q s I Hq; [destruct I|].
  change (markedDone (p :: ps) l) with (markedDone ps (updStatus p done l)).
  destruct (Nat.eq_dec q p) as [->|Hne].
  - assert (Hp : nth_error (updStatus p done l) p = Some (withStatus s done)).
    { now rewrite nth_error_updStatus, Nat.eqb_refl, Hq. }
    destruct (in_dec Nat.eq_dec p ps) as [I'|N'].
    + rewrite (IH _ _ _ I' Hp). reflexivity.
    + now rewrite markedDone_nth.
  - destruct I as [->|I]; [contradiction|].
    apply IH; [exact I|].
    rewrite nth_error_updStatus.
    destruct (Nat.eqb_spec q p); [contradiction | exact Hq].
Qed.

(** The loop of [executePlan] up to the point where it stops without a
    failure: at the end of the order, or at a step for which the abort
    signal is set. *)
Lemma executePlan_until steps l1 rest :
  uniqueIndices steps ->
  topologicalSort steps = Some (l1 ++ rest) ->
  (forall s, In s l1 -> aborted r (index s) = false /\ passes r s = true) ->
  match rest with [] => True | next :: _ => aborted r (index next) = true end ->
  exists e,
    executePlan r steps = Some e
    /\ ex_results e = map (keptResult r) l1
    /\ (forall s, In s l1 -> statusOf (ex_steps e) (index s) = Some done)
    /\ (forall s, In s steps -> ~ In s l1 ->
                  statusOf (ex_steps e) (index s) = Some (status s)).
Proof.
  intros U Hsort Hpass Hstop.
  destruct (topologicalSortRefs_spec steps U)
    as (processed & Erefs & Hnd & Hmem & Hord).
  assert (F : Forall2 (refOf steps) processed (refs (stepMapOf steps) processed)).
  { apply refs_Forall2; [exact U|]. intros k I. now apply Hmem in I. }
  set (rs := refs (stepMapOf steps) processed) in *.
  assert (Hmap : map snd rs = l1 ++ rest).
  { unfold topologicalSort in Hsort. rewrite Erefs in Hsort. simpl in Hsort.
    now injection Hsort. }
  assert (Hnth : forall x, In x rs -> nth_error steps (fst x) = Some (snd x)).
  { eapply Forall2_refOf_nth; eauto. }
  apply map_eq_app in Hmap as (rs1 & rs2 & Ers & Hl1 & Hrs2).
  assert (Hnth1 : forall x, In x rs1 -> nth_error steps (fst x) = Some (snd x)).
  { intros x I. apply Hnth. rewrite Ers. apply in_or_app. now left. }
  unfold executePlan. rewrite Erefs. fold rs. rewrite Ers, map_app.
  destruct (runSorted_prefix_kept steps rs1 (mkExec steps [] []) (map fst rs2))
    as (e1 & E1 & St1 & R1).
  { apply sameShape_refl. }
  { intros x I. split; [now apply Hnth1|].
    apply Hpass. rewrite <- Hl1. now apply in_map. }
  simpl in St1, R1. rewrite E1.
  assert (Sh : sameShape steps (ex_steps e1)).
  { rewrite St1. apply markedDone_shape. }
  assert (Ue : uniqueIndices (ex_steps e1)).
  { unfold uniqueIndices. now rewrite (sameShape_index _ _ Sh). }
  assert (Estop : runSorted r (map fst rs2) e1 = Some e1).
  { destruct rs2 as [|[posS S'] rs2]; [reflexivity|].
    simpl in Hrs2. rewrite <- Hrs2 in Hstop. simpl in Hstop.
    cbn [map fst runSorted].
    destruct (nth_error (ex_steps e1) posS) as [step|] eqn:Hn; [|reflexivity].
    assert (HS : nth_error steps posS = Some S').
    { apply (Hnth (posS, S')). rewrite Ers. apply in_elt. }
    destruct (sameShape_nth _ _ Sh _ _ HS) as (step' & Hstep' & Hi & _).
    assert (step' = step) by congruence. subst step'.
    now rewrite <- Hi, Hstop. }
  exists e1. split; [exact Estop|]. split; [now rewrite R1, Hl1|]. split.
  - intros s Is. rewrite <- Hl1 in Is. apply in_map_iff in Is as (x & <- & Ix).
    assert (Hm : nth_error (ex_steps e1) (fst x) = Some (withStatus (snd x) done)).
    { rewrite St1. apply markedDone_in; [now apply in_map | now apply Hnth1]. }
    apply (statusOf_nth _ _ _ Ue Hm).
  - intros s Is Ns. apply In_nth_error in Is as [q Hq].
    assert (Hm : nth_error (ex_steps e1) q = Some s).
    { rewrite St1, markedDone_nth; [exact Hq|].
      intros I. apply Ns. rewrite <- Hl1. eapply refs_position; eauto. }
    apply (statusOf_nth _ _ _ Ue Hm).
Qed.

End RunOutcomes.

Section RunOutcomeTheorems.
Import Executor ExecutorRuns.

(** X5.  When no abort is signalled and every step of the execution
    order passes (at its first attempt or at its retry), [executePlan]
    returns with one successful result per step, in execution order, the
    result of a retried step being the one of the retry; every step of
    the order ends [done] and a step left out of the order keeps the
    status it had. *)
Theorem executePlan_all_pass r steps sorted :
  uniqueIndices steps ->
  topologicalSort steps = Some sorted ->
  (forall s, In s sorted -> aborted r (index s) = false /\ passes r s = true) ->
  exists e,
    executePlan r steps = Some e
    /\ ex_results e = map (keptResult r) sorted
    /\ Forall (fun res => isSuccess res = true) (ex_results e)
    /\ (forall s, In s sorted -> statusOf (ex_steps e) (index s) = Some done)
    /\ (forall s, In s steps -> ~ In s sorted ->
                  statusOf (ex_steps e) (index s) = Some (status s)).
Proof.
  intros U Hsort Hpass.
  destruct (executePlan_until r steps sorted [] U) as (e & E & R & D & K).
  { now rewrite app_nil_r. }
  { exact Hpass. }
  { exact I. }
  exists e. split; [exact E|]. split; [exact R|]. split; [|split; assumption].
  rewrite R. apply Forall_forall. intros res Ir.
  apply in_map_iff in Ir as (s & <- & Is).
  apply keptResult_success. now apply Hpass.
Qed.

Lemma executePlan_all_pass_witness :
  exists e,
    executePlan smoothRun cyclicPlan = Some e
    /\ ex_results e = map (keptResult smoothRun) [sampleStep 0 []]
    /\ Forall (fun res => isSuccess res = true) (ex_results e)
    /\ (forall s, In s [sampleStep 0 []] ->
                  statusOf (ex_steps e) (index s) = Some done)
    /\ (forall s, In s cyclicPlan -> ~ In s [sampleStep 0 []] ->
                  statusOf (ex_steps e) (index s) = Some (status s)).
Proof.
  apply (executePlan_all_pass smoothRun cyclicPlan [sampleStep 0 []]).
  - unfold uniqueIndices; simpl.
    repeat (constructor; [simpl; intuition discriminate|]). constructor.
  - reflexivity.
  - intros s [<-|[]]. split; reflexivity.
Defined.

(** X6.  When the abort signal is set as the loop reaches step [S], the
    loop stops there: [executePlan] returns the results of the steps
    before [S] only, those steps are [done], and [S] and every step
    after it keep the status they had. *)
Theorem executePlan_abort r steps l1 S l2 :
  uniqueIndices steps ->
  topologicalSort steps = Some (l1 ++ S :: l2) ->
  (forall s, In s l1 -> aborted r (index s) = false /\ passes r s = true) ->
  aborted r (index S) = true ->
  exists e,
    executePlan r steps = Some e
    /\ ex_results e = map (keptResult r) l1
    /\ (forall s, In s l1 -> statusOf (ex_steps e) (index s) = Some done)
    /\ (forall s, In s steps -> ~ In s l1 ->
                  statusOf (ex_steps e) (index s) = Some (status s)).
Proof.
  intros U Hsort Hpass Hab.
  exact (executePlan_until r steps l1 (S :: l2) U Hsort Hpass Hab).
Qed.

Lemma executePlan_abort_witness :
  exists e,
    executePlan abortedRun diamondPlan = Some e
    /\ ex_results e = map (keptResult abortedRun) [sampleStep 0 []; sampleStep 1 [0]]
    /\ (forall s, In s [sampleStep 0 []; sampleStep 1 [0]] ->
                  statusOf (ex_steps e) (index s) = Some done)
    /\ (forall s, In s diamondPlan -> ~ In s [sampleStep 0 []; sampleStep 1 [0]] ->
                  statusOf (ex_steps e) (index s) = Some (status s)).
Proof.
  apply (executePlan_abort abortedRun diamondPlan
           [sampleStep 0 []; sampleStep 1 [0]] (sampleStep 2 [0])
           [sampleStep 3 [1; 2]]).
  - unfold uniqueIndices; simpl.
    repeat (constructor; [simpl; intuition discriminate|]). constructor.
  - reflexivity.
  - intros s [<-|[<-|[]]]; split; reflexivity.
  - reflexivity.
Defined.

End RunOutcomeTheorems.

(** ** [skipDependents] skips nothing but dependents *)

Section SkipSoundness.
Import Executor ExecutorRuns.

Lemma newlySkipped_refl l j : ~ newlySkipped l l j.
Proof.
  intros (p & u & u' & H & H' & S & S' & _).
  assert (u = u') by congruence. subst. congruence.
Qed.

Lemma skipLoop_sound (rec : nat -> Exec -> option Exec) :
  (forall k e e', rec k e = Some e' -> skipsOnlyDependents k e e') ->
  forall ps k e e',
    skipLoop rec k ps e = Some e' -> skipsOnlyDependents k e e'.
Proof.
  intros Hrec. induction ps as [|pos rest IH]; intros k e e' H.
  - injection H as <-. split; [apply evolves_refl|]. split; [reflexivity|].
    intros j N. now apply newlySkipped_refl in N.
  - cbn [skipLoop] in H.
    destruct (nth_error (ex_steps e) pos) as [step|] eqn:Hn; [|now apply IH].
    destruct (existsb (Nat.eqb k) (dependsOn step)
              && StepStatus_eqb (status step) pending) eqn:Hc; [|now apply IH].
    apply andb_prop in Hc as [Hk Hp].
    assert (Sp : status step = pending)
      by (destruct (status step); auto; discriminate).
    assert (Dk : depends (ex_steps e) (index step) k).
    { exists step. split; [eapply nth_error_In; eauto|]. split; [reflexivity|].
      apply existsb_exists in Hk as (d & Id & Ed).
      apply Nat.eqb_eq in Ed. now subst d. }
    destruct (rec (index step) (mark pos skipped e)) as [e1|] eqn:E1;
      [|discriminate].
    destruct (Hrec _ _ _ E1) as (Ev1 & R1 & T1).
    destruct (IH _ _ _ H) as (Ev2 & R2 & T2).
    assert (Ev0 : evolves (ex_steps e) (ex_steps (mark pos skipped e))).
    { simpl. eapply updStatus_evolves; eauto. }
    assert (Ev01 : evolves (ex_steps e) (ex_steps e1))
      by (eapply evolves_trans; eauto).
    split; [eapply evolves_trans; eauto|].
    split; [now rewrite R2, R1|].
    intros j (p & u & u' & Hu & Hu' & Su & Su' & Ij).
    destruct (Nat.eq_dec p pos) as [->|Hne].
    { assert (u = step) by congruence. subst u. rewrite <- Ij.
      now apply t_step. }
    assert (Hm : nth_error (ex_steps (mark pos skipped e)) p = Some u).
    { simpl. rewrite nth_error_updStatus.
      destruct (Nat.eqb_spec p pos); [contradiction | exact Hu]. }
    destruct (evolves_nth _ _ Ev1 _ _ Hm) as (u1 & Hu1 & (I1 & _ & S1)).
    destruct S1 as [S1|[_ S1]].
    + apply (clos_trans_shape (ex_steps e1)).
      { apply sameShape_sym. now apply evolves_shape. }
      apply T2. exists p, u1, u'. repeat split; auto; congruence.
    + apply t_trans with (index step); [|now apply t_step].
      apply (clos_trans_shape (ex_steps (mark pos skipped e))).
      { apply sameShape_sym. now apply evolves_shape. }
      apply T1. exists p, u, u1. repeat split; auto.
Qed.

Lemma skipDependents_sound : forall fuel k e e',
  skipDependents fuel k e = Some e' -> skipsOnlyDependents k e e'.
Proof.
  induction fuel as [|f IH]; intros k e e' H; [discriminate|].
  simpl in H. eapply skipLoop_sound; eauto.
Qed.

(** X7.  [skipDependents] changes nothing but [pending] statuses, which
    it turns into [skipped], and it does so only for steps that depend
    on the failed step directly or through other steps: a step that does
    not depend on the failed step is never skipped, and a step that is
    [done], [failed] or [active] keeps its status.  The results collected
    so far are left alone. *)
Theorem skipDependents_only_dependents fuel k e e' :
  skipDependents fuel k e = Some e' ->
  ex_results e' = ex_results e
  /\ (forall j, newlySkipped (ex_steps e) (ex_steps e') j ->
                clos_trans nat (depends (ex_steps e)) j k)
  /\ (forall pos u, nth_error (ex_steps e) pos = Some u ->
        exists u', nth_error (ex_steps e') pos = Some u'
                   /\ index u' = index u /\ dependsOn u' = dependsOn u
                   /\ (status u' = status u
                       \/ status u = pending /\ status u' = skipped)).
Proof.
  intros H. destruct (skipDependents_sound _ _ _ _ H) as (Ev & R & T).
  split; [exact R|]. split; [exact T|].
  intros pos u Hu.
  destruct (evolves_nth _ _ Ev _ _ Hu) as (u' & Hu' & (I & D & S)).
  exists u'. split; [exact Hu'|]. split; [now symmetry|]. split; [now symmetry|].
  destruct S as [S|S]; [left; now symmetry | now right].
Qed.

Lemma skipDependents_only_dependents_witness :
  ex_results (mkExec (updStatus 3 skipped (updStatus 1 failed diamondPlan))
                     [] [(3, skipped)])
  = ex_results (mkExec (updStatus 1 failed diamondPlan) [] [])
  /\ (forall j, newlySkipped (updStatus 1 failed diamondPlan)
                             (updStatus 3 skipped (updStatus 1 failed diamondPlan)) j ->
                clos_trans nat (depends (updStatus 1 failed diamondPlan)) j 1)
  /\ (forall pos u, nth_error (updStatus 1 failed diamondPlan) pos = Some u ->
        exists u', nth_error (updStatus 3 skipped (updStatus 1 failed diamondPlan)) pos
                   = Some u'
                   /\ index u' = index u /\ dependsOn u' = dependsOn u
                   /\ (status u' = status u
                       \/ status u = pending /\ status u' = skipped)).
Proof.
  apply (skipDependents_only_dependents 5 1
           (mkExec (updStatus 1 failed diamondPlan) [] [])
           (mkExec (updStatus 3 skipped (updStatus 1 failed diamondPlan))
                   [] [(3, skipped)])).
  reflexivity.
Defined.

End SkipSoundness.

(** ** [topologicalSort] on plans that need not be well-formed *)

Section SortOrder.
Import Executor ExecutorRuns.

Lemma relax_queue ns : forall st, exists added, snd (relax ns st) = snd st ++ added.
Proof.
  unfold relax. induction ns as [|n ns IH]; intros st; simpl.
  - exists []. now rewrite app_nil_r.
  - destruct (IH (relaxOne st n)) as (added & E). rewrite E.
    unfold relaxOne; simpl.
    destruct (Z.eqb (degreeOf (fst st) n - 1) 0).
    + exists (n :: added). now rewrite <- app_assoc.
    + now exists added.
Qed.

Lemma refs_app stepMap l1 l2 :
  refs stepMap (l1 ++ l2) = refs stepMap l1 ++ refs stepMap l2.
Proof. unfold refs. apply flat_map_app. Qed.

(** The queue is served first in, first out. *)
Lemma kahnLoop_fifo adj stepMap : forall fuel inDeg queue sorted out,
  kahnLoop fuel adj stepMap inDeg queue sorted = Some out ->
  exists rest, out = sorted ++ refs stepMap queue ++ rest.
Proof.
  induction fuel as [|fuel IH]; intros inDeg queue sorted out H; [discriminate|].
  destruct queue as [|current rest]; simpl in H.
  - injection H as <-. exists []. simpl. now rewrite app_nil_r.
  - destruct (relax_queue (neighborsOf adj current) (inDeg, rest)) as (added & Eq).
    simpl in Eq. apply IH in H as (tl & ->). rewrite Eq, refs_app.
    exists (refs stepMap added ++ tl).
    change (current :: rest) with ([current] ++ rest). rewrite refs_app.
    unfold refs at 3. simpl.
    destruct (JSMap.get Nat.eqb current stepMap); simpl;
      rewrite <- ?app_assoc; simpl; rewrite <- ?app_assoc; reflexivity.
Qed.

Lemma initialQueue_independent steps :
  initialQueue (map degreeEntry steps) = map index (filter independent steps).
Proof.
  unfold initialQueue.
  induction steps as [|s steps IH]; [reflexivity|].
  simpl. unfold independent at 1.
  destruct (dependsOn s) as [|d ds]; simpl; now rewrite IH.
Qed.

Lemma refs_of_steps steps l :
  uniqueIndices steps -> (forall s, In s l -> In s steps) ->
  map snd (refs (stepMapOf steps) (map index l)) = l.
Proof.
  intros U. induction l as [|s l IH]; intros Hsub; [reflexivity|].
  change (map index (s :: l)) with ([index s] ++ map index l).
  rewrite refs_app, map_app, IH by (intros x I; apply Hsub; now right).
  destruct (In_nth_error steps s (Hsub s (or_introl eq_refl))) as [pos Hpos].
  unfold refs. simpl. now rewrite (stepMapOf_get steps pos s U Hpos).
Qed.

Lemma clos_rt_cases (R : nat -> nat -> Prop) x y :
  clos_refl_trans nat R x y -> x = y \/ clos_trans nat R x y.
Proof.
  induction 1 as [x y H | x | x y z _ [->|IH1] _ [->|IH2]]; auto.
  - right. now apply t_step.
  - right. eapply t_trans; eauto.
Qed.

(** X8.  For any plan with unique indices, cyclic or with dependencies
    on missing steps, [topologicalSort] returns, and what it returns is
    a list of steps of the plan without repetition in which every step
    comes after all the steps it depends on. *)
Theorem topologicalSort_output_ordered steps :
  uniqueIndices steps ->
  exists sorted,
    topologicalSort steps = Some sorted
    /\ NoDup (map index sorted)
    /\ (forall s, In s sorted -> In s steps)
    /\ (forall before s after, sorted = before ++ s :: after ->
          forall d, In d (dependsOn s) -> In d (map index before)).
Proof.
  intros U.
  destruct (topologicalSort_spec steps U) as (sorted & E & Hnd & Hsub & _ & Hord).
  exists sorted. split; [exact E|]. split; [exact Hnd|]. split; [exact Hsub|].
  intros before s after Es d Id.
  apply (Ordered_split steps _ Hord (map index before) (index s) (map index after)).
  - rewrite Es, map_app. reflexivity.
  - rewrite depsOf_step; [exact Id | exact U |].
    apply Hsub. rewrite Es. apply in_elt.
Qed.

Lemma topologicalSort_output_ordered_witness :
  exists sorted,
    topologicalSort cyclicPlan = Some sorted
    /\ NoDup (map index sorted)
    /\ (forall s, In s sorted -> In s cyclicPlan)
    /\ (forall before s after, sorted = before ++ s :: after ->
          forall d, In d (dependsOn s) -> In d (map index before)).
Proof.
  apply (topologicalSort_output_ordered cyclicPlan).
  unfold uniqueIndices; simpl.
  repeat (constructor; [simpl; intuition discriminate|]). constructor.
Defined.

(** X9.  A step that depends on an index that no step of the plan has
    is left out of the order without any error, and so is every step
    that depends on it, directly or through other steps. *)
Theorem topologicalSort_missing_dependency steps sorted s t :
  uniqueIndices steps ->
  topologicalSort steps = Some sorted ->
  In s steps -> In t steps ->
  clos_refl_trans nat (depends steps) (index s) (index t) ->
  danglingDependency steps t ->
  ~ In s sorted.
Proof.
  intros U Hsort Is It Hreach (d & Id & Nd) Hin.
  destruct (topologicalSort_spec steps U) as (sorted' & E & Hnd & Hsub & Hmem & Hord).
  assert (sorted' = sorted) by congruence. subst sorted'.
  assert (Ht : In (index t) (map index sorted)).
  { destruct (clos_rt_cases _ _ _ Hreach) as [Eq|T].
    - rewrite <- Eq. now apply in_map.
    - apply (in_map index) in Hin. apply in_split in Hin as (a & b & Eab).
      rewrite Eab. apply in_or_app. left.
      exact (Ordered_trans_before steps _ U Hord _ _ T a b Eab). }
  apply Hmem in Ht as [_ Hdeps].
  assert (Hd : In d (map index sorted)).
  { apply Hdeps. rewrite depsOf_step; auto. }
  apply Hmem in Hd as [Hd _]. contradiction.
Qed.

Lemma topologicalSort_missing_dependency_witness :
  ~ In (mkStep 2 "" "" [1] [] pending)
       [mkStep 0 "" "" [] [] pending; mkStep 3 "" "" [0] [] pending].
Proof.
  apply (topologicalSort_missing_dependency danglingPlan
           [mkStep 0 "" "" [] [] pending; mkStep 3 "" "" [0] [] pending]
           (mkStep 2 "" "" [1] [] pending) (mkStep 1 "" "" [7] [] pending)).
  - unfold uniqueIndices; simpl.
    repeat (constructor; [simpl; intuition discriminate|]). constructor.
  - reflexivity.
  - simpl. tauto.
  - simpl. tauto.
  - apply rt_step. exists (mkStep 2 "" "" [1] [] pending).
    simpl. tauto.
  - exists 7. simpl. split; [tauto | intuition discriminate].
Defined.

(** X10.  The steps without dependencies are scheduled first, in the
    order in which the plan lists them; a plan none of whose steps has a
    dependency is returned in its own order. *)
Theorem topologicalSort_independent_first steps :
  uniqueIndices steps ->
  exists rest,
    topologicalSort steps = Some (filter independent steps ++ rest)
    /\ ((forall s, In s steps -> dependsOn s = []) -> rest = []
        /\ topologicalSort steps = Some steps).
Proof.
  intros U.
  destruct (topologicalSort_spec steps U) as (sorted & E & Hnd & Hsub & _).
  assert (P : exists rest, sorted = filter independent steps ++ rest).
  { unfold topologicalSort in E.
    destruct (topologicalSortRefs steps) as [out|] eqn:Eo; [|discriminate].
    unfold topologicalSortRefs in Eo. cbv zeta in Eo.
    apply kahnLoop_fifo in Eo as (tl & ->).
    rewrite (inDegree_buildGraph steps U), initialQueue_independent in E.
    simpl in E. injection E as <-.
    exists (map snd tl). rewrite map_app. f_equal.
    apply refs_of_steps; [exact U|].
    intros s I. now apply filter_In in I as [I _]. }
  destruct P as (rest & ->). exists rest. split; [exact E|].
  intros Hnone.
  assert (F : filter independent steps = steps).
  { apply filter_all_true, Forall_forall. intros s I.
    unfold independent. now rewrite (Hnone s I). }
  rewrite F in *.
  assert (L : List.length (map index (steps ++ rest)) <= List.length (map index steps)).
  { apply NoDup_incl_length; [exact Hnd|].
    intros k I. apply in_map_iff in I as (s & <- & I). apply in_map. now apply Hsub. }
  rewrite !length_map, length_app in L.
  assert (rest = []) by (destruct rest; [reflexivity | simpl in L; lia]).
  subst rest. split; [reflexivity|]. now rewrite app_nil_r in E.
Qed.

Lemma topologicalSort_independent_first_witness :
  exists rest,
    topologicalSort danglingPlan = Some (filter independent danglingPlan ++ rest)
    /\ ((forall s, In s danglingPlan -> dependsOn s = []) -> rest = []
        /\ topologicalSort danglingPlan = Some danglingPlan).
Proof.
  apply (topologicalSort_independent_first danglingPlan).
  unfold uniqueIndices; simpl.
  repeat (constructor; [simpl; intuition discriminate|]). constructor.
Defined.

End SortOrder.

(** ** [executeStep] and [retryStep] *)

Section StepRunFacts.
Import Tools Stream StepRuns.

Lemma find_app (A : Type) (f : A -> bool) (l1 l2 : list A) :
  find f (l1 ++ l2)
  = match find f l1 with Some x => Some x | None => find f l2 end.
Proof.
  induction l1 as [|a l1 IH]; simpl; [reflexivity|]. now destruct (f a).
Qed.

Lemma callsLoop_spec hs calls : forall nodeIds,
  callsLoop hs calls nodeIds
  = match find (fails hs) calls with
    | Some call => inr (tr_error (execute hs call))
    | None => inl (nodeIds ++ flat_map (nodeIdsOf hs) calls)
    end.
Proof.
  induction calls as [|call rest IH]; intros nodeIds; simpl.
  - now rewrite app_nil_r.
  - unfold fails at 1, nodeIdsOf at 1.
    destruct (tr_success (execute hs call)); simpl.
    + destruct (truthyData (tr_data (execute hs call))); simpl.
      * rewrite IH. destruct (find (fails hs) rest); [reflexivity|].
        destruct (truthyValue (nodeIdOf (tr_data (execute hs call)))); simpl;
          now rewrite <- ?app_assoc.
      * apply IH.
    + reflexivity.
Qed.

Lemma chunksLoop_spec hs stream : forall nodeIds,
  chunksLoop hs stream nodeIds
  = match firstFailure hs stream with
    | Some call => inr (tr_error (execute hs call))
    | None => inl (nodeIds ++ flat_map (nodeIdsOf hs) (allCalls stream))
    end.
Proof.
  unfold firstFailure.
  induction stream as [|chunk rest IH]; intros nodeIds; simpl.
  - now rewrite app_nil_r.
  - destruct (toolCalls chunk) as [calls|]; simpl; [|apply IH].
    rewrite callsLoop_spec, find_app, flat_map_app.
    destruct (find (fails hs) calls); [reflexivity|].
    rewrite IH. destruct (find (fails hs) (allCalls rest)); [reflexivity|].
    now rewrite app_assoc.
Qed.

Lemma retryCalls_spec hs calls :
  retryCalls hs calls
  = option_map (fun call => tr_error (execute hs call)) (find (fails hs) calls).
Proof.
  induction calls as [|call rest IH]; simpl; [reflexivity|].
  unfold fails at 1. now destruct (tr_success (execute hs call)).
Qed.

Lemma retryChunks_spec hs stream :
  retryChunks hs stream
  = option_map (fun call => tr_error (execute hs call)) (firstFailure hs stream).
Proof.
  unfold firstFailure.
  induction stream as [|chunk rest IH]; simpl; [reflexivity|].
  destruct (toolCalls chunk) as [calls|]; simpl; [|apply IH].
  rewrite retryCalls_spec, find_app.
  destruct (find (fails hs) calls); [reflexivity | apply IH].
Qed.

Lemma failed_call_has_error hs call :
  fails hs call = true -> exists msg, tr_error (execute hs call) = Some msg.
Proof.
  unfold fails, execute.
  destruct (JSMap.get String.eqb (call_name call) hs) as [h|]; [|simpl; eauto].
  destruct (negb (fst (validateToolInput (call_input call) (schema h))));
    [simpl; eauto|].
  destruct (execute_handler h (call_input call)); simpl; [discriminate | eauto].
Qed.

(** X11.  [executeStep] fails exactly when some tool call of the reply
    fails or the stream throws.  The error it reports is that of the
    first failing call, however many calls follow it, and else the text
    of the thrown value; on success it reports, in order, the truthy
    [nodeId] fields of the results. *)
Theorem executeStep_first_failure hs reply step :
  executeStep hs reply step
  = match firstFailure hs (chunks reply) with
    | Some call =>
        mkAttempt (index step) failure None (tr_error (execute hs call))
    | None =>
        match thrown reply with
        | Some error =>
            mkAttempt (index step) failure None (Some (String_of_fault error))
        | None =>
            mkAttempt (index step) success
                      (Some (flat_map (nodeIdsOf hs) (allCalls (chunks reply)))) None
        end
    end.
Proof.
  unfold executeStep. rewrite chunksLoop_spec.
  now destruct (firstFailure hs (chunks reply)).
Qed.

Lemma retryStep_as_executeStep_aux hs reply step :
  at_status (retryStep hs reply step) = at_status (executeStep hs reply step)
  /\ at_error (retryStep hs reply step) = at_error (executeStep hs reply step).
Proof.
  unfold retryStep, executeStep. rewrite retryChunks_spec, chunksLoop_spec.
  destruct (firstFailure hs (chunks reply)); simpl; [auto|].
  destruct (thrown reply); simpl; auto.
Qed.

(** X12.  [retryStep] succeeds on exactly the replies on which
    [executeStep] succeeds and reports the same error on the others,
    but it never reports node ids: the nodes created by a step that
    passes at its retry are absent from the results. *)
Theorem retryStep_as_executeStep hs reply step :
  at_stepIndex (retryStep hs reply step) = at_stepIndex (executeStep hs reply step)
  /\ at_status (retryStep hs reply step) = at_status (executeStep hs reply step)
  /\ at_error (retryStep hs reply step) = at_error (executeStep hs reply step)
  /\ at_nodeIds (retryStep hs reply step) = None.
Proof.
  unfold retryStep, executeStep. rewrite retryChunks_spec, chunksLoop_spec.
  destruct (firstFailure hs (chunks reply)); simpl; [auto|].
  destruct (thrown reply); simpl; auto.
Qed.

(** X13.  A failed attempt always carries an error message: whatever
    the handlers and the reply, the result of a failed [executeStep] or
    [retryStep] has its [error] field set, so the fallback
    ["Unknown error"] of [executePlan] is never used. *)
Theorem failed_attempt_has_error hs reply step :
  (at_status (executeStep hs reply step) = failure ->
   exists msg, at_error (executeStep hs reply step) = Some msg)
  /\ (at_status (retryStep hs reply step) = failure ->
      exists msg, at_error (retryStep hs reply step) = Some msg).
Proof.
  destruct (retryStep_as_executeStep_aux hs reply step) as (S & E).
  rewrite S, E.
  assert (H : at_status (executeStep hs reply step) = failure ->
              exists msg, at_error (executeStep hs reply step) = Some msg).
  { unfold executeStep. rewrite chunksLoop_spec. unfold firstFailure.
    destruct (find (fails hs) (allCalls (chunks reply))) as [call|] eqn:F; simpl.
    - intros _. apply find_some in F as [_ F]. now apply failed_call_has_error.
    - destruct (thrown reply); simpl; [eauto | discriminate]. }
  split; exact H.
Qed.

(** The second call of the reply fails: its error is reported, the node
    created by the first call is not, and the third call is not run. *)
Lemma executeStep_failingReply :
  executeStep boxHandlers failingReply (sampleStep 4 [])
  = mkAttempt 4 failure None (Some "Error: CAD engine error"%string).
Proof. reflexivity. Qed.

Lemma executeStep_box :
  executeStep boxHandlers
              (mkReply [mkChunk "" None (Some [mkCall "c1" "box" []])] None)
              (sampleStep 4 [])
  = mkAttempt 4 success (Some [J_string "n1"]) None.
Proof. reflexivity. Qed.

End StepRunFacts.

(** ** The map behind an InMemoryVectorStore *)

Section StoreMapFacts.
Variable V : Type.
Implicit Types (m : JSMap.t string V) (k : string) (v : V).

Lemma skeys_set m k v :
  JSMap.keys (JSMap.set String.eqb k v m)
  = if JSMap.has String.eqb k m then JSMap.keys m else JSMap.keys m ++ [k].
Proof.
  unfold JSMap.has, JSMap.keys.
  induction m as [|[k' v'] r IH]; simpl; [reflexivity|].
  destruct (String.eqb_spec k k') as [->|N]; simpl; [reflexivity|].
  rewrite IH. now destruct (JSMap.get String.eqb k r).
Qed.

Lemma sget_None_keys m k :
  JSMap.get String.eqb k m = None -> ~ In k (JSMap.keys m).
Proof.
  unfold JSMap.keys. induction m as [|[k' v'] r IH]; simpl; [tauto|].
  destruct (String.eqb_spec k k') as [->|N]; [discriminate|].
  intros G [E|I]; [congruence | now apply IH].
Qed.

Lemma skeys_set_NoDup m k v :
  NoDup (JSMap.keys m) -> NoDup (JSMap.keys (JSMap.set String.eqb k v m)).
Proof.
  intros H. rewrite skeys_set. unfold JSMap.has.
  destruct (JSMap.get String.eqb k m) eqn:G; [exact H|].
  apply NoDup_app; [exact H | repeat constructor; intros [] |].
  intros x I [->|[]]. now apply (sget_None_keys m x G).
Qed.

Lemma sin_set m k v k0 v0 :
  In (k0, v0) (JSMap.set String.eqb k v m) ->
  (k0, v0) = (k, v) \/ In (k0, v0) m.
Proof.
  induction m as [|[k' v'] r IH]; simpl.
  - intros [E|[]]. now left.
  - destruct (String.eqb k k'); simpl.
    + intros [E|I]; auto.
    + intros [E|I]; auto. destruct (IH I); auto.
Qed.

Lemma sin_delete m k k0 v0 :
  In (k0, v0) (JSMap.delete String.eqb k m) -> In (k0, v0) m.
Proof.
  induction m as [|[k' v'] r IH]; simpl; [tauto|].
  destruct (String.eqb k k'); simpl; [auto|].
  intros [E|I]; auto.
Qed.

Lemma skeys_delete_in m k k0 :
  In k0 (JSMap.keys (JSMap.delete String.eqb k m)) -> In k0 (JSMap.keys m).
Proof.
  unfold JSMap.keys. induction m as [|[k' v'] r IH]; simpl; [tauto|].
  destruct (String.eqb k k'); simpl; [auto|].
  intros [E|I]; auto.
Qed.

Lemma skeys_delete_NoDup m k :
  NoDup (JSMap.keys m) -> NoDup (JSMap.keys (JSMap.delete String.eqb k m)).
Proof.
  unfold JSMap.keys. induction m as [|[k' v'] r IH]; simpl; [auto|].
  intros H. inversion H as [|? ? Hn Hr]; subst.
  destruct (String.eqb k k'); simpl; [exact Hr|].
  constructor; [|now apply IH].
  intros I. apply Hn. now apply skeys_delete_in in I.
Qed.

Lemma sget_delete m k k0 :
  NoDup (JSMap.keys m) ->
  JSMap.get String.eqb k0 (JSMap.delete String.eqb k m)
  = if String.eqb k0 k then None else JSMap.get String.eqb k0 m.
Proof.
  unfold JSMap.keys. induction m as [|[k' v'] r IH]; simpl; intros H.
  - now destruct (String.eqb k0 k).
  - inversion H as [|? ? Hn Hr]; subst.
    destruct (String.eqb_spec k k') as [<-|N]; simpl.
    + destruct (String.eqb_spec k0 k) as [E0|N0]; [|reflexivity].
      destruct (JSMap.get String.eqb k0 r) eqn:G; [|reflexivity].
      exfalso. apply Hn. rewrite <- E0.
      clear -G. induction r as [|[k1 v1] r IH]; simpl in *; [discriminate|].
      destruct (String.eqb_spec k0 k1) as [E1|]; [now left | right; auto].
    + rewrite (IH Hr).
      destruct (String.eqb_spec k0 k') as [E1|N1]; [|reflexivity].
      destruct (String.eqb_spec k0 k); [congruence | reflexivity].
Qed.

Lemma sdelete_absent m k :
  JSMap.get String.eqb k m = None -> JSMap.delete String.eqb k m = m.
Proof.
  induction m as [|[k' v'] r IH]; simpl; [reflexivity|].
  destruct (String.eqb k k'); [discriminate|].
  intros G. now rewrite IH.
Qed.

Lemma ssize_delete m k :
  JSMap.size (JSMap.delete String.eqb k m) <= JSMap.size m.
Proof.
  unfold JSMap.size. induction m as [|[k' v'] r IH]; simpl; [lia|].
  destruct (String.eqb k k'); simpl; lia.
Qed.

Lemma sget_in m k v :
  NoDup (JSMap.keys m) -> In (k, v) m -> JSMap.get String.eqb k m = Some v.
Proof.
  unfold JSMap.keys. induction m as [|[k' v'] r IH]; simpl; [tauto|].
  intros H I. inversion H as [|? ? Hn Hr]; subst.
  destruct I as [E|I].
  - injection E as -> ->. now rewrite String.eqb_refl.
  - destruct (String.eqb_spec k k') as [->|N]; [|now apply IH].
    exfalso. apply Hn. apply (in_map fst) in I. exact I.
Qed.

End StoreMapFacts.

(** ** Invariants of an InMemoryVectorStore *)

Section StoreInvariants.
Import VectorStore StoreRuns.

Lemma StoreInv_new name dims : StoreInv (newStore name dims).
Proof.
  split; [intros d []|]. split; [constructor | intros k d []].
Qed.

Lemma StoreInv_set st doc :
  StoreInv st -> List.length (embedding doc) = dimensions st ->
  StoreInv (mkStore (store_name st) (dimensions st)
                    (JSMap.set String.eqb (doc_id doc) doc (_documents st))).
Proof.
  intros (W & N & K) E. split; [|split]; simpl.
  - intros x I. simpl in *.
    apply svalues_set_in in I as [->|I]; [exact E | now apply W].
  - now apply skeys_set_NoDup.
  - intros k d I. apply sin_set in I as [Eq|I]; [|now apply K].
    now injection Eq as -> ->.
Qed.

Lemma StoreInv_upsert docs : forall st,
  StoreInv st ->
  StoreInv (fst (upsert docs st))
  /\ dimensions (fst (upsert docs st)) = dimensions st.
Proof.
  induction docs as [|d docs IH]; intros st H; simpl; [auto|].
  destruct (Nat.eqb_spec (List.length (embedding d)) (dimensions st)) as [E|N];
    simpl; [|auto].
  apply (IH _ (StoreInv_set st d H E)).
Qed.

Lemma StoreInv_remove ids : forall st,
  StoreInv st -> StoreInv (remove ids st).
Proof.
  intros st (W & N & K). split; [now apply remove_wellFormed|].
  unfold remove; simpl. revert N K. generalize (_documents st) as m.
  induction ids as [|i ids IH]; intros m N K; simpl; [auto|].
  apply IH.
  - now apply skeys_delete_NoDup.
  - intros k d I. apply K. eapply sin_delete; eauto.
Qed.

Lemma StoreInv_perform st c :
  StoreInv st ->
  StoreInv (perform st c) /\ dimensions (perform st c) = dimensions st.
Proof.
  intros H. destruct c as [docs|ids| |]; simpl.
  - now apply StoreInv_upsert.
  - split; [now apply StoreInv_remove | reflexivity].
  - split; [|reflexivity].
    split; [intros d []|]. split; [constructor | intros k d []].
  - split; [|reflexivity].
    split; [intros d []|]. split; [constructor | intros k d []].
Qed.

Lemma StoreInv_performAll calls : forall st,
  StoreInv st ->
  StoreInv (performAll calls st)
  /\ dimensions (performAll calls st) = dimensions st.
Proof.
  unfold performAll.
  induction calls as [|c calls IH]; intros st H; simpl; [auto|].
  destruct (StoreInv_perform st c H) as [H1 D1].
  destruct (IH _ H1) as [H2 D2]. split; [exact H2 | congruence].
Qed.

Lemma firstn_incl (A : Type) (n : nat) (l : list A) x :
  In x (firstn n l) -> In x l.
Proof.
  revert l. induction n as [|n IH]; intros [|y l]; simpl; try tauto.
  intros [E|I]; auto.
Qed.

(** X14.  Whatever sequence of [upsert] (also ones that throw half-way),
    [remove], [clear] and [dispose] a store created with [dims]
    dimensions has gone through, a [search] with a query of [dims]
    coordinates never throws: it returns at most [topK] results, each of
    them a document that passes the filter and that is the one stored
    under its own id. *)
Theorem search_total_on_any_store name dims calls query topK filter :
  List.length query = dims ->
  exists results,
    search query topK filter (performAll calls (newStore name dims)) = inl results
    /\ List.length results <= topK
    /\ forall r, In r results ->
         getDocument (doc_id (document r)) (performAll calls (newStore name dims))
         = Some (document r)
         /\ passesFilter filter (document r) = true.
Proof.
  intros E.
  destruct (StoreInv_performAll calls (newStore name dims) (StoreInv_new name dims))
    as [(W & N & K) D].
  set (st := performAll calls (newStore name dims)) in *. simpl in D.
  assert (Hlen : forall d, In d (JSMap.values (_documents st)) ->
                           List.length (embedding d) = List.length query).
  { intros d I. rewrite E, <- D. now apply W. }
  eexists. split; [|split].
  - unfold search. rewrite E, D, Nat.eqb_refl. simpl.
    rewrite (scoreAll_spec query filter _ Hlen). reflexivity.
  - apply firstn_le_length.
  - intros r I. apply firstn_incl in I.
    pose proof (sortResults_perm
                  (map (fun d => mkSearchResult d (cosineValue query (embedding d)))
                       (List.filter (passesFilter filter)
                                    (JSMap.values (_documents st))))) as Pm.
    apply (Permutation_in _ Pm) in I.
    apply in_map_iff in I as (d & <- & Id). simpl.
    apply filter_In in Id as [Id Pf]. split; [|exact Pf].
    unfold JSMap.values in Id. apply in_map_iff in Id as ([k d'] & Ed & Ikd).
    simpl in Ed. subst d'.
    unfold getDocument. rewrite <- (K k d Ikd).
    now apply sget_in.
Qed.

Lemma search_total_on_any_store_witness :
  exists results,
    search [1; 0; 0]%float 5 None
           (performAll [c_upsert [sampleDoc "a" [1; 0; 0]%float "x";
                                  sampleDoc "bad" [1; 0]%float "y"];
                        c_remove ["missing"%string]]
                       (newStore "test" 3))
    = inl results
    /\ List.length results <= 5
    /\ forall r, In r results ->
         getDocument (doc_id (document r))
                     (performAll [c_upsert [sampleDoc "a" [1; 0; 0]%float "x";
                                            sampleDoc "bad" [1; 0]%float "y"];
                                  c_remove ["missing"%string]]
                                 (newStore "test" 3))
         = Some (document r)
         /\ passesFilter None (document r) = true.
Proof.
  apply (search_total_on_any_store "test" 3
           [c_upsert [sampleDoc "a" [1; 0; 0]%float "x"; sampleDoc "bad" [1; 0]%float "y"];
            c_remove ["missing"%string]]
           [1; 0; 0]%float 5 None).
  reflexivity.
Defined.

Lemma remove_get ids : forall (m : JSMap.t string VectorDocument) id,
  NoDup (JSMap.keys m) ->
  JSMap.get String.eqb id
            (fold_left (fun m' i => JSMap.delete String.eqb i m') ids m)
  = if existsb (String.eqb id) ids then None else JSMap.get String.eqb id m.
Proof.
  induction ids as [|i ids IH]; intros m id N; simpl; [reflexivity|].
  rewrite IH by now apply skeys_delete_NoDup.
  rewrite sget_delete by exact N.
  destruct (String.eqb id i); simpl; [|reflexivity].
  now destruct (existsb (String.eqb id) ids).
Qed.

(** X15.  On a store whose ids are distinct (which every operation
    maintains), [remove] deletes exactly the listed ids: afterwards a
    listed id is absent and every other id maps to what it mapped to
    before.  The count never grows, and removing ids that are not stored
    changes nothing and raises no error. *)
Theorem remove_deletes_listed ids st :
  NoDup (JSMap.keys (_documents st)) ->
  (forall id, getDocument id (remove ids st)
              = if existsb (String.eqb id) ids then None else getDocument id st)
  /\ count (remove ids st) <= count st
  /\ ((forall id, In id ids -> getDocument id st = None) -> remove ids st = st).
Proof.
  intros N. split; [|split].
  - intros id. unfold getDocument, remove. simpl. now apply remove_get.
  - unfold count, remove. simpl. generalize (_documents st) as m.
    induction ids as [|i ids IH]; intros m; simpl; [lia|].
    etransitivity; [apply IH | apply ssize_delete].
  - intros Habs. unfold remove. destruct st as [nm dims m]. simpl in *. f_equal.
    unfold getDocument in Habs. simpl in Habs. clear N.
    induction ids as [|i ids IH]; simpl; [reflexivity|].
    rewrite sdelete_absent by (apply Habs; now left).
    apply IH. intros id I. apply Habs. now right.
Qed.

Lemma remove_deletes_listed_witness :
  (forall id, getDocument id (remove ["a"; "nope"]%string axesStore)
              = if existsb (String.eqb id) ["a"; "nope"]%string then None
                else getDocument id axesStore)
  /\ count (remove ["a"; "nope"]%string axesStore) <= count axesStore
  /\ ((forall id, In id ["a"; "nope"]%string -> getDocument id axesStore = None) ->
      remove ["a"; "nope"]%string axesStore = axesStore).
Proof.
  apply (remove_deletes_listed ["a"; "nope"]%string axesStore).
  unfold axesStore; simpl.
  repeat (constructor; [simpl; intuition discriminate|]). constructor.
Defined.

Lemma size_insertAll docs : forall m : JSMap.t string VectorDocument,
  JSMap.size m <= JSMap.size (insertAll docs m)
  /\ JSMap.size (insertAll docs m) <= JSMap.size m + List.length docs.
Proof.
  unfold insertAll.
  induction docs as [|d docs IH]; intros m; simpl; [lia|].
  destruct (IH (JSMap.set String.eqb (doc_id d) d m)) as [L U].
  rewrite ssize_set in L, U.
  destruct (JSMap.has String.eqb (doc_id d) m); lia.
Qed.

(** X16.  When every document of a batch has the store's
    dimensionality, [upsert] succeeds and keeps the dimensionality;
    afterwards an id of the batch maps to the last document of the batch
    that carries it, every other id maps to what it mapped to before,
    and the count has grown by at most the size of the batch and has not
    shrunk. *)
Theorem upsert_valid_batch docs st :
  (forall d, In d docs -> List.length (embedding d) = dimensions st) ->
  snd (upsert docs st) = inl tt
  /\ dimensions (fst (upsert docs st)) = dimensions st
  /\ (forall id, getDocument id (fst (upsert docs st))
                 = match find (fun d => String.eqb (doc_id d) id) (rev docs) with
                   | Some d => Some d
                   | None => getDocument id st
                   end)
  /\ count st <= count (fst (upsert docs st))
  /\ count (fst (upsert docs st)) <= count st + List.length docs.
Proof.
  intros H.
  pose proof (upsert_prefix docs st [] H) as E. rewrite app_nil_r in E.
  simpl in E. rewrite E. simpl.
  split; [reflexivity|]. split; [reflexivity|]. split.
  - intros id. unfold getDocument. simpl. apply get_insertAll.
  - unfold count. simpl. apply size_insertAll.
Qed.

Lemma upsert_valid_batch_witness :
  snd (upsert [sampleDoc "a" [0; 0; 1]%float "new a"; sampleDoc "w" [1; 1; 0]%float "w"]
              axesStore) = inl tt
  /\ dimensions (fst (upsert [sampleDoc "a" [0; 0; 1]%float "new a";
                              sampleDoc "w" [1; 1; 0]%float "w"] axesStore))
     = dimensions axesStore
  /\ (forall id, getDocument id (fst (upsert [sampleDoc "a" [0; 0; 1]%float "new a";
                                              sampleDoc "w" [1; 1; 0]%float "w"] axesStore))
                 = match find (fun d => String.eqb (doc_id d) id)
                              (rev [sampleDoc "a" [0; 0; 1]%float "new a";
                                    sampleDoc "w" [1; 1; 0]%float "w"]) with
                   | Some d => Some d
                   | None => getDocument id axesStore
                   end)
  /\ count axesStore
     <= count (fst (upsert [sampleDoc "a" [0; 0; 1]%float "new a";
                            sampleDoc "w" [1; 1; 0]%float "w"] axesStore))
  /\ count (fst (upsert [sampleDoc "a" [0; 0; 1]%float "new a";
                         sampleDoc "w" [1; 1; 0]%float "w"] axesStore))
     <= count axesStore
        + List.length [sampleDoc "a" [0; 0; 1]%float "new a"; sampleDoc "w" [1; 1; 0]%float "w"].
Proof.
  apply (upsert_valid_batch [sampleDoc "a" [0; 0; 1]%float "new a";
                             sampleDoc "w" [1; 1; 0]%float "w"] axesStore).
  intros d [<-|[<-|[]]]; reflexivity.
Defined.

End StoreInvariants.

(** ** [cosineSimilarity] *)

Section CosineFacts.
Import VectorStore.

Lemma sums_swap a : forall b dotProduct normA normB,
  sums b a (dotProduct, normB, normA)
  = (let '(d, na, nb) := sums a b (dotProduct, normA, normB) in (d, nb, na)).
Proof.
  induction a as [|x a IH]; intros [|y b] d na nb; try reflexivity.
  simpl. rewrite (float_mul_comm y x). apply IH.
Qed.

(** X17.  [cosineSimilarity] does not depend on the order of its two
    arguments. *)
Theorem cosineSimilarity_symmetric a b :
  List.length a = List.length b ->
  cosineSimilarity a b = cosineSimilarity b a.
Proof.
  intros H. unfold cosineSimilarity. rewrite H, Nat.eqb_refl. simpl. f_equal.
  unfold cosineValue. rewrite (sums_swap a b).
  destruct (sums a b (0, 0, 0)%float) as [[d na] nb].
  now rewrite (float_mul_comm (sqrt nb) (sqrt na)).
Qed.

Lemma cosineSimilarity_symmetric_witness :
  cosineSimilarity [1; 2; 3]%float [4; 5; 6]%float
  = cosineSimilarity [4; 5; 6]%float [1; 2; 3]%float.
Proof.
  apply (cosineSimilarity_symmetric [1; 2; 3]%float [4; 5; 6]%float).
  reflexivity.
Defined.

End CosineFacts.

(** ** [truncateHistory] and the shape of [buildContext] *)

Section HistoryFacts.
Import Utils Context ContextRuns.
Local Open Scope Z_scope.

Lemma historyTokens_app l1 l2 :
  historyTokens (l1 ++ l2) = historyTokens l1 + historyTokens l2.
Proof. induction l1 as [|m l1 IH]; simpl; [reflexivity | rewrite IH; lia]. Qed.

Lemma historyTokens_nonneg l : 0 <= historyTokens l.
Proof.
  induction l as [|m l IH]; simpl; [lia|].
  pose proof (estimateTokens_nonneg (messageText m)). lia.
Qed.

(** The loop takes messages from the most recent one backwards while
    they fit, and stops at the first one that does not. *)
Lemma truncateLoop_spec budget : forall reversed used result,
  exists taken rest,
    reversed = taken ++ rest
    /\ truncateLoop reversed budget used result = rev taken ++ result
    /\ (used <= budget -> used + historyTokens taken <= budget)
    /\ match rest with
       | [] => True
       | msg :: _ =>
           used + historyTokens taken + estimateTokens (messageText msg) > budget
       end.
Proof.
  induction reversed as [|msg older IH]; intros used result.
  - exists [], []. simpl. repeat split; intros; lia.
  - simpl.
    destruct (Z.gtb_spec (used + estimateTokens (messageText msg)) budget) as [G|L].
    + exists [], (msg :: older). simpl. repeat split; intros; lia.
    + destruct (IH (used + estimateTokens (messageText msg)) (msg :: result))
        as (taken & rest & E & T & B & M).
      exists (msg :: taken), rest. simpl. rewrite T, <- app_assoc.
      split; [now rewrite E|]. split; [reflexivity|]. split.
      * intros _. specialize (B L). lia.
      * destruct rest; [exact I | lia].
Qed.

Lemma truncateHistory_spec history budget :
  exists older,
    history = older ++ truncateHistory history budget
    /\ (budget <= 0 -> truncateHistory history budget = [])
    /\ (0 < budget -> historyTokens (truncateHistory history budget) <= budget)
    /\ (0 < budget ->
        match rev older with
        | [] => True
        | msg :: _ =>
            estimateTokens (messageText msg)
            + historyTokens (truncateHistory history budget) > budget
        end).
Proof.
  unfold truncateHistory.
  destruct (Z.leb_spec budget 0) as [Le|Gt].
  - exists history. rewrite app_nil_r.
    split; [reflexivity|]. split; [reflexivity|]. split; intros; lia.
  - destruct (truncateLoop_spec budget (rev history) 0 [])
      as (taken & rest & E & T & B & M).
    rewrite T, app_nil_r.
    exists (rev rest). split; [|split; [intros; lia|split]].
    + rewrite <- (rev_involutive history), E, rev_app_distr. reflexivity.
    + intros _. specialize (B ltac:(lia)).
      assert (R : forall l, historyTokens (rev l) = historyTokens l).
      { induction l as [|m l IHl]; simpl; [reflexivity|].
        rewrite historyTokens_app, IHl. simpl. lia. }
      rewrite R. lia.
    + intros _. rewrite rev_involutive.
      assert (R : forall l, historyTokens (rev l) = historyTokens l).
      { induction l as [|m l IHl]; simpl; [reflexivity|].
        rewrite historyTokens_app, IHl. simpl. lia. }
      rewrite R. destruct rest; [exact I | lia].
Qed.

(** X20.  [truncateHistory] keeps a suffix of the conversation: the
    most recent messages, in their order.  With a budget of 0 or less it
    keeps nothing; with a positive budget the estimates of the kept
    messages add up to at most the budget, and the suffix is the longest
    one that does: the message just before it, if any, would exceed the
    budget. *)
Theorem truncateHistory_keeps_recent history budget :
  exists older,
    history = older ++ truncateHistory history budget
    /\ (budget <= 0 -> truncateHistory history budget = [])
    /\ (0 < budget -> historyTokens (truncateHistory history budget) <= budget)
    /\ (0 < budget ->
        match rev older with
        | [] => True
        | msg :: _ =>
            estimateTokens (messageText msg)
            + historyTokens (truncateHistory history budget) > budget
        end).
Proof. apply truncateHistory_spec. Qed.

(** X21.  [buildContext] returns the system message (the prompt given,
    else the default one), then a suffix of the conversation history,
    then one user message whose last part is the query.  When any
    history is kept, the estimates of the system prompt, the scene
    summary, the retrieved text, the query and the kept history, plus the
    reserve of 500 tokens, fit the token budget.  When the store is
    empty or retrieval fails, the user message has no retrieved text and
    the call still succeeds. *)
Theorem buildContext_shape rt query history sceneContext tokenBudget systemPrompt :
  let system := match systemPrompt with Some p => p | None => defaultSystemPrompt end in
  let ragContext := ragTextOf rt tokenBudget system sceneContext in
  exists older kept,
    history = older ++ kept
    /\ buildContext rt query history sceneContext tokenBudget systemPrompt
       = mkMessage role_system [TextPart system] :: kept
         ++ [mkMessage role_user (userPartsOf sceneContext ragContext query)]
    /\ (kept <> [] ->
        estimateTokens system + estimateTokens sceneContext
        + estimateTokens ragContext + estimateTokens query
        + historyTokens kept + 500 <= tokenBudget)
    /\ (store_count rt = 0%nat \/ ranked rt = None -> ragContext = EmptyString).
Proof.
  intros system ragContext.
  unfold buildContext. cbv zeta. fold system.
  change (ragContextOf rt tokenBudget
            (estimateTokens system + estimateTokens sceneContext))
    with ragContext.
  set (used2 := if Nat.ltb 0 (store_count rt)
                then match ranked rt with
                     | Some _ => estimateTokens system + estimateTokens sceneContext
                                 + estimateTokens ragContext
                     | None => estimateTokens system + estimateTokens sceneContext
                     end
                else estimateTokens system + estimateTokens sceneContext).
  assert (U : used2 = estimateTokens system + estimateTokens sceneContext
                      + estimateTokens ragContext).
  { unfold used2, ragContext, ragTextOf, ragContextOf.
    assert (Z0 : estimateTokens EmptyString = 0) by reflexivity.
    destruct (Nat.ltb 0 (store_count rt)); [|rewrite Z0; lia].
    destruct (ranked rt); [reflexivity | rewrite Z0; lia]. }
  set (budget := tokenBudget - used2 - estimateTokens query - 500).
  destruct (truncateHistory_spec history budget) as (older & E & Z0 & B & _).
  exists older, (truncateHistory history budget).
  split; [exact E|]. split; [reflexivity|]. split.
  - intros NE.
    destruct (Z.leb_spec budget 0) as [Le|Gt]; [now rewrite (Z0 Le) in NE|].
    specialize (B Gt). revert B.
    generalize (historyTokens (truncateHistory history budget)). intros h B.
    unfold budget in B. rewrite U in B. lia.
  - unfold ragContext, ragTextOf, ragContextOf. intros [C|R].
    + now rewrite C.
    + rewrite R. now destruct (Nat.ltb 0 (store_count rt)).
Qed.

End HistoryFacts.

(** ** Size of the chunks of [chunkText], and when it returns *)

Section ChunkBounds.
Import Utils ChunkSizes.
Local Open Scope Z_scope.

Lemma length_string_of_list (l : list ascii) :
  String.length (string_of_list_ascii l) = List.length l.
Proof. induction l as [|c l IH]; simpl; [reflexivity | now rewrite IH]. Qed.

Lemma length_list_of_string (s : string) :
  List.length (list_ascii_of_string s) = String.length s.
Proof. induction s as [|c s IH]; simpl; [reflexivity | now rewrite IH]. Qed.

Lemma length_dropSpaces l : (List.length (dropSpaces l) <= List.length l)%nat.
Proof.
  induction l as [|c l IH]; simpl; [lia|].
  destruct (isSpace c); simpl; lia.
Qed.

Lemma length_trim s : (String.length (trim s) <= String.length s)%nat.
Proof.
  unfold trim. rewrite length_string_of_list, length_rev.
  etransitivity; [apply length_dropSpaces|]. rewrite length_rev.
  etransitivity; [apply length_dropSpaces|]. now rewrite length_list_of_string.
Qed.

Lemma estimateTokens_length s :
  estimateTokens s = (Z.of_nat (String.length s) + 3) / 4.
Proof. unfold estimateTokens. now destruct s. Qed.

Lemma estimateTokens_mono a b :
  (String.length a <= String.length b)%nat -> estimateTokens a <= estimateTokens b.
Proof.
  intros H. rewrite !estimateTokens_length. apply Z.div_le_mono; lia.
Qed.

Lemma estimateTokens_trim s : estimateTokens (trim s) <= estimateTokens s.
Proof. apply estimateTokens_mono, length_trim. Qed.

Lemma estimateTokens_chars s maxTokens :
  Z.of_nat (String.length s) <= maxTokens * 4 -> estimateTokens s <= maxTokens.
Proof.
  intros H. rewrite estimateTokens_length.
  assert (L : (Z.of_nat (String.length s) + 3) / 4 < maxTokens + 1)
    by (apply Z.div_lt_upper_bound; lia).
  lia.
Qed.

Lemma length_substring n : forall m s,
  (String.length (substring n m s) <= m)%nat.
Proof.
  induction n as [|n IH]; intros m s.
  - revert s. induction m as [|m IHm]; intros [|c s]; simpl; try lia.
    specialize (IHm s). lia.
  - destruct s as [|c s]; simpl; [destruct m; simpl; lia | apply IH].
Qed.

Lemma length_slice s i maxChars :
  0 <= maxChars ->
  Z.of_nat (String.length (slice s i (i + maxChars))) <= maxChars.
Proof.
  intros H. unfold slice.
  set (len := Z.of_nat (String.length s)).
  set (a := if i <? 0 then Z.max (len + i) 0 else Z.min i len).
  set (b := if i + maxChars <? 0 then Z.max (len + (i + maxChars)) 0
            else Z.min (i + maxChars) len).
  pose proof (length_substring (Z.to_nat a) (Z.to_nat (Z.max (b - a) 0)) s) as L.
  assert (B : b - a <= maxChars).
  { unfold a, b. assert (0 <= len) by (unfold len; lia).
    destruct (Z.ltb_spec i 0), (Z.ltb_spec (i + maxChars) 0); lia. }
  lia.
Qed.

Lemma fits_snoc maxTokens chunks c :
  fits maxTokens chunks -> estimateTokens c <= maxTokens ->
  fits maxTokens (chunks ++ [c]).
Proof. intros F H. apply Forall_app. split; [exact F | now constructor]. Qed.

Lemma sliceLoop_fits maxTokens step sentence : forall fuel i chunks chunks',
  0 <= maxTokens ->
  fits maxTokens chunks ->
  sliceLoop fuel sentence (maxTokens * 4) step i chunks = Some chunks' ->
  fits maxTokens chunks'.
Proof.
  induction fuel as [|fuel IH]; intros i chunks chunks' M F H; simpl in H.
  - destruct (i <? Z.of_nat (String.length sentence)); [discriminate|].
    now injection H as <-.
  - destruct (i <? Z.of_nat (String.length sentence)).
    + eapply IH; [exact M| |exact H].
      apply fits_snoc; [exact F|].
      etransitivity; [apply estimateTokens_trim|].
      apply estimateTokens_chars, length_slice. lia.
    + now injection H as <-.
Qed.

Lemma sentenceLoop_fits maxTokens overlap sentences :
  forall chunks sentenceChunk chunks' sentenceChunk',
  0 <= maxTokens ->
  fits maxTokens chunks -> estimateTokens sentenceChunk <= maxTokens ->
  sentenceLoop sentences maxTokens overlap chunks sentenceChunk
  = Some (chunks', sentenceChunk') ->
  fits maxTokens chunks' /\ estimateTokens sentenceChunk' <= maxTokens.
Proof.
  induction sentences as [|sentence rest IH];
    intros chunks sc chunks' sc' M F S H.
  - simpl in H. injection H as <- <-. auto.
  - rewrite sentenceLoop_cons in H.
    destruct (Z.leb_spec (estimateTokens (sc ++ sentence)) maxTokens) as [Le|Gt].
    + eapply IH; eauto.
    + assert (F1 : fits maxTokens
                     (if nonEmpty sc then chunks ++ [trim sc] else chunks)).
      { destruct (nonEmpty sc); [|exact F].
        apply fits_snoc; [exact F|].
        etransitivity; [apply estimateTokens_trim | exact S]. }
      destruct (Z.gtb_spec (Z.of_nat (String.length sentence)) (maxTokens * 4))
        as [Long|Short].
      * destruct (sliceLoop _ sentence _ _ 0 _) as [chunks2|] eqn:E; [|discriminate].
        eapply IH; [exact M| | |exact H].
        -- eapply sliceLoop_fits; eauto.
        -- exact M.
      * eapply IH; [exact M|exact F1| |exact H].
        now apply estimateTokens_chars.
Qed.

Lemma estimateTokens_app_r a b : estimateTokens b <= estimateTokens (a ++ b).
Proof.
  apply estimateTokens_mono. rewrite string_length_app. lia.
Qed.

Lemma paragraphLoop_fits maxTokens overlap paragraphs :
  forall chunks current chunks' current',
  0 <= maxTokens ->
  fits maxTokens chunks -> estimateTokens current <= maxTokens ->
  paragraphLoop paragraphs maxTokens overlap chunks current
  = Some (chunks', current') ->
  fits maxTokens chunks' /\ estimateTokens current' <= maxTokens.
Proof.
  induction paragraphs as [|para rest IH];
    intros chunks current chunks' current' M F C H.
  - simpl in H. injection H as <- <-. auto.
  - rewrite paragraphLoop_cons in H.
    destruct (nonEmpty (trim para)) eqn:NE; cbn [negb] in H; [|eapply IH; eauto].
    destruct (Z.leb_spec (estimateTokens (current ++ blankLine ++ trim para))
                         maxTokens) as [Le|Gt].
    + eapply IH; [exact M|exact F| |exact H].
      destruct (nonEmpty current); [exact Le|].
      etransitivity; [|exact Le].
      etransitivity; [apply (estimateTokens_app_r blankLine)|].
      apply estimateTokens_app_r.
    + assert (F1 : fits maxTokens
                     (if nonEmpty current then chunks ++ [current] else chunks)).
      { destruct (nonEmpty current); [|exact F]. now apply fits_snoc. }
      destruct (Z.gtb_spec (estimateTokens (trim para)) maxTokens) as [Big|Small].
      * destruct (sentenceLoop _ maxTokens overlap _ _) as [[chunks2 sc]|] eqn:E;
          [|discriminate].
        assert (M0 : estimateTokens EmptyString <= maxTokens) by exact M.
        destruct (sentenceLoop_fits _ _ _ _ _ _ _ M F1 M0 E) as [F2 S2].
        eapply IH; [exact M| | |exact H].
        -- destruct (nonEmpty sc); [|exact F2].
           apply fits_snoc; [exact F2|].
           etransitivity; [apply estimateTokens_trim | exact S2].
        -- exact M.
      * eapply IH; [exact M|exact F1|exact Small|exact H].
Qed.

(** X22.  With a non-negative [maxTokens], every chunk [chunkText]
    returns is non-empty and its estimate is at most [maxTokens], as
    the documentation of the function promises, whatever the text and
    the overlap. *)
Theorem chunkText_chunks_fit text maxTokens overlap chunks :
  0 <= maxTokens ->
  chunkText text maxTokens overlap = Some chunks ->
  Forall (fun c => c <> EmptyString /\ estimateTokens c <= maxTokens) chunks.
Proof.
  intros M H. apply Forall_forall. intros c Ic. unfold chunkText in H.
  destruct (nonEmpty text); simpl in H; [|injection H as <-; destruct Ic].
  destruct (paragraphLoop _ maxTokens overlap [] _) as [[chunks0 current]|] eqn:E;
    [|discriminate].
  injection H as <-. apply filter_In in Ic as [Ic Nc].
  split.
  - intros ->. discriminate Nc.
  - assert (M0 : estimateTokens EmptyString <= maxTokens) by exact M.
    destruct (paragraphLoop_fits _ _ _ _ _ _ _ M (Forall_nil _) M0 E) as [F C].
    assert (F' : fits maxTokens
                   (if nonEmpty current then chunks0 ++ [current] else chunks0)).
    { destruct (nonEmpty current); [now apply fits_snoc | exact F]. }
    unfold fits in F'. rewrite Forall_forall in F'. now apply F'.
Qed.

Lemma chunkText_chunks_fit_witness :
  Forall (fun c => c <> EmptyString /\ estimateTokens c <= 3)
         ["One. Two."; "Three."]%string.
Proof.
  apply (chunkText_chunks_fit "One. Two. Three." 3 0 ["One. Two."; "Three."]%string).
  - lia.
  - reflexivity.
Defined.

Lemma sliceLoop_returns sentence maxChars step : forall fuel i chunks,
  0 < step -> Z.of_nat (String.length sentence) - i < Z.of_nat fuel ->
  exists chunks', sliceLoop fuel sentence maxChars step i chunks = Some chunks'.
Proof.
  induction fuel as [|fuel IH]; intros i chunks P H; simpl.
  - destruct (Z.ltb_spec i (Z.of_nat (String.length sentence))); [lia | eauto].
  - destruct (Z.ltb_spec i (Z.of_nat (String.length sentence))); [|eauto].
    apply IH; lia.
Qed.

Lemma sentenceLoop_returns maxTokens overlap sentences :
  overlap < maxTokens ->
  forall chunks sentenceChunk,
  exists out, sentenceLoop sentences maxTokens overlap chunks sentenceChunk = Some out.
Proof.
  intros O. induction sentences as [|sentence rest IH]; intros chunks sc.
  - simpl. eauto.
  - rewrite sentenceLoop_cons.
    destruct (estimateTokens (sc ++ sentence) <=? maxTokens); [apply IH|].
    destruct (Z.of_nat (String.length sentence) >? maxTokens * 4); [|apply IH].
    destruct (sliceLoop_returns sentence (maxTokens * 4)
                (maxTokens * 4 - overlap * 4) (S (String.length sentence)) 0
                (if nonEmpty sc then chunks ++ [trim sc] else chunks))
      as (chunks2 & ->); [lia | lia | apply IH].
Qed.

Lemma paragraphLoop_returns maxTokens overlap paragraphs :
  overlap < maxTokens ->
  forall chunks current,
  exists out, paragraphLoop paragraphs maxTokens overlap chunks current = Some out.
Proof.
  intros O. induction paragraphs as [|para rest IH]; intros chunks current.
  - simpl. eauto.
  - rewrite paragraphLoop_cons.
    destruct (nonEmpty (trim para)); cbn [negb]; [|apply IH].
    destruct (estimateTokens (current ++ blankLine ++ trim para) <=? maxTokens);
      [apply IH|].
    destruct (estimateTokens (trim para) >? maxTokens); [|apply IH].
    destruct (sentenceLoop_returns maxTokens overlap (sentencesOf (trim para)) O
                (pendingChunks chunks current) EmptyString) as ([chunks2 sc] & ->).
    apply IH.
Qed.

(** X23.  [chunkText] returns whenever [overlap] is smaller than
    [maxTokens], whatever the text: the character loop then advances by
    at least 4 code units at every turn. *)
Theorem chunkText_returns text maxTokens overlap :
  overlap < maxTokens ->
  exists chunks, chunkText text maxTokens overlap = Some chunks.
Proof.
  intros O. unfold chunkText.
  destruct (nonEmpty text); simpl; [|eauto].
  destruct (paragraphLoop_returns maxTokens overlap (splitParagraphs text) O
              [] EmptyString) as ([chunks current] & ->).
  eauto.
Qed.

Lemma chunkText_returns_witness :
  exists chunks, chunkText "One. Two. Three." 3 0 = Some chunks.
Proof. apply (chunkText_returns "One. Two. Three." 3 0). lia. Defined.

(** X24.  The estimate grows with the length of the text and is
    subadditive: the estimate of a concatenation is at most the sum of
    the estimates of its parts, so adding up the estimates of pieces
    never under-counts the whole. *)
Theorem estimateTokens_subadditive a b :
  estimateTokens a <= estimateTokens (a ++ b)
  /\ estimateTokens b <= estimateTokens (a ++ b)
  /\ estimateTokens (a ++ b) <= estimateTokens a + estimateTokens b.
Proof.
  split; [|split].
  - apply estimateTokens_mono. rewrite string_length_app. lia.
  - apply estimateTokens_app_r.
  - destruct a as [|ca a]; [simpl; change (estimateTokens "") with 0; lia|].
    destruct b as [|cb b].
    { rewrite string_app_nil_r. change (estimateTokens "") with 0. lia. }
    rewrite !estimateTokens_length, string_length_app.
    set (x := Z.of_nat (String.length (String ca a))).
    set (y := Z.of_nat (String.length (String cb b))).
    rewrite Nat2Z.inj_add. fold x y.
    pose proof (Z.div_mod (x + 3) 4 ltac:(lia)).
    pose proof (Z.mod_pos_bound (x + 3) 4 ltac:(lia)).
    pose proof (Z.div_mod (y + 3) 4 ltac:(lia)).
    pose proof (Z.mod_pos_bound (y + 3) 4 ltac:(lia)).
    assert (L : (x + y + 3) / 4 < (x + 3) / 4 + (y + 3) / 4 + 1)
      by (apply Z.div_lt_upper_bound; lia).
    lia.
Qed.

End ChunkBounds.

(** ** Tool calls in the reasoning trace, and the handler registry *)

Section ToolTrace.
Import Tools Stream.

Lemma execute_result_shape hs call :
  (tr_success (execute hs call) = true
   /\ exists v, tr_data (execute hs call) = Some v)
  \/ (tr_success (execute hs call) = false
      /\ tr_data (execute hs call) = None).
Proof.
  unfold execute.
  destruct (JSMap.get String.eqb (call_name call) hs) as [h|]; [|now right].
  destruct (negb (fst (validateToolInput (call_input call) (schema h))));
    [now right|].
  destruct (execute_handler h (call_input call)); [left; simpl; eauto | now right].
Qed.

(** X25.  Once [processStream] is over, no [tool_call] entry it has
    appended is left [pending].  The entry of a call that failed has
    status [error] and no output: the error message of the result is
    not copied into the trace.  The entry of a call that succeeded has
    status [success] and the value the handler returned as output. *)
Theorem processStream_settles_calls hs stream trace :
  exists new,
    processStream hs stream trace = trace ++ new
    /\ forall name input output st,
         In (E_tool_call name input output st) new ->
         exists call,
           In call (allCalls stream)
           /\ name = call_name call /\ input = call_input call
           /\ output = tr_data (execute hs call)
           /\ ((st = cs_success /\ tr_success (execute hs call) = true
                /\ exists v, output = Some v)
               \/ (st = cs_error /\ tr_success (execute hs call) = false
                   /\ output = None)).
Proof.
  assert (H0 : StreamInv hs trace (mkState trace None None) "" "" []).
  { exists []. simpl. rewrite app_nil_r. repeat split; auto. }
  apply (processStream_inv hs trace stream) in H0.
  destruct H0 as (new & E & _ & _ & SC). simpl in SC.
  exists new. split; [exact E|].
  intros name input output st I.
  assert (I' : In (E_tool_call name input output st) (filter isToolCall new)).
  { apply filter_In. split; [exact I | reflexivity]. }
  rewrite SC in I'. apply in_map_iff in I' as (call & Ec & Ic).
  exists call. split; [exact Ic|].
  unfold settledEntry, settle in Ec. injection Ec as <- <- <- <-.
  split; [reflexivity|]. split; [reflexivity|]. split; [reflexivity|].
  destruct (execute_result_shape hs call) as [(S & v & D)|(S & D)]; rewrite S.
  - left. split; [reflexivity|]. split; [reflexivity|]. eauto.
  - right. auto.
Qed.

(** X26.  Registering a handler under a name makes calls to that name
    run the new handler, whatever was registered under the name before,
    and leaves the outcome of calls to every other name as it was. *)
Theorem registerHandler_overrides name h hs call :
  execute (registerHandler name h hs) call
  = if String.eqb (call_name call) name
    then execute (registerHandler name h (JSMap.empty _ _)) call
    else execute hs call.
Proof.
  unfold execute, registerHandler.
  destruct (String.eqb_spec (call_name call) name) as [->|N].
  - rewrite sget_set_same. simpl. now rewrite String.eqb_refl.
  - rewrite sget_set_other by congruence. reflexivity.
Qed.

End ToolTrace.

(** ** [removeByPrefix] *)

Section IndexingFacts.
Import VectorStore StoreRuns Indexing.

Lemma chunkId_not_docId docId i : chunkId docId i <> docId.
Proof.
  unfold chunkId. intros E. apply (f_equal String.length) in E.
  rewrite string_length_app in E. simpl in E. lia.
Qed.

(** X27.  [removeByPrefix] removes the document stored under exactly
    the given id and nothing else: every document whose id merely starts
    with the prefix stays in the store, in particular all the chunks
    [docId:chunk:i] that [indexDocument] has stored for a document. *)
Theorem removeByPrefix_exact_id_only docId st :
  NoDup (JSMap.keys (_documents st)) ->
  getDocument docId (removeByPrefix docId st) = None
  /\ (forall id, id <> docId ->
                 getDocument id (removeByPrefix docId st) = getDocument id st)
  /\ (forall i, getDocument (chunkId docId i) (removeByPrefix docId st)
                = getDocument (chunkId docId i) st).
Proof.
  intros N.
  assert (G : forall id, getDocument id (removeByPrefix docId st)
                         = if String.eqb id docId then None else getDocument id st).
  { intros id. unfold getDocument, removeByPrefix, remove. simpl.
    now apply sget_delete. }
  split; [|split].
  - now rewrite G, String.eqb_refl.
  - intros id Hne. rewrite G.
    destruct (String.eqb_spec id docId); [contradiction | reflexivity].
  - intros i. rewrite G.
    destruct (String.eqb_spec (chunkId docId i) docId) as [E|_]; [|reflexivity].
    now apply chunkId_not_docId in E.
Qed.

Lemma removeByPrefix_exact_id_only_witness :
  getDocument "a" (removeByPrefix "a" axesStore) = None
  /\ (forall id, id <> "a"%string ->
                 getDocument id (removeByPrefix "a" axesStore)
                 = getDocument id axesStore)
  /\ (forall i, getDocument (chunkId "a" i) (removeByPrefix "a" axesStore)
                = getDocument (chunkId "a" i) axesStore).
Proof.
  apply (removeByPrefix_exact_id_only "a" axesStore).
  unfold axesStore; simpl.
  repeat (constructor; [simpl; intuition discriminate|]). constructor.
Defined.

End IndexingFacts.

(** ** [fetchWithRetry] *)

Section RetryFacts.
Import Retry.
Variable parseInt : string -> R.

Lemma attempts_spec w maxRetries : forall remaining attempt lastError slept,
  attempt + remaining = S maxRetries ->
  (remaining = 0 -> exists e, lastError = Some e /\ fetch w maxRetries = inr e) ->
  (forall j, j < attempt -> retried w j) ->
  let result := attempts parseInt w maxRetries remaining attempt lastError slept in
  List.length (snd result) <= List.length slept + (maxRetries - attempt)
  /\ match fst result with
     | inl response =>
         exists k, k <= maxRetries /\ fetch w k = inl response
                   /\ (status response <> 429%Z \/ k = maxRetries)
                   /\ forall j, j < k -> retried w j
     | inr error =>
         fetch w maxRetries = inr error
         /\ forall j, j < maxRetries -> retried w j
     end.
Proof.
  induction remaining as [|remaining IH]; intros attempt lastError slept E Last Before.
  - destruct (Last eq_refl) as (e & -> & Fe). simpl. split; [lia|].
    split; [exact Fe|]. intros j Hj. apply Before. lia.
  - cbn [attempts].
    destruct (fetch w attempt) as [response|error] eqn:F.
    + destruct (Z.eqb_spec (status response) 429) as [S429|N429]; simpl.
      * destruct (Nat.ltb_spec attempt maxRetries) as [Lt|Ge]; simpl.
        -- specialize (IH (S attempt) lastError
                          (slept ++ [delayFor parseInt w attempt response])).
           cbv zeta in IH. rewrite length_app in IH. simpl in IH.
           destruct IH as [L O]; [lia | intros; lia | |].
           { intros j Hj. destruct (Nat.eq_dec j attempt) as [->|];
               [unfold retried; now rewrite F | apply Before; lia]. }
           split; [lia | exact O].
        -- split; [lia|]. exists attempt. split; [lia|]. split; [exact F|].
           split; [right; lia | exact Before].
      * split; [lia|]. exists attempt. split; [lia|]. split; [exact F|].
        split; [now left | exact Before].
    + specialize (IH (S attempt) (Some error)
                     (if Nat.ltb attempt maxRetries
                      then slept ++ [backoff w attempt] else slept)).
      cbv zeta in IH.
      destruct IH as [L O]; [lia | | |].
      { intros R0. exists error. split; [reflexivity|].
        assert (attempt = maxRetries) by lia. now subst. }
      { intros j Hj. destruct (Nat.eq_dec j attempt) as [->|];
          [unfold retried; now rewrite F | apply Before; lia]. }
      split; [|exact O].
      destruct (Nat.ltb_spec attempt maxRetries); [rewrite length_app in L; simpl in L|];
        lia.
Qed.

(** X28.  [fetchWithRetry] sleeps at most [maxRetries] times.  It
    returns the first response that is not a 429, or the response of
    attempt number [maxRetries] whatever its status: a 429 at the last
    attempt is returned, not thrown.  It throws only when that last
    attempt throws, and then it throws that attempt's error; every
    earlier attempt threw or was answered 429. *)
Theorem fetchWithRetry_outcome w maxRetries :
  List.length (snd (fetchWithRetry parseInt w maxRetries)) <= maxRetries
  /\ match fst (fetchWithRetry parseInt w maxRetries) with
     | inl response =>
         exists k, k <= maxRetries /\ fetch w k = inl response
                   /\ (status response <> 429%Z \/ k = maxRetries)
                   /\ forall j, j < k -> retried w j
     | inr error =>
         fetch w maxRetries = inr error
         /\ forall j, j < maxRetries -> retried w j
     end.
Proof.
  unfold fetchWithRetry.
  destruct (attempts_spec w maxRetries (S maxRetries) 0 None []) as [L O];
    [lia | discriminate | intros; lia |].
  change (List.length (@nil R)) with 0 in L. split; [lia | exact O].
Qed.

End RetryFacts.

Section RetryExamples.
Import Retry.
Local Open Scope R_scope.

(** Two rate-limited attempts, then success: two sleeps of 1 and 2 seconds. *)
Lemma fetchWithRetry_busyWorld :
  fetchWithRetry (fun _ => 0) busyWorld 3
  = (inl (mkResponse 200 None),
     [Rmin (1000 * 2 ^ 0 + 0 * 1000) 30000; Rmin (1000 * 2 ^ 1 + 0 * 1000) 30000]).
Proof. reflexivity. Qed.

(** With a single retry allowed the second 429 is handed to the caller. *)
Lemma fetchWithRetry_busyWorld_gives_up :
  fst (fetchWithRetry (fun _ => 0) busyWorld 1) = inl (mkResponse 429 None).
Proof. reflexivity. Qed.

End RetryExamples.

(** ** [parseSSEStream] *)

Section SSEFacts.
Import Utils SSE.

Lemma splitLines_nonempty l : forall cur, splitLines l cur <> [].
Proof.
  induction l as [|c r IH]; intros cur; simpl; [discriminate|].
  destruct (isNewline c); [discriminate | apply IH].
Qed.

Lemma splitLines_prefix p : forall l cur,
  noNewline p -> splitLines (p ++ l) cur = splitLines l (rev p ++ cur).
Proof.
  induction p as [|c p IH]; intros l cur N; [reflexivity|].
  simpl. rewrite (N c (or_introl eq_refl)).
  rewrite IH by (intros x I; apply N; now right).
  now rewrite <- app_assoc.
Qed.

Lemma removelast_cons (A : Type) (x : A) l :
  l <> [] -> removelast (x :: l) = x :: removelast l.
Proof. destruct l; [contradiction | reflexivity]. Qed.

Lemma last_cons (A : Type) (x : A) l d : l <> [] -> last (x :: l) d = last l d.
Proof. destruct l; [contradiction | reflexivity]. Qed.

(** Splitting a text that goes on: the complete lines are those already
    found, and the rest is found by going on from the last piece. *)
Lemma splitLines_app l1 : forall cur l2,
  noNewline cur ->
  splitLines (l1 ++ l2) cur
  = removelast (splitLines l1 cur)
    ++ splitLines (list_ascii_of_string (last (splitLines l1 cur) EmptyString) ++ l2) [].
Proof.
  induction l1 as [|c r IH]; intros cur l2 N.
  - simpl. rewrite list_ascii_of_string_of_list_ascii.
    rewrite splitLines_prefix.
    + now rewrite rev_involutive, app_nil_r.
    + intros x I. apply N. now apply in_rev.
  - cbn [app splitLines]. destruct (isNewline c) eqn:E.
    + rewrite removelast_cons, last_cons by apply splitLines_nonempty.
      cbn [app]. f_equal. apply IH. intros x [].
    + apply IH. intros x [<-|I]; [exact E | now apply N].
Qed.

Lemma split_app a b :
  split (a ++ b)
  = removelast (split a) ++ split (last (split a) EmptyString ++ b).
Proof.
  unfold split. rewrite !list_ascii_app.
  apply splitLines_app. intros x [].
Qed.

Lemma linesLoop_app l1 : forall l2 yielded,
  linesLoop (l1 ++ l2) yielded
  = match linesLoop l1 yielded with
    | (yielded', true) => (yielded', true)
    | (yielded', false) => linesLoop l2 yielded'
    end.
Proof.
  induction l1 as [|line rest IH]; intros l2 yielded; simpl; [reflexivity|].
  destruct (payloadOf line) as [data|]; [|apply IH].
  destruct (String.eqb data "[DONE]"); [reflexivity | apply IH].
Qed.

Lemma removelast_app_nonempty (A : Type) (l1 l2 : list A) :
  l2 <> [] -> removelast (l1 ++ l2) = l1 ++ removelast l2.
Proof. intros H. now apply removelast_app. Qed.

(** The reads are processed as if they had arrived in one piece. *)
Lemma readLoop_spec rest : forall value buffer yielded,
  readLoop (value :: rest) buffer yielded
  = fst (linesLoop (removelast (split (buffer ++ value ++ concatAll rest))) yielded).
Proof.
  induction rest as [|next rest IH]; intros value buffer yielded.
  - cbn [readLoop concatAll fold_right]. rewrite string_app_nil_r.
    now destruct (linesLoop (removelast (split (buffer ++ value))) yielded) as [y []].
  - cbn [readLoop]. cbv zeta.
    change (concatAll (next :: rest)) with (next ++ concatAll rest)%string.
    rewrite <- string_app_assoc.
    rewrite (split_app (buffer ++ value) (next ++ concatAll rest)).
    rewrite removelast_app_nonempty by apply splitLines_nonempty.
    rewrite linesLoop_app.
    destruct (linesLoop (removelast (split (buffer ++ value))) yielded) as [y []];
      [reflexivity | apply IH].
Qed.

Lemma split_noNewline text :
  noNewline (list_ascii_of_string text) -> split text = [text].
Proof.
  intros N. unfold split.
  rewrite <- (app_nil_r (list_ascii_of_string text)), splitLines_prefix by exact N.
  simpl. now rewrite app_nil_r, rev_involutive, string_of_list_ascii_of_string.
Qed.

Lemma splitLines_last_noNewline l : forall cur,
  noNewline cur ->
  noNewline (list_ascii_of_string (last (splitLines l cur) EmptyString)).
Proof.
  induction l as [|c r IH]; intros cur N.
  - simpl. rewrite list_ascii_of_string_of_list_ascii.
    intros x I. apply N. now apply in_rev.
  - cbn [splitLines]. destruct (isNewline c) eqn:E.
    + rewrite last_cons by apply splitLines_nonempty. apply IH. intros x [].
    + apply IH. intros x [<-|I]; [exact E | now apply N].
Qed.

Lemma split_last_noNewline text :
  noNewline (list_ascii_of_string (last (split text) EmptyString)).
Proof. apply splitLines_last_noNewline. intros x []. Qed.

(** X29.  What [parseSSEStream] yields does not depend on how the body
    is cut into reads: it is what it yields when the whole body arrives
    in one read.  Only complete lines are looked at: text after the last
    line feed is never yielded, so appending a read without line feed
    changes nothing. *)
Theorem parseSSEStream_read_boundaries reads :
  parseSSEStream (Some reads) = parseSSEStream (Some [concatAll reads])
  /\ forall tail, noNewline (list_ascii_of_string tail) ->
                  parseSSEStream (Some (reads ++ [tail])) = parseSSEStream (Some reads).
Proof.
  assert (One : forall text,
            parseSSEStream (Some [text])
            = fst (linesLoop (removelast (split text)) [])).
  { intros text. unfold parseSSEStream. rewrite readLoop_spec.
    cbn [concatAll fold_right]. now rewrite string_app_nil_r. }
  assert (All : forall l,
            parseSSEStream (Some l)
            = fst (linesLoop (removelast (split (concatAll l))) [])).
  { intros [|value rest]; [reflexivity|].
    unfold parseSSEStream. now rewrite readLoop_spec. }
  split.
  - now rewrite One, All.
  - intros tail N. rewrite !All, concatAll_snoc.
    rewrite (split_app (concatAll reads) tail).
    rewrite removelast_app_nonempty by apply splitLines_nonempty.
    rewrite linesLoop_app.
    destruct (linesLoop (removelast (split (concatAll reads))) []) as [y []];
      [reflexivity|].
    assert (E : exists piece, split (last (split (concatAll reads)) EmptyString ++ tail)
                              = [piece]).
    { pose proof (split_last_noNewline (concatAll reads)) as N0.
      eexists. apply split_noNewline.
      rewrite list_ascii_app. intros c I. apply in_app_or in I as [I|I]; auto. }
    destruct E as (piece & ->). reflexivity.
Qed.

(** Two events cut in the middle of a line, then the end marker; the
    event after the marker is not yielded. *)
Lemma parseSSEStream_sample :
  parseSSEStream
    (Some [("data: a" ++ String "010" "da")%string;
           ("ta: b" ++ String "010" ("data: [DONE]" ++ String "010"
                                       ("data: c" ++ String "010" "")))%string])
  = ["a"; "b"]%string.
Proof. reflexivity. Qed.

(** A last line without line feed is not yielded. *)
Lemma parseSSEStream_unterminated :
  parseSSEStream (Some [("data: a" ++ String "010" "data: b")%string])
  = ["a"%string].
Proof. reflexivity. Qed.

End SSEFacts.
